(** * Furigana segmentation and interval resolution

    A shallow embedding of the segmentation-and-alignment engine of the
    automatic furigana plugin:

    - [furiganaUtils.ts]: script predicates, [splitOkurigana],
      [getFuriganaSegmentsSync] and the Reading Mode converter
      [convertFurigana];
    - [regex.ts]: the manual-override and automatic-span patterns;
    - [furiganaLivePreviewMode.ts]: [rangesOverlap], [inlineBacktickRanges],
      the Live Preview pass [buildDecorations] and the widget's
      [toDOM];
    - [furiganaReadingMode.ts]: [isSkippableElement] and
      [collectTextNodes];
    - [kuromojiDictInstaller.ts], [kuromojiInit.ts] and the worker: the
      dictionary installer and the rewriting of the dictionary requests.

    JavaScript strings are sequences of UTF-16 code units, and every index the
    code computes ([surface[i]], [slice], [split('')], [m.index]) counts code
    units, so a string is a [list Z] of code units here and a JavaScript
    number used as an offset is a [Z]. *)

From Stdlib Require Import ZArith List Bool Lia Sorted Permutation.
From Stdlib Require String Ascii.
Import ListNotations.
Open Scope Z_scope.

(* ------------------------------------------------------------------ *)
(** * JavaScript strings *)
(* ------------------------------------------------------------------ *)

Module JS.

Definition jsstring := list Z.

(** [s.length] *)
Definition slen (s : jsstring) : Z := Z.of_nat (length s).

(** [s[i]]: [None] stands for [undefined]. *)
Definition charAt (s : jsstring) (i : Z) : option Z :=
  if i <? 0 then None else nth_error s (Z.to_nat i).

(** Truthiness of a string: the empty string is the only falsy one. *)
Definition truthy (s : jsstring) : bool :=
  match s with [] => false | _ :: _ => true end.

Fixpoint streq (a b : jsstring) : bool :=
  match a, b with
  | [], [] => true
  | x :: a', y :: b' => (x =? y) && streq a' b'
  | _, _ => false
  end.

(** Relative index resolution shared by [slice]'s two arguments. *)
Definition clampIndex (len k : Z) : Z :=
  if k <? 0 then Z.max (len + k) 0 else Z.min k len.

(** [s.slice(a, b)] *)
Definition slice (s : jsstring) (a b : Z) : jsstring :=
  let len := slen s in
  let start := clampIndex len a in
  let stop := clampIndex len b in
  firstn (Z.to_nat (Z.max (stop - start) 0)) (skipn (Z.to_nat start) s).

(** [s.slice(a)] *)
Definition sliceFrom (s : jsstring) (a : Z) : jsstring := slice s a (slen s).

(** [s.startsWith(h)] *)
Fixpoint startsWith (s h : jsstring) : bool :=
  match h, s with
  | [], _ => true
  | y :: h', x :: s' => (x =? y) && startsWith s' h'
  | _ :: _, [] => false
  end.

(** [s.endsWith(h)] *)
Definition endsWith (s h : jsstring) : bool := startsWith (rev s) (rev h).

(** [s.split(sep)] for a one-unit separator: always at least one piece. *)
Fixpoint splitOn (sep : Z) (s : jsstring) : list jsstring :=
  match s with
  | [] => [[]]
  | c :: s' =>
      match splitOn sep s' with
      | [] => [[c]]
      | p :: ps => if c =? sep then [] :: p :: ps else (c :: p) :: ps
      end
  end.

(** [s.split('')]: one string per code unit. *)
Definition splitChars (s : jsstring) : list jsstring := map (fun c => [c]) s.

(** [xs.slice(1)] on an array. *)
Definition arrayTail {A} (xs : list A) : list A := tl xs.

End JS.
Import JS.

(* ------------------------------------------------------------------ *)
(** * Script classifier ([furiganaUtils.ts]) *)
(* ------------------------------------------------------------------ *)

Definition inRange (lo hi c : Z) : bool := (lo <=? c) && (c <=? hi).

(** [KANJI_RE = /[㐀-䶿一-鿿豈-﫿]/] on one unit. *)
Definition kanjiUnit (c : Z) : bool :=
  inRange 0x3400 0x4DBF c || inRange 0x4E00 0x9FFF c || inRange 0xF900 0xFAFF c.

(** [KANA_RE = /[぀-ヿー]/] on one unit; [ー] is U+30FC. *)
Definition kanaUnit (c : Z) : bool :=
  inRange 0x3040 0x30FF c || (c =? 0x30FC).

(** [hasKanji(s) = KANJI_RE.test(s)]: some unit of [s] is in the class. *)
Definition hasKanji (s : jsstring) : bool := existsb kanjiUnit s.

(** [isKana(ch) = KANA_RE.test(ch)], used on one-unit strings [surface[i]]. *)
Definition isKana (ch : Z) : bool := kanaUnit ch.

(* ------------------------------------------------------------------ *)
(** * Okurigana splitter and segment builder ([furiganaUtils.ts]) *)
(* ------------------------------------------------------------------ *)

(** The [{ base, reading }] objects of a split's [prefix] and [suffix]. *)
Record Part := mkPart { part_base : jsstring; part_reading : jsstring }.

(** The object returned by [splitOkurigana]. *)
Record Split := mkSplit {
  base : jsstring;
  baseReading : jsstring;
  prefix : Part;
  suffix : Part
}.

(** Minimal subset of kuromoji's token: [reading] may be absent. *)
Record KuromojiToken := mkToken {
  surface_form : jsstring;
  reading : option jsstring
}.

(** One element of the array returned by [getFuriganaSegmentsSync]. *)
Record Segment := mkSegment { kanji : list jsstring; furi : list jsstring }.

(** The loop variables of the two walks of [splitOkurigana]. *)
Record Walk := mkWalk {
  w_index : Z;            (* i, resp. j *)
  w_base : jsstring;      (* prefixBase, resp. suffixBase *)
  w_read : jsstring;      (* prefixRead, resp. suffixRead *)
  w_reading : jsstring    (* what is left of readingHira *)
}.

Section Segmentation.

(** [hira = wanakana.toHiragana]: an external, pure string conversion. *)
Variable hira : jsstring -> jsstring.

(** [getTokenizer()]: the built kuromoji tokenizer, or [None] for [null]. *)
Variable getTokenizer : option (jsstring -> list KuromojiToken).

(** First [while] of [splitOkurigana]: [rest] is [surface] from index
    [w_index] on, so an empty [rest] is the exit [i >= surface.length]. *)
Fixpoint prefixWalk (rest : jsstring) (w : Walk) : Walk :=
  match rest with
  | [] => w
  | ch :: rest' =>
      if negb (isKana ch) then w
      else
        let h := hira [ch] in
        if startsWith (w_reading w) h then
          prefixWalk rest'
            (mkWalk (w_index w + 1) (w_base w ++ [ch]) (w_read w ++ h)
                    (sliceFrom (w_reading w) (slen h)))
        else w
  end.

(** Second [while]: [back] lists [surface[j], surface[j-1], ..., surface[i]],
    so an empty [back] is the exit [j < i]. *)
Fixpoint suffixWalk (back : jsstring) (w : Walk) : Walk :=
  match back with
  | [] => w
  | ch :: back' =>
      if negb (isKana ch) then w
      else
        let h := hira [ch] in
        if endsWith (w_reading w) h then
          suffixWalk back'
            (mkWalk (w_index w - 1) (ch :: w_base w) (h ++ w_read w)
                    (slice (w_reading w) 0 (slen (w_reading w) - slen h)))
        else w
  end.

Definition splitOkurigana (surface readingHira : jsstring) : Split :=
  let p := prefixWalk surface (mkWalk 0 [] [] readingHira) in
  let i := w_index p in
  let s := suffixWalk (rev (skipn (Z.to_nat i) surface))
                      (mkWalk (slen surface - 1) [] [] (w_reading p)) in
  let j := w_index s in
  mkSplit (slice surface i (j + 1)) (w_reading s)
          (mkPart (w_base p) (w_read p))
          (mkPart (w_base s) (w_read s)).

(** The two output arrays [outKanji] and [outFuri]. *)
Record Out := mkOut { outKanji : list jsstring; outFuri : list jsstring }.

(** [outKanji.push(x)] *)
Definition pushKanji (o : Out) (x : jsstring) : Out :=
  mkOut (outKanji o ++ [x]) (outFuri o).

(** [outFuri.push(x)] *)
Definition pushFuri (o : Out) (x : jsstring) : Out :=
  mkOut (outKanji o) (outFuri o ++ [x]).

(** [a || b] on strings. *)
Definition orElse (a b : jsstring) : jsstring := if truthy a then a else b.

(** The token's reading before normalisation:
    [(t.reading && t.reading !== '*') ? String(t.reading) : surface]. *)
Definition rawReading (t : KuromojiToken) (surface : jsstring) : jsstring :=
  match reading t with
  | Some r => if truthy r && negb (streq r [0x2A]) then r else surface
  | None => surface
  end.

(** Body of [for (const t of tokens)]. *)
Definition pushToken (o : Out) (t : KuromojiToken) : Out :=
  let surface := surface_form t in
  if negb (truthy surface) then o
  else
    let rd := hira (rawReading t surface) in
    if negb (hasKanji surface) then pushFuri (pushKanji o surface) rd
    else
      let sp := splitOkurigana surface rd in
      let o1 := if truthy (part_base (prefix sp))
                then pushFuri (pushKanji o (part_base (prefix sp)))
                              (part_reading (prefix sp))
                else o in
      let o2 := if truthy (base sp)
                then pushFuri (pushKanji o1 (base sp))
                              (orElse (baseReading sp) rd)
                else o1 in
      if truthy (part_base (suffix sp))
      then pushFuri (pushKanji o2 (part_base (suffix sp)))
                    (part_reading (suffix sp))
      else o2.

(** [tokenizer ? tokenizer.tokenize(jp) : [{ surface_form: jp }]] *)
Definition tokensOf (jp : jsstring) : list KuromojiToken :=
  match getTokenizer with
  | Some tokenize => tokenize jp
  | None => [mkToken jp None]
  end.

Definition getFuriganaSegmentsSync (jp : jsstring) : list Segment :=
  if negb (truthy jp) then [mkSegment [] []]
  else
    let o := fold_left pushToken (tokensOf jp) (mkOut [] []) in
    if Z.of_nat (length (outKanji o)) =? 0
    then [mkSegment [jp] [hira jp]]
    else [mkSegment (outKanji o) (outFuri o)].

End Segmentation.

(* ------------------------------------------------------------------ *)
(** * Outcomes of fallible code *)
(* ------------------------------------------------------------------ *)

(** What a call can end in besides a value: the two JavaScript exceptions
    the modelled code can raise, and [OutOfFuel] for a [while] loop that was
    given too few iterations (a loop that never exits runs out of any fuel). *)
Inductive Exn := TypeError | RangeError | OutOfFuel.

Inductive Res (A : Type) : Type :=
| Ok (a : A)
| Err (e : Exn).
Arguments Ok {A} a.
Arguments Err {A} e.

Definition bind {A B} (m : Res A) (f : A -> Res B) : Res B :=
  match m with
  | Ok a => f a
  | Err e => Err e
  end.

Notation "x <- m ;; f" := (bind m (fun x => f))
  (at level 61, m at next level, right associativity).
Notation "' p <- m ;; f" := (bind m (fun x => match x with p => f end))
  (at level 61, p pattern, m at next level, right associativity).

(* ------------------------------------------------------------------ *)
(** * Regular expressions ([regex.ts]) *)
(* ------------------------------------------------------------------ *)

Module Regex.

(** The pattern syntax the repository's literals use. [Class true rs] is a
    negated class [[^...]]; a non-capturing group [(?:r)] is just [r]. *)
Inductive regex :=
| Chr (c : Z)
| Class (negated : bool) (ranges : list (Z * Z))
| Seq (r1 r2 : regex)
| Plus (r : regex)
| Group (n : nat) (r : regex)
| Bol.

(** Capture group number, start and end of its latest participation. *)
Definition captures := list (nat * (nat * nat)).

Fixpoint getCap (n : nat) (c : captures) : option (nat * nat) :=
  match c with
  | [] => None
  | (m, se) :: c' => if Nat.eqb m n then Some se else getCap n c'
  end.

Definition inClass (negated : bool) (ranges : list (Z * Z)) (x : Z) : bool :=
  xorb negated (existsb (fun r => inRange (fst r) (snd r) x) ranges).

(** What a matcher hands to its continuation, and what it returns. *)
Definition Cont := nat -> captures -> option (nat * captures).

(** The iteration of a greedy [+]: run [body] at [i]; after every
    iteration first try one more, which must consume input, and fall back
    to the continuation [k]. [first] marks the mandatory iteration, which
    alone may be empty. The bound [fuel] is never reached by iterations
    that consume input when it starts at the length of the input. *)
Section Iterate.

Variable body : nat -> captures -> Cont -> option (nat * captures).
Variable k : Cont.

Fixpoint iterate (fuel : nat) (first : bool) (i : nat) (c : captures)
  : option (nat * captures) :=
  body i c (fun j c' =>
    if negb first && Nat.eqb j i then None
    else
      match fuel with
      | O => k j c'
      | S fuel' =>
          match iterate fuel' false j c' with
          | Some res => Some res
          | None => k j c'
          end
      end).

End Iterate.

(** Backtracking matcher in continuation-passing style, as the language
    definition gives it: [rmatch r s i c k] matches [r] in [s] at position
    [i] and hands the end position and the captures to [k]; when [k] fails
    the matcher tries its next alternative. *)
Fixpoint rmatch (r : regex) (s : jsstring) (i : nat) (c : captures)
    (k : Cont) {struct r} : option (nat * captures) :=
  match r with
  | Chr x =>
      match nth_error s i with
      | Some y => if y =? x then k (S i) c else None
      | None => None
      end
  | Class negated ranges =>
      match nth_error s i with
      | Some y => if inClass negated ranges y then k (S i) c else None
      | None => None
      end
  | Seq r1 r2 => rmatch r1 s i c (fun j c' => rmatch r2 s j c' k)
  | Group n r1 => rmatch r1 s i c (fun j c' => k j ((n, (i, j)) :: c'))
  | Bol => if Nat.eqb i 0 then k i c else None
  | Plus r1 => iterate (rmatch r1 s) k (length s) true i c
  end.

Definition matchAt (r : regex) (s : jsstring) (i : nat)
  : option (nat * captures) :=
  rmatch r s i [] (fun j c => Some (j, c)).

(** A successful match: [m.index], the end of [m[0]], and the captures. *)
Record Match := mkMatch {
  m_input : jsstring;
  m_index : nat;
  m_end : nat;
  m_caps : captures
}.

Definition substring (s : jsstring) (a b : nat) : jsstring :=
  firstn (b - a) (skipn a s).

(** [m.index] *)
Definition index (m : Match) : Z := Z.of_nat (m_index m).

(** [m[0]] *)
Definition whole (m : Match) : jsstring :=
  substring (m_input m) (m_index m) (m_end m).

(** [m[n]] for [n >= 1]: [None] is [undefined]. *)
Definition group (m : Match) (n : nat) : option jsstring :=
  match getCap n (m_caps m) with
  | Some (a, b) => Some (substring (m_input m) a b)
  | None => None
  end.

(** The engine's search: the first position from [i] on, up to the end of
    the input, at which the pattern matches; [n] positions remain after
    [i]. *)
Fixpoint searchFrom (n : nat) (r : regex) (s : jsstring) (i : nat)
  : option Match :=
  match matchAt r s i with
  | Some (j, c) => Some (mkMatch s i j c)
  | None =>
      match n with
      | O => None
      | S n' => searchFrom n' r s (S i)
      end
  end.

Definition search (r : regex) (s : jsstring) (i : nat) : option Match :=
  if Nat.ltb (length s) i then None else searchFrom (length s - i) r s i.

(** A [RegExp] object: its pattern, its [g] flag and its mutable
    [lastIndex]. *)
Record RegExp := mkRegExp {
  source : regex;
  global : bool;
  lastIndex : Z
}.

(** A regex literal, or [new RegExp(src, flags)]: [lastIndex] starts at 0. *)
Definition newRegExp (src : regex) (g : bool) : RegExp := mkRegExp src g 0.

Definition setLastIndex (re : RegExp) (i : Z) : RegExp :=
  mkRegExp (source re) (global re) i.

(** [re.exec(s)]: the result and the object after the call. A global
    pattern starts at [lastIndex], stores the end of the match there, and
    resets it to 0 when nothing matches; a non-global one starts at 0 and
    leaves [lastIndex] alone. *)
Definition exec (re : RegExp) (s : jsstring) : option Match * RegExp :=
  let start := if global re then Z.to_nat (lastIndex re) else O in
  match search (source re) s start with
  | Some m =>
      (Some m, if global re then setLastIndex re (Z.of_nat (m_end m)) else re)
  | None => (None, if global re then setLastIndex re 0 else re)
  end.

(** The iterator behind [s.matchAll(re)]: [exec] on a private clone until it
    answers [null]; after an empty match [lastIndex] is advanced by one.
    Every step moves [lastIndex] forward, so [S (length s)] steps exhaust
    the input. *)
Fixpoint matchAllLoop (fuel : nat) (re : RegExp) (s : jsstring) : list Match :=
  match fuel with
  | O => []
  | S fuel' =>
      match exec re s with
      | (Some m, re') =>
          m :: matchAllLoop fuel'
                 (if Nat.eqb (m_end m) (m_index m)
                  then setLastIndex re' (lastIndex re' + 1) else re') s
      | (None, _) => []
      end
  end.

(** [Array.from(s.matchAll(re))]: a [TypeError] when [re] lacks the [g]
    flag; the clone starts at [re.lastIndex] and [re] itself is not
    written. *)
Definition matchAll (s : jsstring) (re : RegExp) : Res (list Match) :=
  if global re
  then Ok (matchAllLoop (S (length s)) (mkRegExp (source re) true (lastIndex re)) s)
  else Err TypeError.

(** Units excluded from the base and the readings of a manual override
    besides the bracket pair: [|], [\r], [\n]. *)
Definition notIn (open close : Z) : regex :=
  Class true [(open, open); (close, close); (0x7C, 0x7C); (0x0D, 0x0D); (0x0A, 0x0A)].

(** [OPEN ([^OPEN CLOSE|\r\n]+) ((?:\|[^OPEN CLOSE|\r\n]+)+) CLOSE] *)
Definition manualPattern (open close : Z) : regex :=
  Seq (Chr open)
    (Seq (Group 1 (Plus (notIn open close)))
      (Seq (Group 2 (Plus (Seq (Chr 0x7C) (Plus (notIn open close)))))
        (Chr close))).

(** [/\{([^{}\|\r\n]+)((?:\|[^{}\|\r\n]+)+)\}/g] *)
Definition makeCurlyManualRegex : RegExp :=
  newRegExp (manualPattern 0x7B 0x7D) true.

(** [/\[([^\[\]\|\r\n]+)((?:\|[^\[\]\|\r\n]+)+)\]/g] *)
Definition makeSquareManualRegex : RegExp :=
  newRegExp (manualPattern 0x5B 0x5D) true.

Inductive NotationStyle := curly | square | none.

(** [getManualRegex(style)]: a fresh object per call; for ['none'] the
    literal [/a^/], which carries no [g] flag. *)
Definition getManualRegex (style : NotationStyle) : RegExp :=
  match style with
  | curly => makeCurlyManualRegex
  | square => makeSquareManualRegex
  | none => newRegExp (Seq (Chr 0x61) Bol) false
  end.

(** The pattern of [REGEX_AUTOMATIC]:
    [[぀-ゟ゠-ヿ㐀-䶿一-鿿豈-﫿ー]+]. *)
Definition automaticPattern : regex :=
  Plus (Class false
    [(0x3040, 0x309F); (0x30A0, 0x30FF); (0x3400, 0x4DBF);
     (0x4E00, 0x9FFF); (0xF900, 0xFAFF); (0x30FC, 0x30FC)]).

End Regex.
Import Regex.

(* ------------------------------------------------------------------ *)
(** * Shared state *)
(* ------------------------------------------------------------------ *)

(** The one module-level [RegExp] object, [REGEX_AUTOMATIC] of [regex.ts]:
    its pattern and flags are fixed, its [lastIndex] is mutable and shared by
    every caller of [getAutoRegex]. *)
Record Store := mkStore { autoLastIndex : Z }.

Definition REGEX_AUTOMATIC (st : Store) : RegExp :=
  mkRegExp automaticPattern true (autoLastIndex st).

(** [getAutoRegex()] hands out the shared object itself. *)
Definition getAutoRegex (st : Store) : RegExp := REGEX_AUTOMATIC st.

(* ------------------------------------------------------------------ *)
(** * Reading Mode converter ([furiganaUtils.ts]) *)
(* ------------------------------------------------------------------ *)

(** Children of the fragment [convertFurigana] assembles:
    [document.createTextNode(data)] and [makeRuby(kanji, furi)]. *)
Inductive Node :=
| TextNode (data : jsstring)
| RubyNode (kanjiArr furiArr : list jsstring).

(** What [convertFurigana] returns: the original text node when the fragment
    stayed empty, the fragment otherwise. *)
Inductive Converted :=
| Unchanged
| Fragment (childNodes : list Node).

(** [xs[i] ?? d] on an array of strings. *)
Definition nthOr (xs : list jsstring) (i : nat) (d : jsstring) : jsstring :=
  match nth_error xs i with
  | Some x => x
  | None => d
  end.

(** [opt ?? ''] *)
Definition orEmpty (o : option jsstring) : jsstring :=
  match o with
  | Some s => s
  | None => []
  end.

(** The [<rb>]/[<rt>] text pairs [makeRuby] creates: as many as the longer
    array, a reading shown only over a chunk that contains kanji. *)
Definition makeRuby (kanjiArr furiArr : list jsstring) : list (jsstring * jsstring) :=
  map (fun i =>
         let b := nthOr kanjiArr i [] in
         let r := nthOr furiArr i [] in
         (b, if truthy b && hasKanji b then r else []))
      (seq 0 (Nat.max (length kanjiArr) (length furiArr))).

(** [(m[2] ?? '').split('|').slice(1)] *)
Definition readingParts (m : Match) : list jsstring :=
  arrayTail (splitOn 0x7C (orEmpty (group m 2))).

(** The alignment of [convertFurigana]: [kanjiArr] and [furiArr] from the
    base and the reading parts. *)
Definition manualArrays (b : jsstring) (parts : list jsstring)
  : list jsstring * list jsstring :=
  if (length parts <=? 1)%nat then ([b], [nthOr parts 0 []])
  else
    let kanjiArr := splitChars b in
    if Nat.eqb (length parts) (length kanjiArr) then (kanjiArr, parts)
    else
      (kanjiArr,
       map (fun i => nthOr parts i (nthOr parts (length parts - 1) []))
           (seq 0 (length kanjiArr))).

Section ReadingMode.

Variable hira : jsstring -> jsstring.
Variable getTokenizer : option (jsstring -> list KuromojiToken).

(** The [while ((a = auto.exec(slice)) !== null)] loop of [pushAuto]; the
    state is the [auto] object, [last] and the fragment. *)
Fixpoint autoLoop (fuel : nat) (slice_ : jsstring) (auto : RegExp)
    (last : Z) (frag : list Node) : Res (RegExp * Z * list Node) :=
  match fuel with
  | O => Err OutOfFuel
  | S fuel' =>
      match exec auto slice_ with
      | (None, auto') => Ok (auto', last, frag)
      | (Some a, auto') =>
          let from_ := index a in
          let to_ := from_ + slen (whole a) in
          let frag1 := if last <? from_
                       then frag ++ [TextNode (slice slice_ last from_)]
                       else frag in
          let span_ := whole a in
          frag2 <-
            (if hasKanji span_ then
               match getFuriganaSegmentsSync hira getTokenizer span_ with
               | seg :: _ => Ok (frag1 ++ [RubyNode (kanji seg) (furi seg)])
               | [] => Err TypeError
               end
             else Ok (frag1 ++ [TextNode span_])) ;;
          autoLoop fuel' slice_ auto' to_ frag2
      end
  end.

(** [pushAuto(slice)]: the closure shares [auto] and [frag] with its
    caller, so both are passed and returned. *)
Definition pushAuto (slice_ : jsstring) (auto : RegExp) (frag : list Node)
  : Res (RegExp * list Node) :=
  if negb (truthy slice_) then Ok (auto, frag)
  else
    '(auto', last, frag') <- autoLoop (S (length slice_)) slice_ auto 0 frag ;;
    Ok (auto',
        if last <? slen slice_
        then frag' ++ [TextNode (sliceFrom slice_ last)]
        else frag').

(** The [while ((m = manual.exec(text)) !== null)] loop. *)
Fixpoint manualLoop (fuel : nat) (text_ : jsstring) (manual auto : RegExp)
    (cursor : Z) (frag : list Node) : Res (RegExp * Z * list Node) :=
  match fuel with
  | O => Err OutOfFuel
  | S fuel' =>
      match exec manual text_ with
      | (None, _) => Ok (auto, cursor, frag)
      | (Some m, manual') =>
          let start := index m in
          let end_ := start + slen (whole m) in
          '(auto', frag1) <-
            (if cursor <? start
             then pushAuto (slice text_ cursor start) auto frag
             else Ok (auto, frag)) ;;
          let b := orEmpty (group m 1) in
          let parts := readingParts m in
          let '(kanjiArr, furiArr) := manualArrays b parts in
          manualLoop fuel' text_ manual' auto' end_
                     (frag1 ++ [RubyNode kanjiArr furiArr])
      end
  end.

(** [convertFurigana(textNode, REGEX_MANUAL, REGEX_AUTOMATIC)] with
    [text_ = textNode.nodeValue ?? '']. Only the [source] of the two objects
    is read: the loops run on fresh global instances. *)
Definition convertFurigana (text_ : jsstring)
    (REGEX_MANUAL REGEX_AUTO : RegExp) : Res Converted :=
  let manual := newRegExp (source REGEX_MANUAL) true in
  let auto := newRegExp (source REGEX_AUTO) true in
  '(auto', cursor, frag) <-
    manualLoop (S (length text_)) text_ manual auto 0 [] ;;
  '(_, frag') <-
    (if cursor <? slen text_
     then pushAuto (sliceFrom text_ cursor) auto' frag
     else Ok (auto', frag)) ;;
  Ok (if Z.of_nat (length frag') =? 0 then Unchanged else Fragment frag').


End ReadingMode.

(* ------------------------------------------------------------------ *)
(** * Live Preview pass ([furiganaLivePreviewMode.ts]) *)
(* ------------------------------------------------------------------ *)

(** A [{from, to}] pair: a selection range, a visible range, or the extent
    of a decoration. *)
Record Range := mkRange { from : Z; to : Z }.

(** [new RubyWidget(kanji, furi)] *)
Record RubyWidget := mkWidget {
  widget_kanji : list jsstring;
  widget_furi : list jsstring
}.

(** Which loop of [buildDecorations] pushed an entry. The code's entries do
    not store this; it is a label for stating properties and no definition
    below reads it. *)
Inductive Origin := Manual | Automatic.

(** An element of [toAdd]: [{from, to, dec}]. *)
Record Entry := mkEntry {
  span : Range;
  dec : RubyWidget;
  origin : Origin
}.

(** A line of the document as [doc.line(n)] and [doc.lineAt(pos)] describe
    it: [line_to = line_from + text.length], numbers start at 1. *)
Record Line := mkLine {
  line_from : Z;
  line_to : Z;
  number : Z;
  text : jsstring
}.

(** What [buildDecorations] reads from the editor view: the document as its
    list of lines (consecutive lines are one line break apart), the
    selection ranges and the visible ranges. *)
Record EditorView := mkView {
  doc : list jsstring;
  selection : list Range;
  visibleRanges : list Range
}.

(** [function rangesOverlap (aFrom, aTo, bFrom, bTo)] *)
Definition rangesOverlap (aFrom aTo bFrom bTo : Z) : bool :=
  (aFrom <? bTo) && (bFrom <? aTo).

(** The [while] of [inlineBacktickRanges]: [rest] is [lineText] from index
    [i] on. *)
Fixpoint backtickWalk (rest : jsstring) (i : Z) (open : option Z)
    (ranges : list (Z * Z)) : list (Z * Z) :=
  match rest with
  | [] => ranges
  | c :: rest' =>
      if c =? 0x60 then
        match open with
        | None => backtickWalk rest' (i + 1) (Some i) ranges
        | Some o => backtickWalk rest' (i + 1) None (ranges ++ [(o, i + 1)])
        end
      else backtickWalk rest' (i + 1) open ranges
  end.

Definition inlineBacktickRanges (lineText : jsstring) : list (Z * Z) :=
  backtickWalk lineText 0 None [].

(** White space and line terminators, the units [trim] strips. *)
Definition isWhiteSpace (c : Z) : bool :=
  inRange 0x09 0x0D c || (c =? 0x20) || (c =? 0xA0) || (c =? 0x1680)
  || inRange 0x2000 0x200A c || (c =? 0x2028) || (c =? 0x2029)
  || (c =? 0x202F) || (c =? 0x205F) || (c =? 0x3000) || (c =? 0xFEFF).

Fixpoint trimStart (s : jsstring) : jsstring :=
  match s with
  | [] => []
  | c :: s' => if isWhiteSpace c then trimStart s' else s
  end.

(** [s.trim()] *)
Definition trim (s : jsstring) : jsstring :=
  rev (trimStart (rev (trimStart s))).

(** The three backticks of a fence marker. *)
Definition fenceMarker : jsstring := [0x60; 0x60; 0x60].

(** [doc.line(n)]: walk the lines, [n0] and [start] being the number and
    offset of the head of [ls]. *)
Fixpoint lineFrom (ls : list jsstring) (n0 start n : Z) : Res Line :=
  match ls with
  | [] => Err RangeError
  | t :: ls' =>
      if n0 =? n then Ok (mkLine start (start + slen t) n0 t)
      else lineFrom ls' (n0 + 1) (start + slen t + 1) n
  end.

Definition docLine (d : list jsstring) (n : Z) : Res Line := lineFrom d 1 0 n.

(** [doc.lineAt(pos)]: the first line that ends at or after [pos]. *)
Fixpoint lineAtFrom (ls : list jsstring) (n0 start pos : Z) : Res Line :=
  match ls with
  | [] => Err RangeError
  | t :: ls' =>
      if pos <=? start + slen t then Ok (mkLine start (start + slen t) n0 t)
      else lineAtFrom ls' (n0 + 1) (start + slen t + 1) pos
  end.

Definition lineAt (d : list jsstring) (pos : Z) : Res Line :=
  if pos <? 0 then Err RangeError else lineAtFrom d 1 0 pos.

(** The comparator of [toAdd.sort]: [(a.from - b.from) || (a.to - b.to)]. *)
Definition compareEntries (a b : Entry) : Z :=
  if from (span a) - from (span b) =? 0
  then to (span a) - to (span b)
  else from (span a) - from (span b).

(** [Array.prototype.sort] is stable; for a comparator that is a total
    preorder its result is the one stable sorted arrangement, which
    insertion from left to right computes. *)
Fixpoint insertEntry (x : Entry) (l : list Entry) : list Entry :=
  match l with
  | [] => [x]
  | y :: l' =>
      if compareEntries x y <? 0 then x :: y :: l' else y :: insertEntry x l'
  end.

Definition sortEntries (l : list Entry) : list Entry :=
  fold_left (fun acc x => insertEntry x acc) l [].

(** [selections.some(r => rangesOverlap(r.from, r.to, from, to))] *)
Definition inSelection (selections : list Range) (f t : Z) : bool :=
  existsb (fun r => rangesOverlap (from r) (to r) f t) selections.

(** [manualRanges.some(([f, t]) => rangesOverlap(f, t, from, to))] *)
Definition coveredBy (ranges : list (Z * Z)) (f t : Z) : bool :=
  existsb (fun r => rangesOverlap (fst r) (snd r) f t) ranges.

(** [inlineBacktickRanges(text).some(([f, t]) =>
      rangesOverlap(f + line.from, t + line.from, from, to))] *)
Definition inBackticks (text_ : jsstring) (lineStart f t : Z) : bool :=
  existsb (fun r => rangesOverlap (fst r + lineStart) (snd r + lineStart) f t)
          (inlineBacktickRanges text_).

(** Body of [for (const m of manualMatches)]: the state is [manualRanges]
    and [toAdd]. [m[1]] is read without a guard; an absent group 1 is
    reported as the [TypeError] its [split] raises. *)
Definition manualStep (selections : list Range) (l : Line)
    (state : list (Z * Z) * list Entry) (m : Match)
  : Res (list (Z * Z) * list Entry) :=
  let '(manualRanges, toAdd) := state in
  let from_ := index m + line_from l in
  let to_ := from_ + slen (whole m) in
  let manualRanges' := manualRanges ++ [(from_, to_)] in
  if inSelection selections from_ to_ then Ok (manualRanges', toAdd)
  else
    let parts := readingParts m in
    match group m 1 with
    | None => Err TypeError
    | Some m1 =>
        let kanji_ := if Nat.eqb (length parts) 1 then [m1] else splitChars m1 in
        let furi_ := parts in
        Ok (manualRanges',
            toAdd ++ [mkEntry (mkRange from_ to_) (mkWidget kanji_ furi_) Manual])
    end.

Fixpoint foldRes {A B} (f : A -> B -> Res A) (l : list B) (a : A) : Res A :=
  match l with
  | [] => Ok a
  | b :: l' => a' <- f a b ;; foldRes f l' a'
  end.

Section LivePreview.

Variable hira : jsstring -> jsstring.
Variable getTokenizer : option (jsstring -> list KuromojiToken).

(** Body of [for (const a of text.matchAll(auto))]. *)
Definition autoStep (selections : list Range) (l : Line)
    (manualRanges : list (Z * Z)) (toAdd : list Entry) (a : Match)
  : list Entry :=
  let localFrom := index a in
  let localTo := localFrom + slen (whole a) in
  let from_ := localFrom + line_from l in
  let to_ := localTo + line_from l in
  let span_ := whole a in
  if inSelection selections from_ to_ then toAdd
  else if coveredBy manualRanges from_ to_ then toAdd
  else if inBackticks (text l) (line_from l) from_ to_ then toAdd
  else
    match getFuriganaSegmentsSync hira getTokenizer span_ with
    | [] => toAdd
    | seg :: _ =>
        if Z.of_nat (length (kanji seg)) =? 0 then toAdd
        else
          toAdd ++ [mkEntry (mkRange from_ to_)
                            (mkWidget (kanji seg) (furi seg)) Automatic]
    end.

(** The part of the line loop after the fence check: collect [toAdd] for
    one line and return it sorted, in the order it goes to [builder.add]. *)
Definition lineDecorations (style : NotationStyle) (st : Store)
    (selections : list Range) (l : Line) : Res (list Entry) :=
  manualMatches <- matchAll (text l) (getManualRegex style) ;;
  '(manualRanges, toAdd) <- foldRes (manualStep selections l) manualMatches ([], []) ;;
  autoMatches <- matchAll (text l) (getAutoRegex st) ;;
  Ok (sortEntries
        (fold_left (autoStep selections l manualRanges) autoMatches toAdd)).

(** Body of [for (let n = first; n <= last; n++)]: the state is
    [insideFence] and the sequence of [builder.add] calls so far. *)
Definition lineStep (style : NotationStyle) (st : Store) (v : EditorView)
    (state : bool * list Entry) (n : Z) : Res (bool * list Entry) :=
  let '(insideFence, added) := state in
  l <- docLine (doc v) n ;;
  let trimmed := trim (text l) in
  let insideFence' := if startsWith trimmed fenceMarker
                      then negb insideFence else insideFence in
  if insideFence' then Ok (insideFence', added)
  else
    toAdd <- lineDecorations style st (selection v) l ;;
    Ok (insideFence', added ++ toAdd).

(** The numbers [first, first + 1, ..., last]. *)
Definition lineNumbers (first last : Z) : list Z :=
  map (fun k => first + Z.of_nat k) (seq 0 (Z.to_nat (last - first + 1))).

(** Body of [for (const vr of view.visibleRanges)]. *)
Definition rangeStep (style : NotationStyle) (st : Store) (v : EditorView)
    (state : bool * list Entry) (vr : Range) : Res (bool * list Entry) :=
  first <- lineAt (doc v) (from vr) ;;
  last <- lineAt (doc v) (to vr) ;;
  foldRes (lineStep style st v) (lineNumbers (number first) (number last)) state.

(** [buildDecorations(view)] for the plugin bound to [style]: the entries
    in the order they are added to the builder. *)
Definition buildDecorations (style : NotationStyle) (st : Store)
    (v : EditorView) : Res (list Entry) :=
  '(_, added) <- foldRes (rangeStep style st v) (visibleRanges v) (false, []) ;;
  Ok added.


End LivePreview.

(* ------------------------------------------------------------------ *)
(** * Vocabulary of the statements *)
(* ------------------------------------------------------------------ *)

(** A pattern every match of which takes at least one unit. *)
Fixpoint consumes (r : regex) : bool :=
  match r with
  | Chr _ | Class _ _ => true
  | Seq r1 r2 => consumes r1 || consumes r2
  | Plus r1 | Group _ r1 => consumes r1
  | Bol => false
  end.

(** What a matcher guarantees about the state it hands on. *)
Definition Advances (len : nat) (strict : bool)
    (body : nat -> captures -> Cont -> option (nat * captures)) : Prop :=
  forall i c k res,
    body i c k = Some res ->
    exists j c', (i <= j <= len)%nat /\ (strict = true -> (i < j)%nat) /\
                 k j c' = Some res.

(** A match the engine reports lies inside the input, at or after the
    position the search started from. *)
Definition WellPlaced (r : regex) (s : jsstring) (p : nat) (m : Match) : Prop :=
  m_input m = s /\
  (p <= m_index m)%nat /\ (m_index m <= m_end m)%nat /\
  (m_end m <= length s)%nat /\
  (consumes r = true -> (m_index m < m_end m)%nat).

(** The matches of one [matchAll]: each well placed, each starting where
    the previous one ended or later. *)
Fixpoint Chained (r : regex) (s : jsstring) (p : nat) (ms : list Match) : Prop :=
  match ms with
  | [] => True
  | m :: ms' => WellPlaced r s p m /\ Chained r s (m_end m) ms'
  end.

(** [a] ends before [b] starts. *)
Definition Before (a b : Range) : Prop := to a <= from b.

(** Ascending [from], ties by ascending [to]. *)
Definition rangeLe (a b : Range) : Prop :=
  from a < from b \/ (from a = from b /\ to a <= to b).

Definition NonEmpty (a : Range) : Prop := from a < to a.

Definition Disjoint (a b : Range) : Prop := Before a b \/ Before b a.

Definition entryLe (a b : Entry) : Prop := rangeLe (span a) (span b).

(** The document range of a match found on line [l]. *)
Definition matchRange (l : Line) (m : Match) : Range :=
  mkRange (index m + line_from l) (index m + line_from l + slen (whole m)).

(** The test a manual match passes to be decorated. *)
Definition keepManual (selections : list Range) (r : Range) : bool :=
  negb (inSelection selections (from r) (to r)).

(** The tests an automatic match passes to be decorated. *)
Definition keepAuto (selections : list Range) (manualRanges : list (Z * Z))
    (l : Line) (r : Range) : bool :=
  negb (inSelection selections (from r) (to r))
  && negb (coveredBy manualRanges (from r) (to r))
  && negb (inBackticks (text l) (line_from l) (from r) (to r)).

(** [manualRanges] after the manual loop: the range of every match. *)
Definition rangesOf (l : Line) (ms : list Match) : list (Z * Z) :=
  map (fun m => (from (matchRange l m), to (matchRange l m))) ms.

(** An interval inside the extent of a line. *)
Definition Within (l : Line) (r : Range) : Prop :=
  line_from l <= from r /\ to r <= line_from l + slen (text l).






(** A matcher whose result depends on its continuation only at the states
    it can hand on. *)
Definition Local (len : nat) (strict : bool)
    (body : nat -> captures -> Cont -> option (nat * captures)) : Prop :=
  forall i c (k1 k2 : Cont),
    (forall j c', (i <= j <= len)%nat -> (strict = true -> (i < j)%nat) ->
                  k1 j c' = k2 j c') ->
    body i c k1 = body i c k2.





(** The store when the module is loaded. *)
Definition initialStore : Store := mkStore 0.

(* ------------------------------------------------------------------ *)
(** * Sample inputs *)
(* ------------------------------------------------------------------ *)

Module Sample.

(** [{漢字|かん|じ}] *)
Definition kanji_kan_ji : jsstring :=
  [0x7B; 0x6F22; 0x5B57; 0x7C; 0x304B; 0x3093; 0x7C; 0x3058; 0x7D].

(** [{今日|きょう}] *)
Definition kyou : jsstring :=
  [0x7B; 0x4ECA; 0x65E5; 0x7C; 0x304D; 0x3087; 0x3046; 0x7D].

(** [{漢字体|かん|じ}]: three units, two readings. *)
Definition three_two : jsstring :=
  [0x7B; 0x6F22; 0x5B57; 0x4F53; 0x7C; 0x304B; 0x3093; 0x7C; 0x3058; 0x7D].


(** [漢字 かな]: two automatic spans. *)
Definition two_spans : jsstring := [0x6F22; 0x5B57; 0x20; 0x304B; 0x306A].

(** A conversion that leaves its argument as it is. *)
Definition keep (s : jsstring) : jsstring := s.

(** A view of a one-line document, all of it visible. *)
Definition oneLine (t : jsstring) (selections : list Range) : EditorView :=
  mkView [t] selections [mkRange 0 (slen t)].

End Sample.

(** The kana conversion of a run, unit by unit, as the walks of
    [splitOkurigana] apply it. *)
Definition unitwise (hira : jsstring -> jsstring) (s : jsstring) : jsstring :=
  concat (map (fun ch => hira [ch]) s).

(** The base text a node shows: the data of a text node, the [<rb>] texts
    of a ruby element. *)
Definition nodeBase (n : Node) : jsstring :=
  match n with
  | TextNode data => data
  | RubyNode kanjiArr furiArr => concat (map fst (makeRuby kanjiArr furiArr))
  end.

Definition fragBase (frag : list Node) : jsstring :=
  concat (map nodeBase frag).

(** The base text of what [convertFurigana] returns for [text_]. *)
Definition convertedBase (text_ : jsstring) (c : Converted) : jsstring :=
  match c with
  | Unchanged => text_
  | Fragment frag => fragBase frag
  end.

(** [text_] from [cursor] on, with every match replaced by its group 1. *)
Fixpoint replaceMatches (text_ : jsstring) (cursor : nat) (ms : list Match)
  : jsstring :=
  match ms with
  | [] => skipn cursor text_
  | m :: ms' =>
      substring text_ cursor (m_index m) ++ orEmpty (group m 1)
      ++ replaceMatches text_ (m_end m) ms'
  end.

(** A tokenizer whose surface forms, put together, are its input. *)
Definition Faithful (getTokenizer : option (jsstring -> list KuromojiToken))
  : Prop :=
  match getTokenizer with
  | Some tokenize => forall s, concat (map surface_form (tokenize s)) = s
  | None => True
  end.

(** The longest prefix of [s] whose units all pass [f]. *)
Fixpoint leadingRun (f : Z -> bool) (s : jsstring) : jsstring :=
  match s with
  | [] => []
  | u :: s' => if f u then u :: leadingRun f s' else []
  end.

(** The class of [REGEX_AUTOMATIC] on one unit. *)
Definition japaneseUnit (u : Z) : bool :=
  inClass false
    [(0x3040, 0x309F); (0x30A0, 0x30FF); (0x3400, 0x4DBF);
     (0x4E00, 0x9FFF); (0xF900, 0xFAFF); (0x30FC, 0x30FC)] u.

(** Position [i] lies inside one of the matches. *)
Definition Covered (ms : list Match) (i : nat) : Prop :=
  exists m, In m ms /\ (m_index m <= i < m_end m)%nat.

(** A unit allowed in the base and in the readings of a manual override
    between the brackets [open] and [close]. *)
Definition plainUnit (open close u : Z) : bool :=
  inClass true
    [(open, open); (close, close); (0x7C, 0x7C); (0x0D, 0x0D); (0x0A, 0x0A)] u.

(** The pipe-led readings of an override: [|r1|r2...]. *)
Definition readingTail (readings : list jsstring) : jsstring :=
  concat (map (fun r => 0x7C :: r) readings).

(** The text of a manual override as it is written in a note. *)
Definition markup (open close : Z) (b : jsstring) (readings : list jsstring)
  : jsstring :=
  open :: b ++ readingTail readings ++ [close].

(** A string a manual override can carry as base or as reading. *)
Definition PlainText (open close : Z) (s : jsstring) : Prop :=
  s <> [] /\ Forall (fun u => plainUnit open close u = true) s.

(** The body of the reading group: a pipe and a run of plain units. *)
Definition pipeReading (open close : Z) : regex :=
  Seq (Chr 0x7C) (Plus (notIn open close)).

(** The captures of the match of a whole override: group 2 is the reading
    tail, group 1 the base. *)
Definition markupCaptures (b : jsstring) (readings : list jsstring) : captures :=
  [(2%nat, (S (length b), (S (length b) + length (readingTail readings))%nat));
   (1%nat, (1%nat, S (length b)))].

Definition markupMatch (open close : Z) (b : jsstring)
    (readings : list jsstring) : Match :=
  mkMatch (markup open close b readings) 0
          (length (markup open close b readings)) (markupCaptures b readings).

(** The bracket pair of a notation style. *)
Definition bracketsOf (style : NotationStyle) : option (Z * Z) :=
  match style with
  | curly => Some (0x7B, 0x7D)
  | square => Some (0x5B, 0x5D)
  | none => None
  end.



(** Line [n] of [d] starts, after trimming, with a fence marker. *)
Definition fenceLine (d : list jsstring) (n : Z) : bool :=
  match docLine d n with
  | Ok l => startsWith (trim (text l)) fenceMarker
  | Err _ => false
  end.

(** Of the lines [ns], visited in this order with the fence flag [fence]
    before the first, those at which the flag is off once it is updated. *)
Fixpoint openLines (d : list jsstring) (fence : bool) (ns : list Z) : list Z :=
  match ns with
  | [] => []
  | n :: ns' =>
      let fence' := xorb fence (fenceLine d n) in
      if fence' then openLines d fence' ns' else n :: openLines d fence' ns'
  end.

(** The line numbers a pass over the visible ranges [vrs] visits, in the
    order it visits them. *)
Fixpoint visitedLines (d : list jsstring) (vrs : list Range) : Res (list Z) :=
  match vrs with
  | [] => Ok []
  | vr :: vrs' =>
      first <- lineAt d (from vr) ;;
      last <- lineAt d (to vr) ;;
      rest <- visitedLines d vrs' ;;
      Ok (lineNumbers (number first) (number last) ++ rest)
  end.

(** Line [n] of the view exists and is decorated with the entries [o]. *)
Definition LineOutput (hira : jsstring -> jsstring)
    (getTokenizer : option (jsstring -> list KuromojiToken))
    (style : NotationStyle) (st : Store) (v : EditorView)
    (n : Z) (o : list Entry) : Prop :=
  exists l, docLine (doc v) n = Ok l /\
            lineDecorations hira getTokenizer style st (selection v) l = Ok o.

(** The offsets of the backticks of [rest], whose first unit has offset
    [i], in ascending order. *)
Fixpoint backtickPositions (rest : jsstring) (i : Z) : list Z :=
  match rest with
  | [] => []
  | c :: rest' =>
      if c =? 0x60 then i :: backtickPositions rest' (i + 1)
      else backtickPositions rest' (i + 1)
  end.

(** Pair the first with the second, the third with the fourth, and so on;
    each pair as the half-open range that holds both. *)
Fixpoint pairUp (ps : list Z) : list (Z * Z) :=
  match ps with
  | a :: b :: ps' => (a, b + 1) :: pairUp ps'
  | _ => []
  end.

(** The unit of [s] at offset [p] is a backtick. *)
Definition backtickAt (s : jsstring) (p : Z) : Prop := charAt s p = Some 0x60.

(* ------------------------------------------------------------------ *)
(** * The widget's DOM ([RubyWidget.toDOM]) *)
(* ------------------------------------------------------------------ *)

(** The children appended to the container [<span>]: text nodes and
    [<ruby class="furi">] elements, each of these with its base text and
    the text of its [<rt>]. *)
Inductive Child :=
| ChildText (data : jsstring)
| ChildRuby (core rtText : jsstring).

(** [HAS_KANJI = /[一-鿿豈-﫿]/] *)
Definition HAS_KANJI : regex := Class false [(0x4E00, 0x9FFF); (0xF900, 0xFAFF)].

(** The class [[぀-ゟ゠-ヿー]] of [KANA_LEAD] and [KANA_TAIL]. *)
Definition kanaRanges : list (Z * Z) :=
  [(0x3040, 0x309F); (0x30A0, 0x30FF); (0x30FC, 0x30FC)].

(** [KANA_LEAD = /^[぀-ゟ゠-ヿー]+/] *)
Definition KANA_LEAD : regex := Seq Bol (Plus (Class false kanaRanges)).

(** [KANA_TAIL = /[぀-ゟ゠-ヿー]+$/], without its final [$]. *)
Definition KANA_TAIL : regex := Plus (Class false kanaRanges).

(** A pattern followed by [$]: the assertion is the continuation that
    accepts at the end of the input only, so that the pattern backtracks
    until it ends there. *)
Definition matchAtEol (r : regex) (s : jsstring) (i : nat)
  : option (nat * captures) :=
  rmatch r s i [] (fun j c => if Nat.eqb j (length s) then Some (j, c) else None).

Fixpoint searchEolFrom (n : nat) (r : regex) (s : jsstring) (i : nat)
  : option Match :=
  match matchAtEol r s i with
  | Some (j, c) => Some (mkMatch s i j c)
  | None =>
      match n with
      | O => None
      | S n' => searchEolFrom n' r s (S i)
      end
  end.

(** [s.match(/r$/)]: the first position at which [r$] matches. *)
Definition searchEol (r : regex) (s : jsstring) : option Match :=
  searchEolFrom (length s) r s 0.

(** [re.test(s)] for a literal without the [g] flag. *)
Definition test (r : regex) (s : jsstring) : bool :=
  match fst (exec (newRegExp r false) s) with
  | Some _ => true
  | None => false
  end.

(** One round of the loop of [toDOM]: the children appended for the base
    chunk [base] and its reading. *)
Definition chunkChildren (base reading : jsstring) : list Child :=
  if negb (truthy base) then []
  else if negb (test HAS_KANJI base) then [ChildText base]
  else
    let leadMatch := fst (exec (newRegExp KANA_LEAD false) base) in
    let tailMatch := searchEol KANA_TAIL base in
    let lead := match leadMatch with Some m => whole m | None => [] end in
    let tail := match tailMatch with Some m => whole m | None => [] end in
    let core := slice base (slen lead) (slen base - slen tail) in
    (if truthy lead then [ChildText lead] else [])
    ++ (if truthy core then
          let rtText := reading in
          let rtText := if truthy lead && startsWith rtText lead
                        then sliceFrom rtText (slen lead) else rtText in
          let rtText := if truthy tail && endsWith rtText tail
                        then slice rtText 0 (slen rtText - slen tail)
                        else rtText in
          let rtText := if negb (truthy rtText) then reading else rtText in
          [ChildRuby core rtText]
        else [])
    ++ (if truthy tail then [ChildText tail] else []).

(** [toDOM()]: the children of the container, one round per base chunk;
    a missing reading counts as the empty string. *)
Definition toDOM (w : RubyWidget) : list Child :=
  flat_map (fun i => chunkChildren (nthOr (widget_kanji w) i [])
                                   (nthOr (widget_furi w) i []))
           (seq 0 (length (widget_kanji w))).

(** The text a child shows on the base line. *)
Definition childBase (c : Child) : jsstring :=
  match c with
  | ChildText data => data
  | ChildRuby core _ => core
  end.

Definition domBase (cs : list Child) : jsstring := concat (map childBase cs).

(** The class of [KANA_LEAD] and [KANA_TAIL] on one unit. *)
Definition kanaLeadUnit : Z -> bool := inClass false kanaRanges.

(** The class of [HAS_KANJI] on one unit. *)
Definition hasKanjiUnit : Z -> bool :=
  inClass false [(0x4E00, 0x9FFF); (0xF900, 0xFAFF)].

(** The longest suffix of [s] whose units all pass [f]. *)
Definition trailingRun (f : Z -> bool) (s : jsstring) : jsstring :=
  rev (leadingRun f (rev s)).

(* ------------------------------------------------------------------ *)
(** * Dictionary installer ([kuromojiDictInstaller.ts]) *)
(* ------------------------------------------------------------------ *)

Import String.StringSyntax.
Delimit Scope string_scope with string.

(** An ASCII string literal of the source, as UTF-16 units. *)
Definition lit (s : String.string) : jsstring :=
  map (fun a => Z.of_N (Ascii.N_of_ascii a)) (String.list_ascii_of_string s).
Arguments lit s%_string.

(** The outcome of a call that may throw, or of a promise that may
    reject. *)
Inductive Outcome (E A : Type) :=
| Returned (a : A)
| Thrown (e : E).
Arguments Returned {E A} a.
Arguments Thrown {E A} e.

(** One hexadecimal digit, lower case. *)
Definition hexDigit (d : Z) : Z :=
  if d <? 10 then 0x30 + d else 0x61 + (d - 10).

(** [n.toString(16)] for an element of a [Uint8Array], 0 to 255. *)
Definition toString16 (n : Z) : jsstring :=
  if n <? 16 then [hexDigit n] else [hexDigit (n / 16); hexDigit (n mod 16)].

(** [s.padStart(n, fill)] for a one-unit [fill]. *)
Definition padStart (s : jsstring) (n : nat) (fill : Z) : jsstring :=
  repeat fill (n - length s) ++ s.

(** [`...`.replace(/\\/g, '/')] *)
Definition slashes (s : jsstring) : jsstring :=
  map (fun c => if c =? 0x5C then 0x2F else c) s.

(** An entry of [dict.manifest.json]. *)
Record Want := mkWant { sha256 : jsstring; want_bytes : Z }.

(** The part of Obsidian's [DataAdapter] the installer calls, over the
    states [W] of the vault. [stat] answers [None] for [null]; a call that
    rejects reports the message of its error; [mkdir] and [writeBinary]
    also hand on the state they leave. *)
Class Adapter (W : Type) := {
  adapter_exists : W -> jsstring -> Outcome jsstring bool;
  adapter_mkdir : W -> jsstring -> Outcome jsstring unit * W;
  adapter_stat : W -> jsstring -> Outcome jsstring (option Z);
  adapter_readBinary : W -> jsstring -> Outcome jsstring (list Z);
  adapter_writeBinary : W -> jsstring -> list Z -> Outcome jsstring unit * W
}.

(** An adapter that stores files by path: a file written is the file read
    back, with its length as size, and the other paths are left alone. *)
Class FileStore (W : Type) `{Adapter W} : Prop := {
  write_read : forall w p d w',
    adapter_writeBinary w p d = (Returned tt, w') ->
    adapter_readBinary w' p = Returned d;
  write_stat : forall w p d w',
    adapter_writeBinary w p d = (Returned tt, w') ->
    adapter_stat w' p = Returned (Some (slen d));
  write_other : forall w p d w' q,
    adapter_writeBinary w p d = (Returned tt, w') -> q <> p ->
    adapter_readBinary w' q = adapter_readBinary w q /\
    adapter_stat w' q = adapter_stat w q
}.

(** What the installer does to the outside, in order. *)
Inductive Event :=
| Requested (url : jsstring)
| MadeDir (path : jsstring)
| Wrote (path : jsstring) (data : list Z)
| Noticed (installed total : Z).

(** The errors the installer throws or lets through. *)
Inductive InstallError :=
| AdapterThrew (message : jsstring)
| UriMalformed
| DownloadFailed (name message : jsstring)
| ChecksumMismatch (name : jsstring)
| SizeMismatch (name : jsstring).

(** The vault and the effects so far. *)
Record Run (W : Type) := mkRun { world : W; trace : list Event }.
Arguments mkRun {W} world trace.
Arguments world {W} r.
Arguments trace {W} r.

Section Installer.

Context {W : Type} `{Adapter W}.

(** [crypto.subtle.digest('SHA-256', buf)], as the bytes of its result. *)
Variable digest : list Z -> list Z.

(** [encodeURIComponent]: [None] is the [URIError] on a lone surrogate. *)
Variable encodeURIComponent : jsstring -> option jsstring.

(** [requestUrl({ url, method: 'GET', throw: true })]: the bytes of the
    response, or the message of the error. *)
Variable requestUrl : jsstring -> Outcome jsstring (list Z).

(** [app.vault.configDir] and [manifest.id]. *)
Variable configDir : option jsstring.
Variable pluginId : jsstring.

(** [dict.manifest.json], its keys in the order of [Object.keys]. *)
Variable dictManifest : list (jsstring * Want).

Definition OWNER : jsstring := lit "veschw".
Definition REPO : jsstring := lit "obsidian-autofurigana".
Definition TAG : jsstring := lit "v0.1.0".

Definition SOURCE_URLS : list (jsstring -> option jsstring) :=
  [ fun name =>
      match encodeURIComponent name with
      | Some n =>
          Some (lit "https://github.com/" ++ OWNER ++ lit "/" ++ REPO
                ++ lit "/releases/download/" ++ TAG ++ lit "/dict/" ++ n)
      | None => None
      end;
    fun name =>
      match encodeURIComponent name with
      | Some n =>
          Some (lit "https://cdn.jsdelivr.net/gh/" ++ OWNER ++ lit "/" ++ REPO
                ++ lit "@" ++ TAG ++ lit "/dict/" ++ n)
      | None => None
      end ].

(** [sha256Hex(buf)]: two digits per byte of the digest. *)
Definition sha256Hex (buf : list Z) : jsstring :=
  fold_left (fun out b => out ++ padStart (toString16 b) 2 0x30) (digest buf) [].

(** The loop of [fetchWithFallback]: the next source is tried when a
    request fails; [lastErr] is the message of the last failure. *)
Fixpoint fetchLoop (sources : list (jsstring -> option jsstring))
    (name : jsstring) (lastErr : option jsstring) (tr : list Event)
  : Outcome InstallError (list Z) * list Event :=
  match sources with
  | [] =>
      (Thrown (DownloadFailed name
                 (match lastErr with Some m => m | None => lit "null" end)), tr)
  | makeUrl :: rest =>
      match makeUrl name with
      | None => (Thrown UriMalformed, tr)
      | Some url =>
          match requestUrl url with
          | Returned buf => (Returned buf, tr ++ [Requested url])
          | Thrown e => fetchLoop rest name (Some e) (tr ++ [Requested url])
          end
      end
  end.

Definition fetchWithFallback (name : jsstring) (tr : list Event)
  : Outcome InstallError (list Z) * list Event :=
  fetchLoop SOURCE_URLS name None tr.

Definition getDictBaseRel : jsstring :=
  slashes ((match configDir with Some d => d | None => lit ".obsidian" end)
           ++ lit "/plugins/" ++ pluginId ++ lit "/dict").

Definition ensureDictDir (st : Run W) : Outcome InstallError jsstring * Run W :=
  let baseRel := getDictBaseRel in
  match adapter_exists (world st) baseRel with
  | Thrown e => (Thrown (AdapterThrew e), st)
  | Returned true => (Returned baseRel, st)
  | Returned false =>
      let '(r, w') := adapter_mkdir (world st) baseRel in
      (match r with
       | Returned _ => Returned baseRel
       | Thrown e => Thrown (AdapterThrew e)
       end,
       mkRun w' (trace st ++ [MadeDir baseRel]))
  end.

(** [isFileValid]: every exception inside is caught and answered
    [false]. *)
Definition isFileValid (w : W) (relPath : jsstring) (want : Want) : bool :=
  match adapter_stat w relPath with
  | Thrown _ => false
  | Returned None => false
  | Returned (Some size) =>
      if negb (size =? want_bytes want) then false
      else
        match adapter_readBinary w relPath with
        | Thrown _ => false
        | Returned buf =>
            if negb (slen buf =? want_bytes want) then false
            else streq (sha256Hex buf) (sha256 want)
        end
  end.

(** The path of the file [name] under [baseRel]. *)
Definition relOf (baseRel name : jsstring) : jsstring :=
  baseRel ++ lit "/" ++ name.

(** Body of [for (const name of names)]: the state is [installed] and the
    run. *)
Definition installStep (baseRel : jsstring) (total : Z)
    (acc : Z * Run W) (entry : jsstring * Want)
  : Outcome InstallError unit * (Z * Run W) :=
  let '(installed, st) := acc in
  let '(name, want) := entry in
  let rel := relOf baseRel name in
  if isFileValid (world st) rel want then (Returned tt, acc)
  else
    let '(r, tr1) := fetchWithFallback name (trace st) in
    match r with
    | Thrown e => (Thrown e, (installed, mkRun (world st) tr1))
    | Returned data =>
        let gotSha := sha256Hex data in
        if negb (streq gotSha (sha256 want))
        then (Thrown (ChecksumMismatch name), (installed, mkRun (world st) tr1))
        else if negb (slen data =? want_bytes want)
        then (Thrown (SizeMismatch name), (installed, mkRun (world st) tr1))
        else
          let '(rw, w') := adapter_writeBinary (world st) rel data in
          match rw with
          | Thrown e =>
              (Thrown (AdapterThrew e),
               (installed, mkRun w' (tr1 ++ [Wrote rel data])))
          | Returned _ =>
              (Returned tt,
               (installed + 1,
                mkRun w' (tr1 ++ [Wrote rel data; Noticed (installed + 1) total])))
          end
    end.

Fixpoint installLoop (baseRel : jsstring) (total : Z)
    (entries : list (jsstring * Want)) (acc : Z * Run W)
  : Outcome InstallError unit * (Z * Run W) :=
  match entries with
  | [] => (Returned tt, acc)
  | entry :: rest =>
      match installStep baseRel total acc entry with
      | (Returned _, acc') => installLoop baseRel total rest acc'
      | (Thrown e, acc') => (Thrown e, acc')
      end
  end.

(** [ensureDictInstalled(app, manifest)] *)
Definition ensureDictInstalled (st : Run W) : Outcome InstallError unit * Run W :=
  match ensureDictDir st with
  | (Thrown e, st1) => (Thrown e, st1)
  | (Returned baseRel, st1) =>
      let '(r, (_, st2)) :=
        installLoop baseRel (Z.of_nat (length dictManifest)) dictManifest (0, st1) in
      (r, st2)
  end.

(** Every file of the manifest is in place and passes [isFileValid]. *)
Definition AllValid (w : W) : Prop :=
  Forall (fun entry => isFileValid w (relOf getDictBaseRel (fst entry)) (snd entry)
                       = true) dictManifest.

(** A write of verified data: the bytes have the length and the digest the
    manifest gives for the file they are written to. *)
Definition Verified (ev : Event) : Prop :=
  match ev with
  | Wrote p d =>
      exists name want,
        In (name, want) dictManifest /\ p = relOf getDictBaseRel name /\
        sha256Hex d = sha256 want /\ slen d = want_bytes want
  | _ => True
  end.

End Installer.

(** A lower-case hexadecimal digit. *)
Definition lowerHex (c : Z) : Prop := 0x30 <= c <= 0x39 \/ 0x61 <= c <= 0x66.

(** A vault as a list of files, the latest written first; every directory
    exists and no call rejects. *)
Definition Files := list (jsstring * list Z).

Fixpoint lookupFile (fs : Files) (p : jsstring) : option (list Z) :=
  match fs with
  | [] => None
  | (q, d) :: fs' => if streq q p then Some d else lookupFile fs' p
  end.

#[export] Instance FilesAdapter : Adapter Files := {
  adapter_exists := fun _ _ => Returned true;
  adapter_mkdir := fun fs _ => (Returned tt, fs);
  adapter_stat := fun fs p =>
    Returned (match lookupFile fs p with Some d => Some (slen d) | None => None end);
  adapter_readBinary := fun fs p =>
    match lookupFile fs p with
    | Some d => Returned d
    | None => Thrown (lit "ENOENT")
    end;
  adapter_writeBinary := fun fs p d => (Returned tt, (p, d) :: fs)
}.

(** A one-file manifest, a digest that copies its input, and a network
    whose first source fails. *)
Module SampleInstall.

Definition digest (buf : list Z) : list Z := map (fun b => b mod 256) buf.

Definition encode (s : jsstring) : option jsstring := Some s.

Definition request (url : jsstring) : Outcome jsstring (list Z) :=
  if startsWith url (lit "https://github.com/")
  then Thrown (lit "Request failed, status 404")
  else Returned [1; 2].

Definition manifest : list (jsstring * Want) :=
  [(lit "base.dat.gz", mkWant (lit "0102") 2)].

Definition pluginId : jsstring := lit "autofurigana".

Definition install (st : Run Files) : Outcome InstallError unit * Run Files :=
  ensureDictInstalled digest encode request None pluginId manifest st.

End SampleInstall.

(* ------------------------------------------------------------------ *)
(** * Dictionary requests ([kuromojiInit.ts] and the worker) *)
(* ------------------------------------------------------------------ *)

Definition DICT_FILES : list jsstring :=
  [lit "base.dat.gz"; lit "cc.dat.gz"; lit "check.dat.gz"; lit "tid.dat.gz";
   lit "tid_map.dat.gz"; lit "tid_pos.dat.gz"; lit "unk.dat.gz";
   lit "unk_char.dat.gz"; lit "unk_compat.dat.gz"; lit "unk_invoke.dat.gz";
   lit "unk_map.dat.gz"; lit "unk_pos.dat.gz"].

Definition SENTINEL : jsstring := lit "__KUROMOJI_DICT__".

(** The own properties of a [Record<string, string>]. *)
Definition UrlMap := list (jsstring * jsstring).

(** [map[key]] for an own property. *)
Fixpoint getOwn (o : UrlMap) (key : jsstring) : option jsstring :=
  match o with
  | [] => None
  | (k, v) :: o' => if streq k key then Some v else getOwn o' key
  end.

(** [map[key] = value] *)
Fixpoint setProp (o : UrlMap) (key value : jsstring) : UrlMap :=
  match o with
  | [] => [(key, value)]
  | (k, v) :: o' =>
      if streq k key then (k, value) :: o' else (k, v) :: setProp o' key value
  end.

(** What [open] is called with: a string, or, when the key read from the
    map is one that plain objects inherit, the inherited value. *)
Inductive UrlArg :=
| UrlString (url : jsstring)
| UrlInherited (key : jsstring).

Inductive InitError :=
| CannotResolve (rel : jsstring).

Section DictionaryUrls.

(** [app.vault.configDir], [manifest.id] and [adapter.getResourcePath];
    the empty string stands for every falsy answer. *)
Variable configDir : option jsstring.
Variable pluginId : jsstring.
Variable getResourcePath : jsstring -> jsstring.

(** The keys every plain object inherits from [Object.prototype]; their
    values are functions or objects, all truthy. *)
Variable inheritedKey : jsstring -> bool.

(** The loop of [buildUrlMap]. *)
Fixpoint buildLoop (baseRel : jsstring) (names : list jsstring) (map : UrlMap)
  : Outcome InitError UrlMap :=
  match names with
  | [] => Returned map
  | name :: rest =>
      let rel := baseRel ++ name in
      let url := getResourcePath rel in
      if negb (truthy url) then Thrown (CannotResolve rel)
      else buildLoop baseRel rest (setProp map name url)
  end.

Definition buildUrlMap : Outcome InitError UrlMap :=
  let baseRel :=
    slashes ((match configDir with Some d => d | None => lit ".obsidian" end)
             ++ lit "/plugins/" ++ pluginId ++ lit "/dict/") in
  buildLoop baseRel DICT_FILES [].

(** The replacement of [XMLHttpRequest.prototype.open] installed by
    [initializeTokenizer]: the URL it passes on. *)
Definition openInit (urlMap : UrlMap) (url : jsstring) : UrlArg :=
  if startsWith url SENTINEL then
    let file := sliceFrom url (slen SENTINEL + 1) in
    match getOwn urlMap file with
    | Some mapped => if truthy mapped then UrlString mapped else UrlString url
    | None => if inheritedKey file then UrlInherited file else UrlString url
    end
  else UrlString url.

(** The replacement installed by [patchXHR] in the worker. *)
Definition openWorker (urlMap : UrlMap) (sentinel : jsstring) (url : jsstring)
  : UrlArg :=
  if startsWith url (sentinel ++ lit "/") then
    let filename := sliceFrom url (slen sentinel + 1) in
    match getOwn urlMap filename with
    | Some mapped => if truthy mapped then UrlString mapped else UrlString url
    | None => if inheritedKey filename then UrlInherited filename else UrlString url
    end
  else UrlString url.

End DictionaryUrls.

(** What a pattern matches: [Den s r i c j c'] when [r] matches the units
    of [s] from position [i] up to [j] and turns the captures [c] into
    [c']. *)
Inductive Den (s : jsstring) : regex -> nat -> captures -> nat -> captures -> Prop :=
| DenChr x i c :
    nth_error s i = Some x -> Den s (Chr x) i c (S i) c
| DenClass neg rs y i c :
    nth_error s i = Some y -> inClass neg rs y = true ->
    Den s (Class neg rs) i c (S i) c
| DenSeq r1 r2 i c j c1 k c2 :
    Den s r1 i c j c1 -> Den s r2 j c1 k c2 -> Den s (Seq r1 r2) i c k c2
| DenGroup n r i c j c' :
    Den s r i c j c' -> Den s (Group n r) i c j ((n, (i, j)) :: c')
| DenBol c : Den s Bol 0 c 0 c
| DenOnce r i c j c' :
    Den s r i c j c' -> Den s (Plus r) i c j c'
| DenMore r i c j c1 k c2 :
    Den s r i c j c1 -> Den s (Plus r) j c1 k c2 -> Den s (Plus r) i c k c2.

(** The reading of a token as the segment builder normalises it; a token
    without a surface is skipped and has none. *)
Definition tokenReading (hira : jsstring -> jsstring) (t : KuromojiToken)
  : jsstring :=
  if truthy (surface_form t)
  then hira (rawReading t (surface_form t))
  else [].

(** The split of a token with kanji leaves a reading for its core. *)
Definition CoreRead (hira : jsstring -> jsstring) (t : KuromojiToken) : Prop :=
  hasKanji (surface_form t) = true ->
  baseReading (splitOkurigana hira (surface_form t)
                 (hira (rawReading t (surface_form t)))) <> [].

(* ------------------------------------------------------------------ *)
(** * Reading Mode: the text nodes of a block ([furiganaReadingMode.ts]) *)
(* ------------------------------------------------------------------ *)

(** A DOM node as [collectTextNodes] sees it: a text node with its
    [nodeValue]; an element with its [tagName], whether the selector
    [ruby] matches it, and its [childNodes]; or a node of another type. *)
#[local] Unset Elimination Schemes.
Inductive DomNode :=
| TextN (nodeValue : jsstring)
| ElementN (tagName : jsstring) (matchesRuby : bool) (childNodes : list DomNode)
| OtherN.
#[local] Set Elimination Schemes.

(** A collected text node: where it is, as the child indices that lead to
    it from the root, and its value. *)
Definition Found := (list nat * jsstring)%type.

Section ReadingModeNodes.

(** [String.prototype.toLowerCase] *)
Variable toLowerCase : jsstring -> jsstring.

Definition isSkippableElement (tagName : jsstring) : bool :=
  let tag := toLowerCase tagName in
  streq tag (lit "code") || streq tag (lit "pre") || streq tag (lit "script")
  || streq tag (lit "style") || streq tag (lit "ruby").

(** [collectTextNodes(root, out)]; [inRuby] tells whether the selector
    [ruby] matches an ancestor of [root], so that [el.closest('ruby')] is
    [matchesRuby || inRuby]; [path] leads to [root]. *)
Fixpoint collectTextNodes (inRuby : bool) (root : DomNode) (path : list nat)
    (out : list Found) {struct root} : list Found :=
  match root with
  | TextN nodeValue =>
      if 0 <? slen (trim nodeValue) then out ++ [(path, nodeValue)] else out
  | ElementN tagName matchesRuby childNodes =>
      if isSkippableElement tagName then out
      else if matchesRuby || inRuby then out
      else
        (fix loop (cs : list DomNode) (i : nat) (out : list Found) : list Found :=
           match cs with
           | [] => out
           | c :: cs' =>
               loop cs' (S i)
                    (collectTextNodes (matchesRuby || inRuby) c (path ++ [i]) out)
           end) childNodes 0%nat out
  | OtherN => out
  end.

(** The text node with value [v] at [path] under [root], none of the
    elements from [root] down to it being skippable or inside a ruby. *)
Inductive TextAt : bool -> DomNode -> list nat -> jsstring -> Prop :=
| TextHere inRuby v : TextAt inRuby (TextN v) [] v
| TextBelow inRuby tagName matchesRuby childNodes i c path v :
    isSkippableElement tagName = false ->
    matchesRuby || inRuby = false ->
    nth_error childNodes i = Some c ->
    TextAt (matchesRuby || inRuby) c path v ->
    TextAt inRuby (ElementN tagName matchesRuby childNodes) (i :: path) v.

(** The loop over the children, by itself. *)
Fixpoint collectChildren (inRuby : bool) (cs : list DomNode) (path : list nat)
    (i : nat) (out : list Found) : list Found :=
  match cs with
  | [] => out
  | c :: cs' =>
      collectChildren inRuby cs' path (S i)
        (collectTextNodes inRuby c (path ++ [i]) out)
  end.

(** What is collected under [root], with places relative to [root]. *)
Definition collected (inRuby : bool) (root : DomNode) : list Found :=
  collectTextNodes inRuby root [] [].

End ReadingModeNodes.

(** A place moved under [path]. *)
Definition under (path : list nat) (f : Found) : Found := (path ++ fst f, snd f).

(** Document order of two places: the child indices compared from the
    root down. *)
Fixpoint pathBefore (p q : list nat) : Prop :=
  match p, q with
  | i :: p', j :: q' => (i < j)%nat \/ (i = j /\ pathBefore p' q')
  | _, _ => False
  end.

(* ------------------------------------------------------------------ *)
(** * The regular-expression engine *)
(* ------------------------------------------------------------------ *)

Lemma iterate_advances len strict body k :
  Advances len strict body ->
  forall fuel first i c res,
    iterate body k fuel first i c = Some res ->
    exists j c', (i <= j <= len)%nat /\ (strict = true -> (i < j)%nat) /\
                 k j c' = Some res.
Proof.
  intros Hbody. induction fuel as [| fuel IH]; intros first i c res H;
    simpl in H; apply Hbody in H; destruct H as (j & c' & Hb & Hs & H).
  - destruct (negb first && Nat.eqb j i); [discriminate |].
    exists j, c'. auto.
  - destruct (negb first && Nat.eqb j i); [discriminate |].
    destruct (iterate body k fuel false j c') as [res' |] eqn:E.
    + inversion H; subst res'. apply IH in E.
      destruct E as (j2 & c2 & Hb2 & Hs2 & Hk).
      exists j2, c2. repeat split; try lia; auto.
      intros Hst. specialize (Hs Hst). lia.
    + exists j, c'. auto.
Qed.

Lemma rmatch_advances (r : regex) (s : jsstring) :
  Advances (length s) (consumes r) (rmatch r s).
Proof.
  induction r as [x | neg rs | r1 IH1 r2 IH2 | r1 IH1 | n r1 IH1 |];
    intros i c k res H; simpl in H.
  - destruct (nth_error s i) as [y |] eqn:E; [| discriminate].
    destruct (y =? x); [| discriminate].
    assert (i < length s)%nat by (apply nth_error_Some; congruence).
    exists (S i), c. repeat split; auto; lia.
  - destruct (nth_error s i) as [y |] eqn:E; [| discriminate].
    destruct (inClass neg rs y); [| discriminate].
    assert (i < length s)%nat by (apply nth_error_Some; congruence).
    exists (S i), c. repeat split; auto; lia.
  - apply IH1 in H. destruct H as (j & c' & Hb & Hs & H).
    apply IH2 in H. destruct H as (j2 & c2 & Hb2 & Hs2 & H).
    exists j2, c2. repeat split; try lia; auto.
    simpl. intros Hc. apply orb_true_iff in Hc. destruct Hc as [Hc | Hc].
    + specialize (Hs Hc). lia.
    + specialize (Hs2 Hc). lia.
  - simpl. eapply iterate_advances; eauto.
  - apply IH1 in H. destruct H as (j & c' & Hb & Hs & H).
    exists j, ((n, (i, j)) :: c'). auto.
  - destruct (Nat.eqb_spec i 0); [| discriminate]. subst i.
    exists O, c. repeat split; auto; try lia. discriminate.
Qed.

Lemma matchAt_bounds r s i j c :
  matchAt r s i = Some (j, c) ->
  (i <= j <= length s)%nat /\ (consumes r = true -> (i < j)%nat).
Proof.
  unfold matchAt. intros H. apply rmatch_advances in H.
  destruct H as (j' & c' & Hb & Hs & H). inversion H; subst. auto.
Qed.

Lemma searchFrom_placed r s : forall n i m,
  searchFrom n r s i = Some m -> WellPlaced r s i m.
Proof.
  induction n as [| n IH]; intros i m H; simpl in H;
    destruct (matchAt r s i) as [[j c] |] eqn:E.
  - inversion H; subst m. apply matchAt_bounds in E.
    unfold WellPlaced; simpl. repeat split; try lia. tauto.
  - discriminate.
  - inversion H; subst m. apply matchAt_bounds in E.
    unfold WellPlaced; simpl. repeat split; try lia. tauto.
  - apply IH in H. unfold WellPlaced in *. intuition lia.
Qed.

Lemma search_placed r s i m :
  search r s i = Some m -> WellPlaced r s i m.
Proof.
  unfold search. destruct (Nat.ltb (length s) i); [discriminate |].
  apply searchFrom_placed.
Qed.

Lemma Chained_weaken r s p q ms :
  (q <= p)%nat -> Chained r s p ms -> Chained r s q ms.
Proof.
  destruct ms as [| m ms]; simpl; auto.
  unfold WellPlaced. intuition lia.
Qed.

Lemma matchAllLoop_chained r s : forall fuel li,
  Chained r s (Z.to_nat li) (matchAllLoop fuel (mkRegExp r true li) s).
Proof.
  induction fuel as [| fuel IH]; intros li; simpl; [exact I |].
  unfold exec; simpl.
  destruct (search r s (Z.to_nat li)) as [m |] eqn:E; simpl; [| exact I].
  pose proof (search_placed _ _ _ _ E) as Hm.
  split; [exact Hm |].
  unfold setLastIndex; simpl.
  destruct (Nat.eqb (m_end m) (m_index m)).
  - eapply Chained_weaken; [| apply IH]. lia.
  - eapply Chained_weaken; [| apply IH]. lia.
Qed.

Lemma matchAll_chained s re ms :
  matchAll s re = Ok ms ->
  Chained (source re) s (Z.to_nat (lastIndex re)) ms.
Proof.
  unfold matchAll. destruct (global re); [| discriminate].
  intros H. injection H as <-.
  exact (matchAllLoop_chained (source re) s (S (length s)) (lastIndex re)).
Qed.

(** ** The iteration bounds are never reached *)

Lemma iterate_local len strict body :
  Local len strict body ->
  forall fuel first i c (k1 k2 : Cont),
    (forall j c', (i <= j <= len)%nat -> (strict = true -> (i < j)%nat) ->
                  k1 j c' = k2 j c') ->
    iterate body k1 fuel first i c = iterate body k2 fuel first i c.
Proof.
  intros Hbody. induction fuel as [| fuel IH]; intros first i c k1 k2 Hk;
    simpl; apply Hbody; intros j c' Hj Hs.
  - destruct (negb first && Nat.eqb j i); [reflexivity |]. apply Hk; auto.
  - destruct (negb first && Nat.eqb j i); [reflexivity |].
    rewrite (IH false j c' k1 k2).
    + rewrite (Hk j c' Hj Hs). reflexivity.
    + intros j2 c2 Hj2 Hs2. apply Hk; [lia |].
      intros Hst. specialize (Hs Hst). lia.
Qed.

Lemma rmatch_local (r : regex) (s : jsstring) :
  Local (length s) (consumes r) (rmatch r s).
Proof.
  induction r as [x | neg rs | r1 IH1 r2 IH2 | r1 IH1 | n r1 IH1 |];
    intros i c k1 k2 Hk; simpl.
  - destruct (nth_error s i) as [y |] eqn:E; [| reflexivity].
    destruct (y =? x); [| reflexivity].
    assert (i < length s)%nat by (apply nth_error_Some; congruence).
    apply Hk; [lia |]. intros _. lia.
  - destruct (nth_error s i) as [y |] eqn:E; [| reflexivity].
    destruct (inClass neg rs y); [| reflexivity].
    assert (i < length s)%nat by (apply nth_error_Some; congruence).
    apply Hk; [lia |]. intros _. lia.
  - apply IH1. intros j c' Hj Hs. apply IH2. intros j2 c2 Hj2 Hs2.
    apply Hk; [lia |]. simpl. intros Hc.
    apply orb_true_iff in Hc. destruct Hc as [Hc | Hc].
    + specialize (Hs Hc). lia.
    + specialize (Hs2 Hc). lia.
  - apply iterate_local with (len := length s) (strict := consumes r1); auto.
  - apply IH1. intros j c' Hj Hs. apply Hk; auto.
  - destruct (Nat.eqb_spec i 0); [| reflexivity]. subst i.
    apply Hk; [lia |]. discriminate.
Qed.

(** One more unit of fuel changes nothing once the fuel covers what is
    left of the input. *)
Lemma iterate_fuel_step len body (k : Cont) :
  Local len true body ->
  forall fuel first i c,
    (len - i <= fuel)%nat ->
    iterate body k (S fuel) first i c = iterate body k fuel first i c.
Proof.
  intros Hbody. induction fuel as [| fuel IH]; intros first i c Hf.
  - simpl. apply Hbody. intros j c' Hj Hs. specialize (Hs eq_refl). lia.
  - change (iterate body k (S (S fuel)) first i c)
      with (body i c (fun j c' =>
              if negb first && Nat.eqb j i then None
              else match iterate body k (S fuel) false j c' with
                   | Some res => Some res
                   | None => k j c'
                   end)).
    change (iterate body k (S fuel) first i c)
      with (body i c (fun j c' =>
              if negb first && Nat.eqb j i then None
              else match iterate body k fuel false j c' with
                   | Some res => Some res
                   | None => k j c'
                   end)).
    apply Hbody. intros j c' Hj Hs. specialize (Hs eq_refl).
    destruct (negb first && Nat.eqb j i); [reflexivity |].
    rewrite IH by lia. reflexivity.
Qed.

(** The bound [length s] in the matcher of [Plus] loses no iteration: any
    larger bound gives the same result. *)
Lemma plus_fuel_enough (r1 : regex) (s : jsstring) (k : Cont) (n i : nat)
    (c : captures) :
  consumes r1 = true ->
  iterate (rmatch r1 s) k (length s + n) true i c = rmatch (Plus r1) s i c k.
Proof.
  intros Hc. simpl. induction n as [| n IH].
  - rewrite Nat.add_0_r. reflexivity.
  - rewrite <- IH. replace (length s + S n)%nat with (S (length s + n)) by lia.
    apply iterate_fuel_step with (len := length s); [| lia].
    rewrite <- Hc. apply rmatch_local.
Qed.

Lemma matchAllLoop_fuel_step (r : regex) (s : jsstring) :
  forall fuel li,
    (S (length s) - Z.to_nat li <= fuel)%nat ->
    matchAllLoop (S fuel) (mkRegExp r true li) s
    = matchAllLoop fuel (mkRegExp r true li) s.
Proof.
  induction fuel as [| fuel IH]; intros li Hf.
  - simpl. unfold exec, search. simpl.
    destruct (Nat.ltb_spec (length s) (Z.to_nat li)); [reflexivity | lia].
  - change (matchAllLoop (S (S fuel)) (mkRegExp r true li) s)
      with (match exec (mkRegExp r true li) s with
            | (Some m, re') =>
                m :: matchAllLoop (S fuel)
                       (if Nat.eqb (m_end m) (m_index m)
                        then setLastIndex re' (lastIndex re' + 1) else re') s
            | (None, _) => []
            end).
    change (matchAllLoop (S fuel) (mkRegExp r true li) s)
      with (match exec (mkRegExp r true li) s with
            | (Some m, re') =>
                m :: matchAllLoop fuel
                       (if Nat.eqb (m_end m) (m_index m)
                        then setLastIndex re' (lastIndex re' + 1) else re') s
            | (None, _) => []
            end).
    unfold exec. cbn [global source lastIndex].
    destruct (search r s (Z.to_nat li)) as [m |] eqn:E; [| reflexivity].
    pose proof (search_placed _ _ _ _ E) as (_ & Hp & Hie & Hel & _).
    f_equal. unfold setLastIndex. cbn [global source lastIndex].
    destruct (Nat.eqb_spec (m_end m) (m_index m)); apply IH; lia.
Qed.

(** The bound [S (length s)] of the [matchAll] iterator loses no match. *)
Lemma matchAllLoop_fuel_enough (r : regex) (s : jsstring) (li : Z) (n : nat) :
  matchAllLoop (S (length s) + n) (mkRegExp r true li) s
  = matchAllLoop (S (length s)) (mkRegExp r true li) s.
Proof.
  induction n as [| n IH].
  - rewrite Nat.add_0_r. reflexivity.
  - rewrite <- IH. replace (S (length s) + S n)%nat with (S (S (length s) + n)) by lia.
    apply matchAllLoop_fuel_step. lia.
Qed.

(** ** Capture groups *)





(* ------------------------------------------------------------------ *)
(** * Sorting and pairwise lemmas *)
(* ------------------------------------------------------------------ *)

Lemma compareEntries_le (a b : Entry) :
  compareEntries a b <= 0 <-> rangeLe (span a) (span b).
Proof.
  unfold compareEntries, rangeLe.
  destruct (Z.eqb_spec (from (span a) - from (span b)) 0); lia.
Qed.

Lemma insertEntry_perm (x : Entry) (l : list Entry) :
  Permutation (insertEntry x l) (x :: l).
Proof.
  induction l as [| y l IH]; simpl; [reflexivity |].
  destruct (compareEntries x y <? 0); [reflexivity |].
  rewrite IH. apply perm_swap.
Qed.

Lemma sortEntries_perm_acc (l acc : list Entry) :
  Permutation (fold_left (fun acc x => insertEntry x acc) l acc) (acc ++ l).
Proof.
  revert acc. induction l as [| x l IH]; intros acc; simpl.
  - rewrite app_nil_r. reflexivity.
  - rewrite IH, insertEntry_perm. apply (Permutation_middle acc l x).
Qed.

Lemma sortEntries_perm (l : list Entry) : Permutation (sortEntries l) l.
Proof. unfold sortEntries. rewrite sortEntries_perm_acc. reflexivity. Qed.

Lemma entryLe_trans a b c : entryLe a b -> entryLe b c -> entryLe a c.
Proof. unfold entryLe, rangeLe. lia. Qed.

Lemma insertEntry_sorted (x : Entry) (l : list Entry) :
  StronglySorted entryLe l -> StronglySorted entryLe (insertEntry x l).
Proof.
  induction 1 as [| y l Hs IH Hy]; simpl.
  - constructor; constructor.
  - destruct (Z.ltb_spec (compareEntries x y) 0) as [Hlt | Hge].
    + assert (Hxy : entryLe x y) by (apply compareEntries_le; lia).
      constructor; [constructor; assumption |].
      constructor; [exact Hxy |].
      eapply Forall_impl; [| exact Hy].
      intros z Hz. eapply entryLe_trans; eauto.
    + assert (Hyx : entryLe y x).
      { unfold entryLe, rangeLe. unfold compareEntries in Hge.
        destruct (Z.eqb_spec (from (span x) - from (span y)) 0); lia. }
      constructor; [exact IH |].
      eapply Permutation_Forall; [symmetry; apply insertEntry_perm |].
      constructor; assumption.
Qed.

Lemma sortEntries_sorted (l : list Entry) : StronglySorted entryLe (sortEntries l).
Proof.
  unfold sortEntries.
  assert (H : forall acc, StronglySorted entryLe acc ->
            StronglySorted entryLe (fold_left (fun acc x => insertEntry x acc) l acc)).
  { induction l as [| x l IH]; intros acc Hacc; simpl; [exact Hacc |].
    apply IH, insertEntry_sorted, Hacc. }
  apply H. constructor.
Qed.

(** ** Pairwise properties *)

Lemma StronglySorted_perm {A} (R : A -> A -> Prop) (l l' : list A) :
  (forall a b, R a b -> R b a) ->
  Permutation l l' -> StronglySorted R l -> StronglySorted R l'.
Proof.
  intros Hsym Hp. induction Hp as [| x l l' Hp IH | x y l | l l' l'' _ IH1 _ IH2];
    intros H.
  - exact H.
  - inversion H; subst. constructor; [auto |].
    eapply Permutation_Forall; eauto.
  - inversion H as [| ? ? Hs Hy]; subst. inversion Hs as [| ? ? Hl Hx]; subst.
    inversion Hy; subst.
    constructor; [constructor; assumption |].
    constructor; auto.
  - auto.
Qed.

Lemma StronglySorted_app {A} (R : A -> A -> Prop) (l1 l2 : list A) :
  StronglySorted R l1 -> StronglySorted R l2 ->
  (forall a b, In a l1 -> In b l2 -> R a b) ->
  StronglySorted R (l1 ++ l2).
Proof.
  intros H1 H2 H12. induction H1 as [| a l1 Hs IH Ha]; simpl; [exact H2 |].
  constructor.
  - apply IH. intros x y Hx Hy. apply H12; simpl; auto.
  - apply Forall_app. split; [exact Ha |].
    apply Forall_forall. intros y Hy. apply H12; simpl; auto.
Qed.

Lemma StronglySorted_impl {A} (R R' : A -> A -> Prop) (l : list A) :
  (forall a b, In a l -> In b l -> R a b -> R' a b) ->
  StronglySorted R l -> StronglySorted R' l.
Proof.
  intros Himp H. induction H as [| a l Hs IH Ha]; constructor.
  - apply IH. intros x y Hx Hy. apply Himp; simpl; auto.
  - apply Forall_forall. intros y Hy.
    apply Himp; simpl; auto. rewrite Forall_forall in Ha. auto.
Qed.

Lemma StronglySorted_and {A} (R R' : A -> A -> Prop) (l : list A) :
  StronglySorted R l -> StronglySorted R' l ->
  StronglySorted (fun a b => R a b /\ R' a b) l.
Proof.
  induction 1 as [| a l Hs IH Ha]; intros H'; constructor;
    inversion H' as [| ? ? Hs' Ha']; subst.
  - apply IH, Hs'.
  - rewrite Forall_forall in *. auto.
Qed.

Lemma StronglySorted_filter {A} (R : A -> A -> Prop) (f : A -> bool) (l : list A) :
  StronglySorted R l -> StronglySorted R (filter f l).
Proof.
  induction 1 as [| a l Hs IH Ha]; simpl; [constructor |].
  destruct (f a); [| exact IH].
  constructor; [exact IH |].
  rewrite Forall_forall in *. intros x Hx. apply filter_In in Hx. apply Ha, Hx.
Qed.

Lemma StronglySorted_map {A B} (R : B -> B -> Prop) (g : A -> B) (l : list A) :
  StronglySorted R (map g l) <-> StronglySorted (fun a b => R (g a) (g b)) l.
Proof.
  induction l as [| a l IH]; simpl; split; intros H; try constructor;
    inversion H; subst.
  - apply IH; assumption.
  - rewrite Forall_map in *. assumption.
  - apply IH; assumption.
  - rewrite Forall_map. assumption.
Qed.

(** Sorted, pairwise disjoint, non-empty intervals form a chain. *)
Lemma sorted_disjoint_chain (l : list Entry) :
  StronglySorted entryLe l ->
  StronglySorted (fun a b => Disjoint (span a) (span b)) l ->
  Forall (fun e => NonEmpty (span e)) l ->
  StronglySorted (fun a b => Before (span a) (span b)) l.
Proof.
  intros Hs Hd Hn.
  pose proof (StronglySorted_and _ _ _ Hs Hd) as H.
  eapply StronglySorted_impl; [| exact H].
  intros a b Ha Hb [Hle Hdis].
  rewrite Forall_forall in Hn.
  pose proof (Hn a Ha) as Na. pose proof (Hn b Hb) as Nb.
  unfold entryLe, rangeLe, Disjoint, Before, NonEmpty in *. lia.
Qed.

(* ------------------------------------------------------------------ *)
(** * Facts about the okurigana splitter and the segment builder *)
(* ------------------------------------------------------------------ *)

Lemma kana_not_kanji c : kanaUnit c = true -> kanjiUnit c = false.
Proof.
  unfold kanaUnit, kanjiUnit, inRange. intros H.
  apply orb_true_iff in H.
  repeat rewrite orb_false_iff. repeat rewrite andb_false_iff.
  repeat rewrite Z.leb_gt.
  destruct H as [H | H].
  - apply andb_true_iff in H. destruct H as [H1 H2].
    apply Z.leb_le in H1, H2. lia.
  - apply Z.eqb_eq in H. lia.
Qed.

Lemma kana_run_no_kanji (s : jsstring) :
  Forall (fun c => isKana c = true) s -> hasKanji s = false.
Proof.
  induction 1 as [| c s Hc _ IH]; simpl; [reflexivity |].
  unfold isKana in Hc. rewrite (kana_not_kanji c Hc). exact IH.
Qed.

Lemma slice_middle (s : jsstring) (a b : nat) :
  (a <= b)%nat -> (b <= length s)%nat ->
  slice s (Z.of_nat a) (Z.of_nat b) = firstn (b - a) (skipn a s).
Proof.
  intros Hab Hb. unfold slice, clampIndex, slen.
  destruct (Z.ltb_spec (Z.of_nat a) 0); [lia |].
  destruct (Z.ltb_spec (Z.of_nat b) 0); [lia |].
  rewrite !Z.min_l by lia.
  rewrite Z.max_l by lia.
  rewrite Nat2Z.id. f_equal. lia.
Qed.

Lemma combine_snoc {A B} (ks : list A) (fs : list B) (x : A) (y : B) :
  length ks = length fs ->
  combine (ks ++ [x]) (fs ++ [y]) = combine ks fs ++ [(x, y)].
Proof.
  revert fs. induction ks as [| k ks IH]; intros [| f fs] H;
    simpl in *; try discriminate; [reflexivity |].
  f_equal. apply IH. lia.
Qed.

Section SegmentationFacts.

Variable hira : jsstring -> jsstring.
Variable getTokenizer : option (jsstring -> list KuromojiToken).

(** The first walk moves a run of kana from the front of [rest]. *)
Lemma prefixWalk_spec (rest : jsstring) (w : Walk) :
  exists k : nat,
    (k <= length rest)%nat /\
    w_index (prefixWalk hira rest w) = w_index w + Z.of_nat k /\
    w_base (prefixWalk hira rest w) = w_base w ++ firstn k rest /\
    Forall (fun c => isKana c = true) (firstn k rest).
Proof.
  revert w. induction rest as [| ch rest IH]; intros w; simpl.
  - exists O. simpl. rewrite app_nil_r. repeat split; auto; lia.
  - destruct (isKana ch) eqn:Hk; simpl.
    + destruct (startsWith (w_reading w) (hira [ch])).
      * destruct (IH (mkWalk (w_index w + 1) (w_base w ++ [ch])
                             (w_read w ++ hira [ch])
                             (sliceFrom (w_reading w) (slen (hira [ch])))))
          as (k & Hle & Hi & Hb & Hf).
        exists (S k). simpl in *. rewrite Hi, Hb, <- app_assoc. simpl.
        repeat split; auto; lia.
      * exists O. simpl. rewrite app_nil_r. repeat split; auto; lia.
    + exists O. simpl. rewrite app_nil_r. repeat split; auto; lia.
Qed.

(** The second walk moves a run of kana from the front of [back], that is
    from the end of the surface. *)
Lemma suffixWalk_spec (back : jsstring) (w : Walk) :
  exists k : nat,
    (k <= length back)%nat /\
    w_index (suffixWalk hira back w) = w_index w - Z.of_nat k /\
    w_base (suffixWalk hira back w) = rev (firstn k back) ++ w_base w /\
    Forall (fun c => isKana c = true) (firstn k back).
Proof.
  revert w. induction back as [| ch back IH]; intros w; simpl.
  - exists O. simpl. repeat split; auto; lia.
  - destruct (isKana ch) eqn:Hk; simpl.
    + destruct (endsWith (w_reading w) (hira [ch])).
      * destruct (IH (mkWalk (w_index w - 1) (ch :: w_base w)
                             (hira [ch] ++ w_read w)
                             (slice (w_reading w) 0
                                (slen (w_reading w) - slen (hira [ch])))))
          as (k & Hle & Hi & Hb & Hf).
        exists (S k). simpl in *. rewrite Hi, Hb, <- app_assoc. simpl.
        repeat split; auto; lia.
      * exists O. simpl. repeat split; auto; lia.
    + exists O. simpl. repeat split; auto; lia.
Qed.

(** The shape of a split: the surface is cut at two positions, the outer
    pieces are runs of kana. *)
Lemma splitOkurigana_shape (surface readingHira : jsstring) :
  let sp := splitOkurigana hira surface readingHira in
  surface = part_base (prefix sp) ++ base sp ++ part_base (suffix sp) /\
  Forall (fun c => isKana c = true) (part_base (prefix sp)) /\
  Forall (fun c => isKana c = true) (part_base (suffix sp)).
Proof.
  unfold splitOkurigana. simpl.
  destruct (prefixWalk_spec surface (mkWalk 0 [] [] readingHira))
    as (k & Hk & Hi & Hb & Hf).
  set (p := prefixWalk hira surface (mkWalk 0 [] [] readingHira)) in *.
  simpl in Hi, Hb. rewrite Hi. simpl. rewrite Nat2Z.id.
  set (t := skipn k surface).
  destruct (suffixWalk_spec (rev t) (mkWalk (slen surface - 1) [] [] (w_reading p)))
    as (k' & Hk' & Hj & Hb' & Hf').
  set (s := suffixWalk hira (rev t) (mkWalk (slen surface - 1) [] [] (w_reading p))) in *.
  simpl in Hj, Hb'. rewrite app_nil_r in Hb'.
  rewrite length_rev in Hk'.
  assert (Ht : length t = (length surface - k)%nat) by (unfold t; apply length_skipn).
  rewrite Hj, Hb, Hb'.
  replace (slen surface - 1 - Z.of_nat k' + 1)
    with (Z.of_nat (length surface - k')) by (unfold slen; lia).
  rewrite slice_middle by lia.
  fold t.
  rewrite firstn_rev, rev_involutive.
  replace (length surface - k' - k)%nat with (length t - k')%nat by lia.
  rewrite firstn_skipn. unfold t. rewrite firstn_skipn.
  repeat split; auto.
  fold t. rewrite <- (rev_involutive (skipn (length t - k') t)), <- firstn_rev.
  apply Forall_rev. exact Hf'.
Qed.

(** C5. For every surface string and every normalized reading,
    [prefix.base + base + suffix.base] is the surface string. *)
Theorem splitOkurigana_concat (surface readingHira : jsstring) :
  let sp := splitOkurigana hira surface readingHira in
  part_base (prefix sp) ++ base sp ++ part_base (suffix sp) = surface.
Proof.
  intros sp. symmetry.
  exact (proj1 (splitOkurigana_shape surface readingHira)).
Qed.

Lemma hasKanji_app (a b : jsstring) :
  hasKanji (a ++ b) = hasKanji a || hasKanji b.
Proof. unfold hasKanji. apply existsb_app. Qed.

Lemma splitOkurigana_base_has_kanji (surface readingHira : jsstring) :
  hasKanji surface = true ->
  hasKanji (base (splitOkurigana hira surface readingHira)) = true.
Proof.
  intros H.
  destruct (splitOkurigana_shape surface readingHira) as (Hs & Hp & Hq).
  rewrite Hs in H. rewrite !hasKanji_app in H.
  rewrite (kana_run_no_kanji _ Hp), (kana_run_no_kanji _ Hq) in H.
  rewrite orb_false_r in H. exact H.
Qed.

Lemma hasKanji_truthy (s : jsstring) : hasKanji s = true -> truthy s = true.
Proof. destruct s; [discriminate | reflexivity]. Qed.

(** Every token keeps the two output arrays equally long. *)
Lemma pushToken_paired (o : Out) (t : KuromojiToken) :
  length (outKanji o) = length (outFuri o) ->
  length (outKanji (pushToken hira o t)) = length (outFuri (pushToken hira o t)).
Proof.
  intros H. unfold pushToken.
  repeat match goal with
         | |- context [if ?b then _ else _] => destruct b
         end;
    simpl; rewrite ?length_app; simpl; lia.
Qed.

Lemma pushToken_grows (o : Out) (t : KuromojiToken) :
  (length (outKanji o) <= length (outKanji (pushToken hira o t)))%nat.
Proof.
  unfold pushToken.
  repeat match goal with
         | |- context [if ?b then _ else _] => destruct b
         end;
    simpl; rewrite ?length_app; simpl; lia.
Qed.

Lemma fold_pushToken_paired (ts : list KuromojiToken) (o : Out) :
  length (outKanji o) = length (outFuri o) ->
  length (outKanji (fold_left (pushToken hira) ts o))
  = length (outFuri (fold_left (pushToken hira) ts o)).
Proof.
  revert o. induction ts as [| t ts IH]; intros o H; simpl; [exact H |].
  apply IH, pushToken_paired, H.
Qed.

(** The segment builder returns exactly one segment, with paired arrays. *)
Lemma getFuriganaSegmentsSync_single (jp : jsstring) :
  exists seg,
    getFuriganaSegmentsSync hira getTokenizer jp = [seg] /\
    length (kanji seg) = length (furi seg) /\
    (truthy jp = true -> (1 <= length (kanji seg))%nat) /\
    (truthy jp = false -> seg = mkSegment [] []).
Proof.
  unfold getFuriganaSegmentsSync.
  destruct (truthy jp) eqn:Hjp; simpl.
  - set (o := fold_left (pushToken hira) (tokensOf getTokenizer jp) (mkOut [] [])).
    assert (Hp : length (outKanji o) = length (outFuri o))
      by (apply fold_pushToken_paired; reflexivity).
    destruct (Z.eqb_spec (Z.of_nat (length (outKanji o))) 0) as [E | E].
    + eexists. split; [reflexivity |]. simpl.
      repeat split; auto; discriminate.
    + eexists. split; [reflexivity |]. simpl.
      repeat split; auto; try discriminate. intros _. lia.
  - eexists. split; [reflexivity |]. simpl. repeat split; auto. discriminate.
Qed.

(** C4. For a non-empty input the segment builder returns a segment whose
    two arrays are equally long and hold at least one chunk; every token
    step keeps the arrays paired. *)
Theorem getFuriganaSegmentsSync_aligned (jp : jsstring) :
  truthy jp = true ->
  (exists seg,
     In seg (getFuriganaSegmentsSync hira getTokenizer jp) /\
     length (kanji seg) = length (furi seg) /\
     (1 <= length (kanji seg))%nat) /\
  (forall o t,
     length (outKanji o) = length (outFuri o) ->
     length (outKanji (pushToken hira o t))
     = length (outFuri (pushToken hira o t))).
Proof.
  intros Hjp. split.
  - destruct (getFuriganaSegmentsSync_single jp) as (seg & E & Hl & Hn & _).
    exists seg. rewrite E. repeat split; simpl; auto.
  - exact pushToken_paired.
Qed.

(** C9. Every input yields a list of exactly one segment; for the empty
    string it is the segment with two empty arrays. *)
Theorem getFuriganaSegmentsSync_exactly_one (jp : jsstring) :
  length (getFuriganaSegmentsSync hira getTokenizer jp) = 1%nat /\
  getFuriganaSegmentsSync hira getTokenizer [] = [mkSegment [] []].
Proof.
  split; [| reflexivity].
  destruct (getFuriganaSegmentsSync_single jp) as (seg & E & _).
  rewrite E. reflexivity.
Qed.

(** C10. A surface with a kanji unit splits with a non-empty base (the
    walks move kana only), so the token step of the segment builder pushes
    the core chunk together with its reading. *)
Theorem splitOkurigana_core_kept (surface readingHira : jsstring) :
  hasKanji surface = true ->
  truthy (base (splitOkurigana hira surface readingHira)) = true /\
  (forall o t,
     surface_form t = surface ->
     length (outKanji o) = length (outFuri o) ->
     let rd := hira (rawReading t surface) in
     let sp := splitOkurigana hira surface rd in
     In (base sp, orElse (baseReading sp) rd)
        (combine (outKanji (pushToken hira o t)) (outFuri (pushToken hira o t)))).
Proof.
  intros Hk. split.
  - apply hasKanji_truthy, splitOkurigana_base_has_kanji, Hk.
  - intros o t Ht Hlen rd sp.
    assert (Hb : truthy (base sp) = true)
      by (apply hasKanji_truthy, splitOkurigana_base_has_kanji, Hk).
    unfold pushToken. rewrite Ht.
    rewrite (hasKanji_truthy _ Hk), Hk. cbn [negb].
    fold rd. fold sp. rewrite Hb.
    assert (Hin : forall ks fs (x y : jsstring), length ks = length fs ->
               In (x, y) (combine (ks ++ [x]) (fs ++ [y]))).
    { intros ks fs x y Hl. rewrite combine_snoc by exact Hl.
      apply in_or_app. right. simpl. auto. }
    assert (Hmore : forall ks fs (x y x' y' : jsstring), length ks = length fs ->
               In (x, y) (combine ks fs) ->
               In (x, y) (combine (ks ++ [x']) (fs ++ [y']))).
    { intros ks fs x y x' y' Hl Hi. rewrite combine_snoc by exact Hl.
      apply in_or_app. left. exact Hi. }
    destruct (truthy (part_base (prefix sp)));
      destruct (truthy (part_base (suffix sp))); simpl;
      repeat first
        [ apply Hin; rewrite ?length_app; simpl; lia
        | apply Hmore; [rewrite ?length_app; simpl; lia |] ].
Qed.

End SegmentationFacts.

(* ------------------------------------------------------------------ *)
(** * One line of the Live Preview pass *)
(* ------------------------------------------------------------------ *)

Lemma whole_length r s p m :
  WellPlaced r s p m ->
  slen (whole m) = Z.of_nat (m_end m) - Z.of_nat (m_index m).
Proof.
  intros (Hin & Hp & Hie & Hel & _).
  unfold whole, substring, slen. rewrite Hin.
  rewrite length_firstn, length_skipn. lia.
Qed.

Lemma WellPlaced_weaken r s p q m :
  (q <= p)%nat -> WellPlaced r s p m -> WellPlaced r s q m.
Proof. unfold WellPlaced. intuition lia. Qed.

Lemma Chained_placed r s : forall ms p,
  Chained r s p ms -> Forall (WellPlaced r s p) ms.
Proof.
  induction ms as [| m ms IH]; intros p H; simpl in H; constructor.
  - tauto.
  - destruct H as [Hm Hc]. apply IH in Hc.
    eapply Forall_impl; [| exact Hc].
    intros m'. apply WellPlaced_weaken. unfold WellPlaced in Hm. lia.
Qed.

Lemma placed_within r s p m (l : Line) :
  text l = s -> WellPlaced r s p m -> Within l (matchRange l m).
Proof.
  intros Ht Hm. unfold Within, matchRange; simpl.
  rewrite (whole_length _ _ _ _ Hm).
  destruct Hm as (_ & _ & Hie & Hel & _).
  unfold index, slen. rewrite Ht. lia.
Qed.

Lemma placed_nonempty r s p m (l : Line) :
  consumes r = true -> WellPlaced r s p m -> NonEmpty (matchRange l m).
Proof.
  intros Hc Hm. unfold NonEmpty, matchRange; simpl.
  rewrite (whole_length _ _ _ _ Hm).
  destruct Hm as (_ & _ & _ & _ & Hlt). specialize (Hlt Hc). lia.
Qed.

(** The matches of one [matchAll] map to a chain of ranges. *)
Lemma Chained_ranges r s (l : Line) : forall ms p,
  Chained r s p ms -> StronglySorted Before (map (matchRange l) ms).
Proof.
  induction ms as [| m ms IH]; intros p H; simpl in *; constructor.
  - destruct H as [_ Hc]. eapply IH; eauto.
  - destruct H as [Hm Hc]. apply Chained_placed in Hc.
    rewrite Forall_map. eapply Forall_impl; [| exact Hc].
    intros m' Hm'. unfold Before, matchRange; simpl.
    rewrite (whole_length _ _ _ _ Hm).
    destruct Hm as (_ & _ & Hie & _). destruct Hm' as (_ & Hp' & _).
    unfold index. lia.
Qed.

Lemma foldRes_app {A B} (f : A -> B -> Res A) (l1 l2 : list B) (a : A) :
  foldRes f (l1 ++ l2) a = bind (foldRes f l1 a) (foldRes f l2).
Proof.
  revert a. induction l1 as [| b l1 IH]; intros a; simpl; [reflexivity |].
  destruct (f a b); simpl; auto.
Qed.

(** The manual loop: [manualRanges] collects every match, [toAdd] those
    outside the selection. *)
Lemma manual_fold_spec (selections : list Range) (l : Line) :
  forall ms mr0 ta0 mr ta,
    foldRes (manualStep selections l) ms (mr0, ta0) = Ok (mr, ta) ->
    mr = mr0 ++ rangesOf l ms /\
    exists added,
      ta = ta0 ++ added /\
      map span added = filter (keepManual selections) (map (matchRange l) ms) /\
      Forall (fun e => origin e = Manual) added.
Proof.
  induction ms as [| m ms IH]; intros mr0 ta0 mr ta H; simpl in H.
  - inversion H; subst. split; [unfold rangesOf; simpl; now rewrite app_nil_r |].
    exists []. rewrite app_nil_r. simpl. auto.
  - unfold manualStep at 1 in H.
    fold (matchRange l m) in H.
    change (index m + line_from l) with (from (matchRange l m)) in H.
    change (from (matchRange l m) + slen (whole m)) with (to (matchRange l m)) in H.
    simpl filter. unfold keepManual at 1.
    destruct (inSelection selections (from (matchRange l m)) (to (matchRange l m)))
      eqn:Hsel; simpl in H.
    + apply IH in H. destruct H as (Hmr & added & Hta & Hsp & Hor).
      split; [rewrite Hmr; unfold rangesOf; simpl; now rewrite <- app_assoc |].
      exists added. auto.
    + destruct (group m 1) as [m1 |]; simpl in H; [| discriminate].
      apply IH in H. destruct H as (Hmr & added & Hta & Hsp & Hor).
      split; [rewrite Hmr; unfold rangesOf; simpl; now rewrite <- app_assoc |].
      eexists (_ :: added). split; [rewrite Hta, <- app_assoc; reflexivity |].
      simpl. split.
      * f_equal. exact Hsp.
      * constructor; auto.
Qed.

Section LineFacts.

Variable hira : jsstring -> jsstring.
Variable getTokenizer : option (jsstring -> list KuromojiToken).

(** One automatic match: skipped when a test fails, pushed with the
    segment builder's arrays otherwise. *)
Lemma autoStep_spec (selections : list Range) (l : Line)
    (mr : list (Z * Z)) (ta : list Entry) (a : Match) r p :
  WellPlaced r (text l) p a -> consumes r = true ->
  if keepAuto selections mr l (matchRange l a)
  then exists seg,
         In seg (getFuriganaSegmentsSync hira getTokenizer (whole a)) /\
         autoStep hira getTokenizer selections l mr ta a
         = ta ++ [mkEntry (matchRange l a)
                          (mkWidget (kanji seg) (furi seg)) Automatic]
  else autoStep hira getTokenizer selections l mr ta a = ta.
Proof.
  intros Hp Hc. unfold autoStep, keepAuto.
  replace (mkRange (index a + line_from l) (index a + slen (whole a) + line_from l))
    with (matchRange l a) by (unfold matchRange; f_equal; lia).
  change (index a + line_from l) with (from (matchRange l a)).
  replace (index a + slen (whole a) + line_from l) with (to (matchRange l a))
    by (unfold matchRange; simpl; lia).
  destruct (inSelection selections _ _); simpl; [reflexivity |].
  destruct (coveredBy mr _ _); simpl; [reflexivity |].
  destruct (inBackticks (text l) (line_from l) _ _); simpl; [reflexivity |].
  assert (Ht : truthy (whole a) = true).
  { pose proof (whole_length _ _ _ _ Hp) as Hl.
    destruct Hp as (_ & _ & _ & _ & Hlt). specialize (Hlt Hc).
    destruct (whole a); [unfold slen in Hl; simpl in Hl; lia | reflexivity]. }
  destruct (getFuriganaSegmentsSync_single hira getTokenizer (whole a))
    as (seg & E & _ & Hn & _).
  specialize (Hn Ht). rewrite E.
  destruct (Z.eqb_spec (Z.of_nat (length (kanji seg))) 0); [lia |].
  exists seg. split; [left; reflexivity | reflexivity].
Qed.

(** The automatic loop: [toAdd] grows by the matches that pass the three
    tests, in order. *)
Lemma auto_fold_spec (selections : list Range) (l : Line) (mr : list (Z * Z))
    r p :
  consumes r = true ->
  forall ms ta0,
    Forall (WellPlaced r (text l) p) ms ->
    exists added,
      fold_left (autoStep hira getTokenizer selections l mr) ms ta0
      = ta0 ++ added /\
      map span added
      = filter (keepAuto selections mr l) (map (matchRange l) ms) /\
      Forall (fun e => origin e = Automatic /\
                exists a seg, In a ms /\ span e = matchRange l a /\
                  In seg (getFuriganaSegmentsSync hira getTokenizer (whole a)) /\
                  dec e = mkWidget (kanji seg) (furi seg)) added.
Proof.
  intros Hc. induction ms as [| a ms IH]; intros ta0 Hall; simpl.
  - exists []. rewrite app_nil_r. simpl. auto.
  - inversion Hall as [| ? ? Ha Hms]; subst.
    pose proof (autoStep_spec selections l mr ta0 a r p Ha Hc) as Hstep.
    destruct (keepAuto selections mr l (matchRange l a)).
    + destruct Hstep as (seg & Hseg & ->).
      destruct (IH (ta0 ++ [mkEntry (matchRange l a)
                              (mkWidget (kanji seg) (furi seg)) Automatic]) Hms)
        as (added & Hf & Hsp & Hor).
      eexists (_ :: added). split; [rewrite Hf, <- app_assoc; reflexivity |].
      simpl. split; [f_equal; exact Hsp |].
      constructor.
      * simpl. split; [reflexivity |]. exists a, seg. auto.
      * eapply Forall_impl; [| exact Hor].
        intros e (Ho & a' & seg' & Hin & Hrest). split; [exact Ho |].
        exists a', seg'. split; [right; exact Hin | exact Hrest].
    + rewrite Hstep. destruct (IH ta0 Hms) as (added & Hf & Hsp & Hor).
      exists added. split; [exact Hf |]. split; [exact Hsp |].
      eapply Forall_impl; [| exact Hor].
      intros e (Ho & a' & seg' & Hin & Hrest). split; [exact Ho |].
      exists a', seg'. split; [right; exact Hin | exact Hrest].
Qed.

Lemma manual_consumes style : consumes (source (getManualRegex style)) = true.
Proof. destruct style; reflexivity. Qed.

(** What one line contributes: the kept manual matches [M] and the kept
    automatic matches [A], sorted. *)
Lemma lineDecorations_spec (style : NotationStyle) (st : Store)
    (selections : list Range) (l : Line) (out : list Entry) :
  lineDecorations hira getTokenizer style st selections l = Ok out ->
  exists ms auts M A,
    matchAll (text l) (getManualRegex style) = Ok ms /\
    matchAll (text l) (getAutoRegex st) = Ok auts /\
    out = sortEntries (M ++ A) /\
    map span M = filter (keepManual selections) (map (matchRange l) ms) /\
    Forall (fun e => origin e = Manual) M /\
    map span A
    = filter (keepAuto selections (rangesOf l ms) l) (map (matchRange l) auts) /\
    Forall (fun e => origin e = Automatic /\
              exists a seg, In a auts /\ span e = matchRange l a /\
                In seg (getFuriganaSegmentsSync hira getTokenizer (whole a)) /\
                dec e = mkWidget (kanji seg) (furi seg)) A.
Proof.
  unfold lineDecorations. intros H.
  destruct (matchAll (text l) (getManualRegex style)) as [ms | e] eqn:Em;
    cbn [bind] in H; [| discriminate].
  destruct (foldRes (manualStep selections l) ms ([], [])) as [[mr ta] | e] eqn:Ef;
    cbn [bind] in H; [| discriminate].
  destruct (matchAll (text l) (getAutoRegex st)) as [auts | e] eqn:Ea;
    cbn [bind] in H; [| discriminate].
  injection H as <-.
  apply manual_fold_spec in Ef. destruct Ef as (Hmr & M & Hta & HspM & HorM).
  simpl in Hmr, Hta. subst mr ta.
  pose proof (matchAll_chained _ _ _ Ea) as Hch. apply Chained_placed in Hch.
  destruct (auto_fold_spec selections l (rangesOf l ms)
              (source (getAutoRegex st)) _ eq_refl auts M Hch)
    as (A & Hf & HspA & HorA).
  exists ms, auts, M, A. rewrite Hf. repeat split; auto.
Qed.

Lemma rangesOverlap_false aFrom aTo bFrom bTo :
  rangesOverlap aFrom aTo bFrom bTo = false <-> aTo <= bFrom \/ bTo <= aFrom.
Proof.
  unfold rangesOverlap. rewrite andb_false_iff, !Z.ltb_ge. tauto.
Qed.

Lemma coveredBy_false (ranges : list (Z * Z)) (f t : Z) :
  coveredBy ranges f t = false ->
  forall r, In r ranges -> rangesOverlap (fst r) (snd r) f t = false.
Proof.
  unfold coveredBy. intros H r Hr.
  destruct (rangesOverlap (fst r) (snd r) f t) eqn:E; [| reflexivity].
  assert (existsb (fun r => rangesOverlap (fst r) (snd r) f t) ranges = true)
    by (apply existsb_exists; eauto).
  congruence.
Qed.

Lemma in_sortEntries (e : Entry) (l : list Entry) :
  In e (sortEntries l) <-> In e l.
Proof.
  split; apply Permutation_in;
    [apply sortEntries_perm | symmetry; apply sortEntries_perm].
Qed.

(** The entries of one line form a chain inside the line. *)
Lemma lineDecorations_chain (style : NotationStyle) (st : Store)
    (selections : list Range) (l : Line) (out : list Entry) :
  lineDecorations hira getTokenizer style st selections l = Ok out ->
  StronglySorted (fun a b => Before (span a) (span b)) out /\
  StronglySorted entryLe out /\
  Forall (fun e => Within l (span e) /\ NonEmpty (span e)) out.
Proof.
  intros H. apply lineDecorations_spec in H.
  destruct H as (ms & auts & M & A & Em & Ea & -> & HspM & HorM & HspA & HorA).
  pose proof (matchAll_chained _ _ _ Em) as Hcm.
  pose proof (matchAll_chained _ _ _ Ea) as Hca.
  pose proof (Chained_placed _ _ _ _ Hcm) as Hpm.
  pose proof (Chained_placed _ _ _ _ Hca) as Hpa.
  rewrite Forall_forall in Hpm, Hpa.
  assert (HinM : forall e, In e M ->
            exists m, In m ms /\ span e = matchRange l m).
  { intros e He. apply (in_map span) in He. rewrite HspM in He.
    apply filter_In in He. destruct He as [He _].
    apply in_map_iff in He. destruct He as (m & Hm & Hin). eauto. }
  assert (HinA : forall e, In e A ->
            keepAuto selections (rangesOf l ms) l (span e) = true /\
            exists a, In a auts /\ span e = matchRange l a).
  { intros e He. apply (in_map span) in He. rewrite HspA in He.
    apply filter_In in He. destruct He as [He Hk]. split; [exact Hk |].
    apply in_map_iff in He. destruct He as (a & Ha & Hin). eauto. }
  assert (Hall : Forall (fun e => Within l (span e) /\ NonEmpty (span e)) (M ++ A)).
  { apply Forall_forall. intros e He. apply in_app_or in He.
    destruct He as [He | He].
    - destruct (HinM e He) as (m & Hm & ->). split.
      + eapply placed_within; [reflexivity | apply Hpm, Hm].
      + eapply placed_nonempty; [apply manual_consumes | apply Hpm, Hm].
    - destruct (HinA e He) as (_ & a & Ha & ->). split.
      + eapply placed_within; [reflexivity | apply Hpa, Ha].
      + eapply placed_nonempty; [| apply Hpa, Ha]. reflexivity. }
  assert (Hdis : StronglySorted (fun a b => Disjoint (span a) (span b)) (M ++ A)).
  { apply StronglySorted_app.
    - apply StronglySorted_map with (R := Disjoint) (g := span).
      rewrite HspM. apply StronglySorted_filter.
      eapply StronglySorted_impl; [| eapply Chained_ranges; exact Hcm].
      intros a b _ _ Hab. left. exact Hab.
    - apply StronglySorted_map with (R := Disjoint) (g := span).
      rewrite HspA. apply StronglySorted_filter.
      eapply StronglySorted_impl; [| eapply Chained_ranges; exact Hca].
      intros a b _ _ Hab. left. exact Hab.
    - intros m a Hm Ha.
      destruct (HinM m Hm) as (mm & Hmm & Hsm).
      destruct (HinA a Ha) as (Hk & _).
      unfold keepAuto in Hk. apply andb_true_iff in Hk. destruct Hk as [Hk _].
      apply andb_true_iff in Hk. destruct Hk as [_ Hk].
      apply negb_true_iff in Hk.
      pose proof (coveredBy_false _ _ _ Hk
                    (from (matchRange l mm), to (matchRange l mm))) as Hno.
      rewrite <- Hsm in Hno. simpl in Hno.
      assert (Hr : In (from (span m), to (span m)) (rangesOf l ms)).
      { unfold rangesOf. rewrite Hsm.
        apply (in_map (fun m => (from (matchRange l m), to (matchRange l m)))).
        exact Hmm. }
      specialize (Hno Hr). apply rangesOverlap_false in Hno.
      unfold Disjoint, Before. tauto. }
  assert (Hperm : Permutation (sortEntries (M ++ A)) (M ++ A))
    by apply sortEntries_perm.
  assert (Hall' : Forall (fun e => Within l (span e) /\ NonEmpty (span e))
                         (sortEntries (M ++ A))).
  { eapply Permutation_Forall; [symmetry; exact Hperm | exact Hall]. }
  split; [| split; [apply sortEntries_sorted | exact Hall']].
  apply sorted_disjoint_chain.
  - apply sortEntries_sorted.
  - eapply StronglySorted_perm; [| symmetry; exact Hperm | exact Hdis].
    intros a b. unfold Disjoint. tauto.
  - eapply Forall_impl; [| exact Hall']. intros e He. apply He.
Qed.


End LineFacts.

(* ------------------------------------------------------------------ *)
(** * The whole Live Preview pass *)
(* ------------------------------------------------------------------ *)

Lemma lineFrom_spec : forall ls n0 start n l,
  lineFrom ls n0 start n = Ok l ->
  number l = n /\ n0 <= n /\ start <= line_from l /\
  line_to l = line_from l + slen (text l).
Proof.
  induction ls as [| t ls IH]; intros n0 start n l H; simpl in H;
    [discriminate |].
  destruct (Z.eqb_spec n0 n).
  - injection H as <-. simpl. lia.
  - apply IH in H. unfold slen in *. lia.
Qed.


Lemma lineAtFrom_number : forall ls n0 start pos l,
  lineAtFrom ls n0 start pos = Ok l -> n0 <= number l.
Proof.
  induction ls as [| t ls IH]; intros n0 start pos l H; simpl in H;
    [discriminate |].
  destruct (pos <=? start + slen t).
  - injection H as <-. simpl. lia.
  - apply IH in H. lia.
Qed.



Section PassFacts.

Variable hira : jsstring -> jsstring.
Variable getTokenizer : option (jsstring -> list KuromojiToken).
Variable style : NotationStyle.
Variable st : Store.
Variable v : EditorView.








End PassFacts.




(** ** The pass raises nothing on a well-formed view *)



Section PassTotal.

Variable hira : jsstring -> jsstring.
Variable getTokenizer : option (jsstring -> list KuromojiToken).
Variable style : NotationStyle.
Variable st : Store.
Variable v : EditorView.
Hypothesis style_on : style <> none.




End PassTotal.

(** With the notation switched off the manual pattern is the literal
    [/a^/], which has no [g] flag, and [matchAll] raises on the first line
    outside a fence. *)
Lemma none_style_raises :
  buildDecorations Sample.keep None none initialStore
    (Sample.oneLine Sample.two_spans [])
  = Err TypeError.
Proof. vm_compute. reflexivity. Qed.

(** A line that two visible ranges share is visited once for each of
    them: the condition [VisitsLinesOnce] excludes this. *)
Lemma shared_line_visited_twice :
  map span
    (match buildDecorations Sample.keep None curly initialStore
             (mkView [Sample.two_spans] [] [mkRange 0 1; mkRange 4 5]) with
     | Ok out => out
     | Err _ => []
     end)
  = [mkRange 0 2; mkRange 3 5; mkRange 0 2; mkRange 3 5].
Proof. vm_compute. reflexivity. Qed.

(* ------------------------------------------------------------------ *)
(** * Exclusions and precedence in the Live Preview pass *)
(* ------------------------------------------------------------------ *)

Section PassExclusions.

Variable hira : jsstring -> jsstring.
Variable getTokenizer : option (jsstring -> list KuromojiToken).
Variable style : NotationStyle.
Variable st : Store.
Variable v : EditorView.





(** C2 (amended). On a decorated line an automatic match is emitted
    exactly when it overlaps no selection range, no inline backtick span
    and no manual match of the line, emitted or not. *)
Theorem automatic_emitted_iff (l : Line) (out : list Entry)
    (ms auts : list Match) (a : Match) :
  lineDecorations hira getTokenizer style st (selection v) l = Ok out ->
  matchAll (text l) (getManualRegex style) = Ok ms ->
  matchAll (text l) (getAutoRegex st) = Ok auts ->
  In a auts ->
  let r := matchRange l a in
  (exists e, In e out /\ origin e = Automatic /\ span e = r) <->
  (inSelection (selection v) (from r) (to r) = false /\
   inBackticks (text l) (line_from l) (from r) (to r) = false /\
   forall m, In m ms ->
     rangesOverlap (from (matchRange l m)) (to (matchRange l m)) (from r) (to r)
     = false).
Proof.
  intros H Em Ea Ha r. apply lineDecorations_spec in H.
  destruct H as (ms' & auts' & M & A & Em' & Ea' & -> & HspM & HorM & HspA & HorA).
  rewrite Em in Em'. rewrite Ea in Ea'.
  injection Em' as <-. injection Ea' as <-.
  assert (Hcov : coveredBy (rangesOf l ms) (from r) (to r) = false <->
                 forall m, In m ms ->
                   rangesOverlap (from (matchRange l m)) (to (matchRange l m))
                                 (from r) (to r) = false).
  { split.
    - intros Hc m Hm.
      apply (coveredBy_false _ _ _ Hc
               (from (matchRange l m), to (matchRange l m))).
      unfold rangesOf.
      apply (in_map (fun m => (from (matchRange l m), to (matchRange l m)))).
      exact Hm.
    - intros Hall. unfold coveredBy.
      destruct (existsb _ (rangesOf l ms)) eqn:Ex; [| reflexivity].
      apply existsb_exists in Ex. destruct Ex as (p & Hp & Hov).
      unfold rangesOf in Hp. apply in_map_iff in Hp.
      destruct Hp as (m & <- & Hm). cbn [fst snd] in Hov.
      rewrite (Hall m Hm) in Hov. discriminate. }
  assert (Hkeep : keepAuto (selection v) (rangesOf l ms) l r = true <->
                  inSelection (selection v) (from r) (to r) = false /\
                  inBackticks (text l) (line_from l) (from r) (to r) = false /\
                  coveredBy (rangesOf l ms) (from r) (to r) = false).
  { unfold keepAuto. rewrite !andb_true_iff, !negb_true_iff. tauto. }
  split.
  - intros (e & He & Ho & Hs).
    apply (proj1 (in_sortEntries _ _)) in He.
    apply in_app_or in He. destruct He as [He | He].
    + rewrite Forall_forall in HorM. rewrite (HorM e He) in Ho. discriminate.
    + apply (in_map span) in He. rewrite HspA, Hs in He.
      apply filter_In in He. destruct He as [_ Hk].
      apply Hkeep in Hk. rewrite <- Hcov. tauto.
  - intros (Hs & Hb & Hm).
    assert (Hin : In r (map span A)).
    { rewrite HspA. apply filter_In. split.
      - apply in_map. exact Ha.
      - apply Hkeep. rewrite Hcov. auto. }
    apply in_map_iff in Hin. destruct Hin as (e & Hse & He).
    exists e. split; [apply in_sortEntries, in_or_app; right; exact He |].
    split; [| exact Hse].
    rewrite Forall_forall in HorA. apply (HorA e He).
Qed.

End PassExclusions.

(* ------------------------------------------------------------------ *)
(** * The Reading Mode converter terminates *)
(* ------------------------------------------------------------------ *)

(** A successful [exec] of a global pattern that consumes input moves
    [lastIndex] forward, inside the input. *)
Lemma exec_some (src : regex) (li : Z) (s : jsstring) (m : Match) (re' : RegExp) :
  consumes src = true ->
  exec (mkRegExp src true li) s = (Some m, re') ->
  re' = mkRegExp src true (Z.of_nat (m_end m)) /\
  (Z.to_nat li < m_end m <= length s)%nat /\
  WellPlaced src s (Z.to_nat li) m.
Proof.
  intros Hc H. unfold exec in H. simpl in H.
  destruct (search src s (Z.to_nat li)) as [m' |] eqn:E; [| discriminate].
  injection H as <- <-.
  pose proof (search_placed _ _ _ _ E) as Hp.
  split; [reflexivity |]. split; [| exact Hp].
  destruct Hp as (_ & H1 & _ & H3 & H4). specialize (H4 Hc). lia.
Qed.

Lemma exec_none (src : regex) (li : Z) (s : jsstring) (re' : RegExp) :
  exec (mkRegExp src true li) s = (None, re') -> re' = mkRegExp src true 0.
Proof.
  unfold exec. simpl.
  destruct (search src s (Z.to_nat li)); [discriminate |].
  intros H. injection H as <-. reflexivity.
Qed.

Section Termination.

Variable hira : jsstring -> jsstring.
Variable getTokenizer : option (jsstring -> list KuromojiToken).

(** The automatic loop ends within the fuel [pushAuto] gives it and leaves
    the [auto] object with [lastIndex] back at 0. *)
Lemma autoLoop_ok (src : regex) (slice_ : jsstring) :
  consumes src = true ->
  forall fuel li last frag,
    (length slice_ - Z.to_nat li < fuel)%nat ->
    exists last' frag',
      autoLoop hira getTokenizer fuel slice_ (mkRegExp src true li) last frag
      = Ok (mkRegExp src true 0, last', frag').
Proof.
  intros Hc. induction fuel as [| fuel IH]; intros li last frag Hf; [lia |].
  simpl.
  destruct (exec (mkRegExp src true li) slice_) as [[a |] re'] eqn:E.
  - apply exec_some in E; [| exact Hc]. destruct E as (-> & Hb & Hp).
    destruct (hasKanji (whole a)).
    + destruct (getFuriganaSegmentsSync_single hira getTokenizer (whole a))
        as (seg & Es & _).
      rewrite Es. cbn [bind].
      apply IH. rewrite Nat2Z.id. lia.
    + cbn [bind]. apply IH. rewrite Nat2Z.id. lia.
  - apply exec_none in E. subst re'. eauto.
Qed.

Lemma pushAuto_ok (src : regex) (slice_ : jsstring) (frag : list Node) :
  consumes src = true ->
  exists frag',
    pushAuto hira getTokenizer slice_ (mkRegExp src true 0) frag
    = Ok (mkRegExp src true 0, frag').
Proof.
  intros Hc. unfold pushAuto.
  destruct (truthy slice_); simpl negb; cbv iota; [| eauto].
  destruct (autoLoop_ok src slice_ Hc (S (length slice_)) 0 0 frag)
    as (last' & frag' & E); [simpl; lia |].
  rewrite E. cbn [bind]. eauto.
Qed.




End Termination.

(* ------------------------------------------------------------------ *)
(** * The manual override parser *)
(* ------------------------------------------------------------------ *)

(** The alignment of [convertFurigana] when the counts differ: one chunk
    per unit of the base, reading [i] for unit [i] while readings last,
    the last reading for every unit after that. *)
Lemma manualArrays_pads (b : jsstring) (parts : list jsstring) :
  (1 < length parts)%nat -> length parts <> length b ->
  fst (manualArrays b parts) = splitChars b /\
  length (snd (manualArrays b parts)) = length b /\
  forall i, (i < length b)%nat ->
    nth_error (snd (manualArrays b parts)) i
    = Some (if (i <? length parts)%nat then nth i parts []
            else nth (length parts - 1) parts []).
Proof.
  intros Hk Hne. unfold manualArrays.
  destruct (Nat.leb_spec (length parts) 1); [lia |].
  assert (Hlen : length (splitChars b) = length b)
    by (unfold splitChars; apply length_map).
  rewrite Hlen.
  destruct (Nat.eqb_spec (length parts) (length b)); [contradiction |].
  cbn [fst snd]. rewrite length_map, length_seq.
  repeat split.
  intros i Hi.
  rewrite nth_error_map, nth_error_seq.
  destruct (Nat.ltb_spec i (length b)); [| lia]. cbn [option_map Nat.add].
  f_equal. unfold nthOr.
  destruct (Nat.ltb_spec i (length parts)) as [Hlt | Hge].
  - destruct (nth_error parts i) as [x |] eqn:E.
    + symmetry. apply nth_error_nth with (d := []) in E. exact E.
    + apply nth_error_None in E. lia.
  - destruct (nth_error parts i) as [x |] eqn:E.
    + assert (i < length parts)%nat by (apply nth_error_Some; congruence). lia.
    + destruct (nth_error parts (length parts - 1)) as [y |] eqn:E'.
      * symmetry. apply nth_error_nth with (d := []) in E'. exact E'.
      * apply nth_error_None in E'. lia.
Qed.

Import Sample.

Section Examples.

Variable hira : jsstring -> jsstring.
Variable getTokenizer : option (jsstring -> list KuromojiToken).

(** C7. In curly style [{漢字|かん|じ}] parses to the chunks [漢], [字] with
    the readings [かん], [じ], and [{今日|きょう}] to the one chunk [今日]
    with the reading [きょう], in Reading Mode and in Live Preview alike. *)
Theorem curly_override_examples :
  convertFurigana hira getTokenizer kanji_kan_ji
    (getManualRegex curly) (getAutoRegex initialStore)
  = Ok (Fragment [RubyNode [[0x6F22]; [0x5B57]] [[0x304B; 0x3093]; [0x3058]]]) /\
  convertFurigana hira getTokenizer kyou
    (getManualRegex curly) (getAutoRegex initialStore)
  = Ok (Fragment [RubyNode [[0x4ECA; 0x65E5]] [[0x304D; 0x3087; 0x3046]]]) /\
  buildDecorations hira getTokenizer curly initialStore (oneLine kanji_kan_ji [])
  = Ok [mkEntry (mkRange 0 9)
          (mkWidget [[0x6F22]; [0x5B57]] [[0x304B; 0x3093]; [0x3058]]) Manual] /\
  buildDecorations hira getTokenizer curly initialStore (oneLine kyou [])
  = Ok [mkEntry (mkRange 0 8)
          (mkWidget [[0x4ECA; 0x65E5]] [[0x304D; 0x3087; 0x3046]]) Manual].
Proof. repeat split; vm_compute; reflexivity. Qed.

(** C6, at the failing input. For [{漢字体|かん|じ}] the Live Preview pass
    hands the widget three chunks and the two readings as they are, while
    [convertFurigana] pads them to [かん], [じ], [じ]. *)
Theorem live_preview_leaves_readings_unpadded :
  buildDecorations hira getTokenizer curly initialStore (oneLine three_two [])
  = Ok [mkEntry (mkRange 0 10)
          (mkWidget [[0x6F22]; [0x5B57]; [0x4F53]]
                    [[0x304B; 0x3093]; [0x3058]]) Manual] /\
  convertFurigana hira getTokenizer three_two
    (getManualRegex curly) (getAutoRegex initialStore)
  = Ok (Fragment [RubyNode [[0x6F22]; [0x5B57]; [0x4F53]]
                           [[0x304B; 0x3093]; [0x3058]; [0x3058]]]).
Proof. split; vm_compute; reflexivity. Qed.

End Examples.


(** C2, counterexample. With the cursor inside [{漢字|かん|じ}] the manual
    match is not emitted; the automatic match [漢字] at [1, 3) overlaps no
    selection range, no backtick span and no other manual match, and is
    not emitted either. *)
Lemma automatic_dropped_under_unemitted_manual :
  let l := mkLine 0 9 1 kanji_kan_ji in
  let v := oneLine kanji_kan_ji [mkRange 5 5] in
  let a := mkMatch kanji_kan_ji 1 3 [] in
  let m := mkMatch kanji_kan_ji 0 9 [(2%nat, (3%nat, 8%nat)); (1%nat, (1%nat, 3%nat))] in
  buildDecorations keep None curly initialStore v = Ok [] /\
  matchAll kanji_kan_ji (getManualRegex curly) = Ok [m] /\
  inSelection (selection v) (from (matchRange l m)) (to (matchRange l m)) = true /\
  (exists auts, matchAll kanji_kan_ji (getAutoRegex initialStore) = Ok auts /\
                In a auts) /\
  matchRange l a = mkRange 1 3 /\
  inSelection (selection v) 1 3 = false /\
  inBackticks kanji_kan_ji 0 1 3 = false.
Proof.
  repeat split; try (vm_compute; reflexivity).
  eexists. split; [vm_compute; reflexivity |]. left. reflexivity.
Qed.

(* ------------------------------------------------------------------ *)
(** * Instances *)
(* ------------------------------------------------------------------ *)


Lemma automatic_emitted_iff_witness :
  let l := mkLine 0 5 1 two_spans in
  let a := mkMatch two_spans 0 2 [] in
  let out :=
    [mkEntry (mkRange 0 2) (mkWidget [[0x6F22; 0x5B57]] [[0x6F22; 0x5B57]]) Automatic;
     mkEntry (mkRange 3 5) (mkWidget [[0x304B; 0x306A]] [[0x304B; 0x306A]]) Automatic] in
  (exists e, In e out /\ origin e = Automatic /\ span e = matchRange l a) <->
  (inSelection [] (from (matchRange l a)) (to (matchRange l a)) = false /\
   inBackticks (text l) (line_from l) (from (matchRange l a)) (to (matchRange l a))
   = false /\
   forall m, In m [] ->
     rangesOverlap (from (matchRange l m)) (to (matchRange l m))
                   (from (matchRange l a)) (to (matchRange l a)) = false).
Proof.
  intros l a out.
  refine (automatic_emitted_iff keep None curly initialStore
            (mkView [two_spans] [] []) l out []
            [a; mkMatch two_spans 3 5 []] a _ _ _ _).
  - vm_compute. reflexivity.
  - vm_compute. reflexivity.
  - vm_compute. reflexivity.
  - left. reflexivity.
Defined.


Lemma getFuriganaSegmentsSync_aligned_witness :
  exists seg,
    In seg (getFuriganaSegmentsSync keep None [0x304A; 0x9858; 0x3044]) /\
    length (kanji seg) = length (furi seg) /\
    (1 <= length (kanji seg))%nat.
Proof.
  exact (proj1 (getFuriganaSegmentsSync_aligned keep None
                  [0x304A; 0x9858; 0x3044] eq_refl)).
Defined.

Lemma splitOkurigana_core_kept_witness :
  truthy (base (splitOkurigana keep [0x304A; 0x9858; 0x3044]
                  [0x304A; 0x306D; 0x304C; 0x3044])) = true.
Proof.
  exact (proj1 (splitOkurigana_core_kept keep [0x304A; 0x9858; 0x3044]
                  [0x304A; 0x306D; 0x304C; 0x3044] eq_refl)).
Defined.

(* ------------------------------------------------------------------ *)
(** * More on the okurigana splitter and the segment builder *)
(* ------------------------------------------------------------------ *)

Lemma startsWith_split (s h : jsstring) :
  startsWith s h = true -> s = h ++ sliceFrom s (slen h).
Proof.
  intros H.
  assert (E : exists t, s = h ++ t).
  { revert s H. induction h as [| y h IH]; intros s H; simpl in H.
    - exists s. reflexivity.
    - destruct s as [| x s]; [discriminate |].
      apply andb_true_iff in H. destruct H as [Hx Hs].
      apply Z.eqb_eq in Hx. subst y.
      destruct (IH s Hs) as (t & ->). exists t. reflexivity. }
  destruct E as (t & ->). f_equal.
  unfold sliceFrom, slice, clampIndex, slen.
  destruct (Z.ltb_spec (Z.of_nat (length h)) 0); [lia |].
  destruct (Z.ltb_spec (Z.of_nat (length (h ++ t))) 0); [lia |].
  rewrite length_app.
  rewrite Z.min_l by lia. rewrite Z.min_l by lia. rewrite Z.max_l by lia.
  rewrite Nat2Z.id, skipn_app, skipn_all, Nat.sub_diag. simpl.
  rewrite firstn_all2; [reflexivity | lia].
Qed.

Lemma endsWith_split (s h : jsstring) :
  endsWith s h = true -> s = slice s 0 (slen s - slen h) ++ h.
Proof.
  unfold endsWith. intros H.
  assert (E : exists t, s = t ++ h).
  { apply startsWith_split in H.
    exists (rev (sliceFrom (rev s) (slen (rev h)))).
    rewrite <- (rev_involutive h) at 2. rewrite <- rev_app_distr, <- H.
    symmetry. apply rev_involutive. }
  destruct E as (t & ->). f_equal.
  unfold slice, clampIndex, slen. rewrite length_app.
  destruct (Z.ltb_spec 0 0); [lia |].
  destruct (Z.ltb_spec (Z.of_nat (length t + length h) - Z.of_nat (length h)) 0);
    [lia |].
  rewrite Z.min_l by lia. rewrite Z.min_l by lia. rewrite Z.max_l by lia.
  simpl. replace (Z.to_nat _) with (length t) by lia.
  rewrite firstn_app, firstn_all, Nat.sub_diag. simpl. now rewrite app_nil_r.
Qed.

Section SplitterReadings.

Variable hira : jsstring -> jsstring.

Lemma prefixWalk_reading (rest : jsstring) (w : Walk) :
  w_read (prefixWalk hira rest w) ++ w_reading (prefixWalk hira rest w)
  = w_read w ++ w_reading w.
Proof.
  revert w. induction rest as [| ch rest IH]; intros w; simpl; [reflexivity |].
  destruct (isKana ch); simpl; [| reflexivity].
  destruct (startsWith (w_reading w) (hira [ch])) eqn:E; [| reflexivity].
  rewrite IH. simpl. rewrite <- app_assoc. f_equal.
  symmetry. apply startsWith_split, E.
Qed.

Lemma suffixWalk_reading (back : jsstring) (w : Walk) :
  w_reading (suffixWalk hira back w) ++ w_read (suffixWalk hira back w)
  = w_reading w ++ w_read w.
Proof.
  revert w. induction back as [| ch back IH]; intros w; simpl; [reflexivity |].
  destruct (isKana ch); simpl; [| reflexivity].
  destruct (endsWith (w_reading w) (hira [ch])) eqn:E; [| reflexivity].
  rewrite IH. simpl. rewrite app_assoc. f_equal.
  symmetry. apply endsWith_split, E.
Qed.

Lemma prefixWalk_unitwise (rest : jsstring) (w : Walk) :
  w_read w = unitwise hira (w_base w) ->
  w_read (prefixWalk hira rest w) = unitwise hira (w_base (prefixWalk hira rest w)).
Proof.
  revert w. induction rest as [| ch rest IH]; intros w H; simpl; [exact H |].
  destruct (isKana ch); simpl; [| exact H].
  destruct (startsWith (w_reading w) (hira [ch])); [| exact H].
  apply IH. simpl. unfold unitwise in *.
  rewrite map_app, concat_app, H. simpl. now rewrite app_nil_r.
Qed.

Lemma suffixWalk_unitwise (back : jsstring) (w : Walk) :
  w_read w = unitwise hira (w_base w) ->
  w_read (suffixWalk hira back w) = unitwise hira (w_base (suffixWalk hira back w)).
Proof.
  revert w. induction back as [| ch back IH]; intros w H; simpl; [exact H |].
  destruct (isKana ch); simpl; [| exact H].
  destruct (endsWith (w_reading w) (hira [ch])); [| exact H].
  apply IH. simpl. unfold unitwise in *. simpl. now rewrite H.
Qed.

(** X1. For every surface and reading, the three readings of a split put
    together are the reading that was passed in. *)
Theorem splitOkurigana_reading_concat (surface readingHira : jsstring) :
  let sp := splitOkurigana hira surface readingHira in
  part_reading (prefix sp) ++ baseReading sp ++ part_reading (suffix sp)
  = readingHira.
Proof.
  unfold splitOkurigana. cbn [prefix suffix baseReading part_reading].
  set (p := prefixWalk hira surface (mkWalk 0 [] [] readingHira)).
  rewrite suffixWalk_reading. cbn [w_reading w_read]. rewrite app_nil_r.
  unfold p. rewrite prefixWalk_reading. reflexivity.
Qed.

(** X2. The prefix and the suffix of a split hold kana units only, and the
    reading of each is the kana conversion of its units, one by one. *)
Theorem splitOkurigana_kana_parts (surface readingHira : jsstring) :
  let sp := splitOkurigana hira surface readingHira in
  Forall (fun c => isKana c = true) (part_base (prefix sp)) /\
  Forall (fun c => isKana c = true) (part_base (suffix sp)) /\
  part_reading (prefix sp) = unitwise hira (part_base (prefix sp)) /\
  part_reading (suffix sp) = unitwise hira (part_base (suffix sp)).
Proof.
  intros sp.
  destruct (splitOkurigana_shape hira surface readingHira) as (_ & Hp & Hs).
  repeat split; auto.
  - apply prefixWalk_unitwise. reflexivity.
  - apply suffixWalk_unitwise. reflexivity.
Qed.

End SplitterReadings.

Section BuilderText.

Variable hira : jsstring -> jsstring.
Variable getTokenizer : option (jsstring -> list KuromojiToken).

Lemma truthy_app_concat (ks : list jsstring) (x : jsstring) :
  concat (if truthy x then ks ++ [x] else ks) = concat ks ++ x.
Proof.
  destruct x; simpl.
  - now rewrite app_nil_r.
  - rewrite concat_app. simpl. now rewrite app_nil_r.
Qed.

(** A token adds its surface to the text of the base chunks, in non-empty
    chunks. *)
Lemma pushToken_text (o : Out) (t : KuromojiToken) :
  concat (outKanji (pushToken hira o t)) = concat (outKanji o) ++ surface_form t /\
  (Forall (fun k => truthy k = true) (outKanji o) ->
   Forall (fun k => truthy k = true) (outKanji (pushToken hira o t))).
Proof.
  unfold pushToken.
  destruct (truthy (surface_form t)) eqn:Hs; cbn [negb].
  - destruct (hasKanji (surface_form t)) eqn:Hk; cbn [negb].
    + set (sp := splitOkurigana hira (surface_form t)
                   (hira (rawReading t (surface_form t)))).
      pose proof (splitOkurigana_shape hira (surface_form t)
                    (hira (rawReading t (surface_form t)))) as (Hc & _).
      fold sp in Hc.
      split.
      * transitivity (concat (outKanji o)
                      ++ part_base (prefix sp) ++ base sp ++ part_base (suffix sp));
          [| f_equal; symmetry; exact Hc].
        destruct (part_base (prefix sp)), (base sp), (part_base (suffix sp));
          simpl; rewrite ?concat_app; simpl; rewrite ?app_nil_r, <- ?app_assoc;
          reflexivity.
      * intros Hall.
        destruct (truthy (part_base (prefix sp))) eqn:E1;
          destruct (truthy (base sp)) eqn:E2;
          destruct (truthy (part_base (suffix sp))) eqn:E3;
          simpl; repeat (apply Forall_app; split); auto.
    + simpl. split.
      * rewrite concat_app. simpl. now rewrite app_nil_r.
      * intros Hall. apply Forall_app. auto.
  - destruct (surface_form t); [| discriminate].
    split; [now rewrite app_nil_r | auto].
Qed.

Lemma fold_pushToken_text (ts : list KuromojiToken) (o : Out) :
  concat (outKanji (fold_left (pushToken hira) ts o))
  = concat (outKanji o) ++ concat (map surface_form ts) /\
  (Forall (fun k => truthy k = true) (outKanji o) ->
   Forall (fun k => truthy k = true)
          (outKanji (fold_left (pushToken hira) ts o))).
Proof.
  revert o. induction ts as [| t ts IH]; intros o; simpl.
  - split; [now rewrite app_nil_r | auto].
  - destruct (IH (pushToken hira o t)) as [Hc Hf].
    destruct (pushToken_text o t) as [Hc1 Hf1].
    split; [rewrite Hc, Hc1, <- app_assoc; reflexivity | auto].
Qed.

(** The base chunks of the one segment are non-empty and spell out the
    surface forms of the tokens; the input itself when no token has a
    surface. *)
Lemma getFuriganaSegmentsSync_text (jp : jsstring) (seg : Segment) :
  truthy jp = true ->
  In seg (getFuriganaSegmentsSync hira getTokenizer jp) ->
  Forall (fun k => truthy k = true) (kanji seg) /\
  concat (kanji seg)
  = (let surfaces := concat (map surface_form (tokensOf getTokenizer jp)) in
     if truthy surfaces then surfaces else jp).
Proof.
  intros Hjp Hin. unfold getFuriganaSegmentsSync in Hin. rewrite Hjp in Hin.
  cbn [negb] in Hin.
  destruct (fold_pushToken_text (tokensOf getTokenizer jp) (mkOut [] []))
    as [Hc Hf].
  simpl in Hc. specialize (Hf (Forall_nil _)).
  set (o := fold_left (pushToken hira) (tokensOf getTokenizer jp) (mkOut [] []))
    in *.
  destruct (Z.eqb_spec (Z.of_nat (length (outKanji o))) 0) as [E | E];
    destruct Hin as [<- | []]; simpl.
  - destruct (outKanji o); [| simpl in E; lia]. simpl in Hc. rewrite <- Hc.
    simpl. rewrite app_nil_r. split; [| reflexivity].
    constructor; [exact Hjp | constructor].
  - split; [exact Hf |]. rewrite <- Hc.
    destruct (outKanji o) as [| k ks]; [simpl in E; lia |].
    inversion Hf; subst. destruct k; [discriminate |]. reflexivity.
Qed.

(** X3. For a non-empty input the base chunks of the segment are never
    empty and, put together, are the surface forms of the tokens in order
    (the input itself when every token has an empty surface); without a
    tokenizer they spell out the input. *)
Theorem getFuriganaSegmentsSync_spells_tokens (jp : jsstring) (seg : Segment) :
  truthy jp = true ->
  In seg (getFuriganaSegmentsSync hira getTokenizer jp) ->
  Forall (fun k => truthy k = true) (kanji seg) /\
  concat (kanji seg)
  = (let surfaces := concat (map surface_form (tokensOf getTokenizer jp)) in
     if truthy surfaces then surfaces else jp) /\
  (getTokenizer = None -> concat (kanji seg) = jp).
Proof.
  intros Hjp Hin.
  destruct (getFuriganaSegmentsSync_text jp seg Hjp Hin) as [Hf Hc].
  split; [exact Hf |]. split; [exact Hc |].
  intros Hn. rewrite Hc. unfold tokensOf. rewrite Hn. simpl.
  rewrite app_nil_r. now rewrite Hjp.
Qed.

End BuilderText.

(* ------------------------------------------------------------------ *)
(** * The ruby element of Reading Mode *)
(* ------------------------------------------------------------------ *)

Lemma nthOr_in_range (xs : list jsstring) (i : nat) (d : jsstring) :
  (i < length xs)%nat -> nthOr xs i d = nth i xs d.
Proof.
  intros H. unfold nthOr. destruct (nth_error xs i) eqn:E.
  - symmetry. apply nth_error_nth, E.
  - apply nth_error_None in E. lia.
Qed.

Lemma nthOr_out_of_range (xs : list jsstring) (i : nat) (d : jsstring) :
  (length xs <= i)%nat -> nthOr xs i d = d.
Proof.
  intros H. unfold nthOr. destruct (nth_error xs i) eqn:E; [| reflexivity].
  assert (i < length xs)%nat by (apply nth_error_Some; congruence). lia.
Qed.

Lemma concat_nthOr_seq (xs : list jsstring) : forall n,
  (length xs <= n)%nat ->
  concat (map (fun i => nthOr xs i []) (seq 0 n)) = concat xs.
Proof.
  induction xs as [| x xs IH] using rev_ind; intros n Hn.
  - clear Hn. induction n as [| n IHn]; [reflexivity |].
    rewrite seq_S, map_app, concat_app, IHn. simpl.
    unfold nthOr. destruct n; reflexivity.
  - rewrite length_app in Hn. simpl in Hn.
    replace n with (length xs + (n - length xs))%nat by lia.
    rewrite seq_app, map_app, !concat_app. simpl. f_equal.
    + rewrite <- (IH (length xs)) by lia.
      f_equal. apply map_ext_in. intros i Hi. apply in_seq in Hi.
      rewrite !nthOr_in_range by (rewrite ?length_app; simpl; lia).
      apply app_nth1. lia.
    + destruct (n - length xs)%nat as [| k] eqn:Ek; [lia |].
      simpl. rewrite nthOr_in_range by (rewrite length_app; simpl; lia).
      rewrite nth_middle. f_equal.
      assert (Hrest : forall m a, (length xs < a)%nat ->
                concat (map (fun i => nthOr (xs ++ [x]) i []) (seq a m)) = []).
      { induction m as [| m IHm]; intros a Ha; [reflexivity |].
        simpl. rewrite nthOr_out_of_range by (rewrite length_app; simpl; lia).
        simpl. apply IHm. lia. }
      rewrite Hrest by lia. reflexivity.
Qed.

Lemma makeRuby_bases (kanjiArr furiArr : list jsstring) :
  concat (map fst (makeRuby kanjiArr furiArr)) = concat kanjiArr.
Proof.
  unfold makeRuby. rewrite map_map. cbn [fst]. apply concat_nthOr_seq. lia.
Qed.

(** X4. [makeRuby] creates as many base/annotation pairs as the longer of
    its two arrays; the base texts put together are the base chunks put
    together; a base without kanji gets an empty annotation, and a base
    with kanji gets the reading at its index. *)
Theorem makeRuby_pairs (kanjiArr furiArr : list jsstring) :
  length (makeRuby kanjiArr furiArr)
  = Nat.max (length kanjiArr) (length furiArr) /\
  concat (map fst (makeRuby kanjiArr furiArr)) = concat kanjiArr /\
  forall i b r,
    nth_error (makeRuby kanjiArr furiArr) i = Some (b, r) ->
    b = nthOr kanjiArr i [] /\
    (hasKanji b = false -> r = []) /\
    (hasKanji b = true -> r = nthOr furiArr i []).
Proof.
  split; [unfold makeRuby; now rewrite length_map, length_seq |]. split.
  - apply makeRuby_bases.
  - unfold makeRuby. intros i b r H. rewrite nth_error_map, nth_error_seq in H.
    destruct (Nat.ltb i (Nat.max (length kanjiArr) (length furiArr)));
      [| discriminate].
    cbn [option_map Nat.add] in H. injection H as <- <-.
    split; [reflexivity |]. split; intros Hk; rewrite Hk.
    + now rewrite andb_false_r.
    + rewrite andb_true_r.
      destruct (nthOr kanjiArr i []); [discriminate | reflexivity].
Qed.

(* ------------------------------------------------------------------ *)
(** * What the Reading Mode converter keeps of the text *)
(* ------------------------------------------------------------------ *)

Lemma sliceFrom_skipn (s : jsstring) (q : nat) :
  (q <= length s)%nat -> sliceFrom s (Z.of_nat q) = skipn q s.
Proof.
  intros H. unfold sliceFrom, slen. rewrite slice_middle by lia.
  apply firstn_all2. rewrite length_skipn. lia.
Qed.

Lemma skipn_three {A} (s : list A) (q i e : nat) :
  (q <= i)%nat -> (i <= e)%nat ->
  skipn q s = firstn (i - q) (skipn q s) ++ firstn (e - i) (skipn i s) ++ skipn e s.
Proof.
  intros Hqi Hie.
  rewrite <- (firstn_skipn (i - q) (skipn q s)) at 1. f_equal.
  rewrite skipn_skipn. replace (i - q + q)%nat with i by lia.
  rewrite <- (firstn_skipn (e - i) (skipn i s)) at 1. f_equal.
  rewrite skipn_skipn. f_equal. lia.
Qed.

Lemma fragBase_app (f1 f2 : list Node) :
  fragBase (f1 ++ f2) = fragBase f1 ++ fragBase f2.
Proof. unfold fragBase. now rewrite map_app, concat_app. Qed.

Lemma manualArrays_base (b : jsstring) (parts : list jsstring) :
  concat (fst (manualArrays b parts)) = b.
Proof.
  assert (Hs : concat (splitChars b) = b).
  { unfold splitChars. induction b as [| c b IH]; simpl; [reflexivity |].
    now rewrite IH. }
  unfold manualArrays.
  destruct (length parts <=? 1)%nat; [simpl; now rewrite app_nil_r |].
  destruct (Nat.eqb (length parts) (length (splitChars b))); simpl; exact Hs.
Qed.

Lemma consuming_needs_input (r : regex) (i : nat) :
  consumes r = true -> matchAt r [] i = None.
Proof.
  intros Hc. destruct (matchAt r [] i) as [[j c] |] eqn:E; [| reflexivity].
  apply matchAt_bounds in E. destruct E as [Hb Hs]. specialize (Hs Hc).
  simpl in Hb. lia.
Qed.

Section ConverterText.

Variable hira : jsstring -> jsstring.
Variable getTokenizer : option (jsstring -> list KuromojiToken).

(** ** The fragment grows *)

Lemma autoLoop_grows (slice_ : jsstring) : forall fuel auto last frag auto' last' frag',
  autoLoop hira getTokenizer fuel slice_ auto last frag = Ok (auto', last', frag') ->
  (length frag < length frag')%nat \/ (frag' = frag /\ last' = last).
Proof.
  induction fuel as [| fuel IH]; intros auto last frag auto' last' frag' H;
    [discriminate |].
  cbn [autoLoop] in H.
  destruct (exec auto slice_) as [[a |] re'].
  - left.
    match type of H with
    | bind ?X _ = _ => destruct X as [frag2 |] eqn:E2; cbn [bind] in H;
                       [| discriminate]
    end.
    assert (Hl : (length frag < length frag2)%nat).
    { destruct (hasKanji (whole a)).
      - destruct (getFuriganaSegmentsSync hira getTokenizer (whole a));
          [discriminate |].
        injection E2 as <-.
        destruct (last <? index a); rewrite ?length_app; simpl; lia.
      - injection E2 as <-.
        destruct (last <? index a); rewrite ?length_app; simpl; lia. }
    apply IH in H. destruct H as [H | [-> _]]; lia.
  - injection H as <- <- <-. right. auto.
Qed.

Lemma pushAuto_grows (slice_ : jsstring) (auto : RegExp) (frag : list Node)
    (auto' : RegExp) (frag' : list Node) :
  pushAuto hira getTokenizer slice_ auto frag = Ok (auto', frag') ->
  (length frag <= length frag')%nat /\
  (truthy slice_ = true -> (length frag < length frag')%nat).
Proof.
  unfold pushAuto. intros H.
  destruct (truthy slice_) eqn:Ht; cbn [negb] in H.
  - destruct (autoLoop hira getTokenizer (S (length slice_)) slice_ auto 0 frag)
      as [[[a1 l1] f1] |] eqn:E; cbn [bind] in H; [| discriminate].
    injection H as <- <-.
    apply autoLoop_grows in E.
    assert (Hs : 0 < slen slice_)
      by (destruct slice_; [discriminate | unfold slen; simpl; lia]).
    destruct E as [E | [-> ->]].
    + destruct (l1 <? slen slice_); rewrite ?length_app; simpl; lia.
    + destruct (Z.ltb_spec 0 (slen slice_)); [| lia].
      rewrite length_app. simpl. lia.
  - injection H as <- <-. split; [lia | discriminate].
Qed.

Lemma manualLoop_grows (text_ : jsstring) :
  forall fuel manual auto cursor frag auto' cursor' frag',
    manualLoop hira getTokenizer fuel text_ manual auto cursor frag
    = Ok (auto', cursor', frag') ->
    (length frag < length frag')%nat \/ (frag' = frag /\ cursor' = cursor).
Proof.
  induction fuel as [| fuel IH];
    intros manual auto cursor frag auto' cursor' frag' H; [discriminate |].
  cbn [manualLoop] in H.
  destruct (exec manual text_) as [[m |] re'].
  - left.
    match type of H with
    | bind ?X _ = _ => destruct X as [[a1 f1] |] eqn:E1; cbn [bind] in H;
                       [| discriminate]
    end.
    assert (Hl : (length frag <= length f1)%nat).
    { destruct (cursor <? index m).
      - apply pushAuto_grows in E1. tauto.
      - injection E1 as <- <-. lia. }
    destruct (manualArrays (orEmpty (group m 1)) (readingParts m)) as [ka fa].
    apply IH in H. rewrite length_app in H. simpl in H.
    destruct H as [H | [-> _]]; rewrite ?length_app; simpl; lia.
  - injection H as <- <- <-. right. auto.
Qed.

Lemma convertFurigana_unchanged_empty (text_ : jsstring)
    (REGEX_MANUAL REGEX_AUTO : RegExp) :
  convertFurigana hira getTokenizer text_ REGEX_MANUAL REGEX_AUTO = Ok Unchanged ->
  text_ = [].
Proof.
  unfold convertFurigana. intros H.
  destruct (manualLoop hira getTokenizer (S (length text_)) text_
              (newRegExp (source REGEX_MANUAL) true)
              (newRegExp (source REGEX_AUTO) true) 0 [])
    as [[[a1 c1] f1] |] eqn:E; cbn [bind] in H; [| discriminate].
  match type of H with
  | bind ?X _ = _ => destruct X as [[a2 f2] |] eqn:E2; cbn [bind] in H;
                     [| discriminate]
  end.
  destruct (Z.eqb_spec (Z.of_nat (length f2)) 0) as [Hz | Hz]; [| discriminate].
  apply manualLoop_grows in E.
  destruct text_ as [| u text']; [reflexivity | exfalso].
  destruct (c1 <? slen (u :: text')) eqn:Hlt.
  - apply pushAuto_grows in E2. destruct E2 as [Hle Hgt].
    destruct E as [E | [-> ->]]; [lia |].
    pose proof (sliceFrom_skipn (u :: text') 0 ltac:(simpl; lia)) as Hs0.
    change (Z.of_nat 0) with 0 in Hs0. rewrite Hs0 in Hgt.
    specialize (Hgt eq_refl). lia.
  - injection E2 as <- <-.
    destruct E as [E | [-> ->]]; [lia |].
    unfold slen in Hlt. simpl length in Hlt.
    destruct (Z.ltb_spec 0 (Z.of_nat (S (length text')))); [discriminate | lia].
Qed.

(** X5. [convertFurigana] hands back the original text node only for the
    empty text: any other text comes back as a fragment, even when nothing
    in it is Japanese or marked up. *)
Theorem convertFurigana_unchanged_iff_empty (text_ : jsstring)
    (REGEX_MANUAL REGEX_AUTO : RegExp) :
  consumes (source REGEX_MANUAL) = true ->
  (convertFurigana hira getTokenizer text_ REGEX_MANUAL REGEX_AUTO = Ok Unchanged
   <-> text_ = []).
Proof.
  intros Hc. split; [apply convertFurigana_unchanged_empty |].
  intros ->. unfold convertFurigana, newRegExp. cbn [length manualLoop].
  unfold exec, search. cbn [global source lastIndex length].
  cbn [Z.to_nat Nat.ltb Nat.leb Nat.sub searchFrom].
  rewrite (consuming_needs_input _ 0 Hc). reflexivity.
Qed.

(** ** The base text *)

Hypothesis faithful : Faithful getTokenizer.

Lemma segment_spells_span (span_ : jsstring) (seg : Segment) (rest : list Segment) :
  truthy span_ = true ->
  getFuriganaSegmentsSync hira getTokenizer span_ = seg :: rest ->
  concat (kanji seg) = span_.
Proof.
  intros Ht E.
  destruct (getFuriganaSegmentsSync_text hira getTokenizer span_ seg Ht) as [_ Hc].
  { rewrite E. left. reflexivity. }
  rewrite Hc. unfold tokensOf, Faithful in *.
  destruct getTokenizer as [tokenize |].
  - rewrite faithful, Ht. reflexivity.
  - simpl. rewrite app_nil_r, Ht. reflexivity.
Qed.

Lemma autoLoop_base (src : regex) (slice_ : jsstring) :
  consumes src = true ->
  forall fuel q frag auto' last' frag',
    (q <= length slice_)%nat ->
    autoLoop hira getTokenizer fuel slice_ (mkRegExp src true (Z.of_nat q))
             (Z.of_nat q) frag = Ok (auto', last', frag') ->
    exists q',
      last' = Z.of_nat q' /\ (q' <= length slice_)%nat /\
      fragBase frag' ++ skipn q' slice_ = fragBase frag ++ skipn q slice_.
Proof.
  intros Hc. induction fuel as [| fuel IH]; intros q frag auto' last' frag' Hq H;
    [discriminate |].
  cbn [autoLoop] in H.
  destruct (exec (mkRegExp src true (Z.of_nat q)) slice_) as [[a |] re'] eqn:E.
  - apply exec_some in E; [| exact Hc]. destruct E as (-> & Hb & Hp).
    rewrite Nat2Z.id in Hb, Hp.
    pose proof (whole_length _ _ _ _ Hp) as Hw.
    pose proof Hp as (Hin & Hqi & Hie & Hel & _).
    assert (Hspan : whole a = firstn (m_end a - m_index a) (skipn (m_index a) slice_))
      by (unfold whole, substring; now rewrite Hin).
    assert (Hto : index a + slen (whole a) = Z.of_nat (m_end a))
      by (rewrite Hw; unfold index; lia).
    rewrite Hto in H.
    match type of H with
    | bind ?X _ = _ => destruct X as [frag2 |] eqn:E2; cbn [bind] in H;
                       [| discriminate]
    end.
    assert (Hb2 : fragBase frag2
                  = fragBase frag
                    ++ firstn (m_index a - q) (skipn q slice_) ++ whole a).
    { assert (Hgap : fragBase (if Z.of_nat q <? index a
                               then frag ++ [TextNode (slice slice_ (Z.of_nat q) (index a))]
                               else frag)
                     = fragBase frag ++ firstn (m_index a - q) (skipn q slice_)).
      { unfold index. destruct (Z.ltb_spec (Z.of_nat q) (Z.of_nat (m_index a))).
        - rewrite fragBase_app, slice_middle by lia.
          unfold fragBase. simpl. now rewrite app_nil_r.
        - replace (m_index a - q)%nat with 0%nat by lia. simpl.
          now rewrite app_nil_r. }
      destruct (hasKanji (whole a)) eqn:Hk.
      - destruct (getFuriganaSegmentsSync hira getTokenizer (whole a))
          as [| seg rest] eqn:Es; [discriminate |].
        injection E2 as <-. rewrite fragBase_app, Hgap, <- app_assoc. do 2 f_equal.
        unfold fragBase. simpl. rewrite app_nil_r, makeRuby_bases.
        eapply segment_spells_span; [| exact Es].
        destruct (whole a); [discriminate | reflexivity].
      - injection E2 as <-. rewrite fragBase_app, Hgap, <- app_assoc. do 2 f_equal.
        unfold fragBase. simpl. now rewrite app_nil_r. }
    apply IH in H; [| lia]. destruct H as (q' & Hl & Hq' & Hbase).
    exists q'. split; [exact Hl |]. split; [exact Hq' |].
    rewrite Hbase, Hb2, Hspan, <- !app_assoc. f_equal.
    symmetry. apply skipn_three; lia.
  - injection H as <- <- <-. exists q. auto.
Qed.

Lemma pushAuto_base (src : regex) (slice_ : jsstring) (frag : list Node)
    (auto' : RegExp) (frag' : list Node) :
  consumes src = true ->
  pushAuto hira getTokenizer slice_ (mkRegExp src true 0) frag = Ok (auto', frag') ->
  auto' = mkRegExp src true 0 /\ fragBase frag' = fragBase frag ++ slice_.
Proof.
  intros Hc H. split.
  - destruct (pushAuto_ok hira getTokenizer src slice_ frag Hc) as (f & E).
    rewrite E in H. now injection H as <- _.
  - unfold pushAuto in H. destruct (truthy slice_) eqn:Ht; cbn [negb] in H.
    + destruct (autoLoop hira getTokenizer (S (length slice_)) slice_
                  (mkRegExp src true 0) 0 frag) as [[[a1 l1] f1] |] eqn:E;
        cbn [bind] in H; [| discriminate].
      injection H as _ <-.
      apply (autoLoop_base src slice_ Hc _ 0%nat) in E; [| lia].
      destruct E as (q' & -> & Hq' & Hbase). simpl in Hbase.
      unfold slen. destruct (Z.ltb_spec (Z.of_nat q') (Z.of_nat (length slice_))).
      * rewrite fragBase_app, sliceFrom_skipn by lia.
        unfold fragBase at 2. simpl. now rewrite app_nil_r.
      * rewrite skipn_all2 in Hbase by lia. now rewrite app_nil_r in Hbase.
    + injection H as _ <-. destruct slice_; [| discriminate].
      now rewrite app_nil_r.
Qed.

Lemma manualLoop_base (srcM srcA : regex) (text_ : jsstring) :
  consumes srcM = true -> consumes srcA = true ->
  forall fuel p frag auto' cursor' frag',
    (p <= length text_)%nat ->
    manualLoop hira getTokenizer fuel text_ (mkRegExp srcM true (Z.of_nat p))
               (mkRegExp srcA true 0) (Z.of_nat p) frag
    = Ok (auto', cursor', frag') ->
    exists p',
      cursor' = Z.of_nat p' /\ (p' <= length text_)%nat /\
      auto' = mkRegExp srcA true 0 /\
      fragBase frag' ++ skipn p' text_
      = fragBase frag
        ++ replaceMatches text_ p
             (matchAllLoop fuel (mkRegExp srcM true (Z.of_nat p)) text_).
Proof.
  intros HcM HcA. induction fuel as [| fuel IH];
    intros p frag auto' cursor' frag' Hp H; [discriminate |].
  cbn [manualLoop matchAllLoop] in *.
  destruct (exec (mkRegExp srcM true (Z.of_nat p)) text_) as [[m |] re'] eqn:E.
  - apply exec_some in E; [| exact HcM]. destruct E as (-> & Hb & Hpl).
    rewrite Nat2Z.id in Hb, Hpl.
    pose proof (whole_length _ _ _ _ Hpl) as Hw.
    pose proof Hpl as (Hin & Hqi & Hie & Hel & Hlt). specialize (Hlt HcM).
    assert (Hto : index m + slen (whole m) = Z.of_nat (m_end m))
      by (rewrite Hw; unfold index; lia).
    rewrite Hto in H.
    destruct (Nat.eqb_spec (m_end m) (m_index m)); [lia |].
    match type of H with
    | bind ?X _ = _ => destruct X as [[a1 f1] |] eqn:E1; cbn [bind] in H;
                       [| discriminate]
    end.
    assert (H1 : a1 = mkRegExp srcA true 0 /\
                 fragBase f1 = fragBase frag ++ substring text_ p (m_index m)).
    { unfold index in E1. unfold substring.
      destruct (Z.ltb_spec (Z.of_nat p) (Z.of_nat (m_index m))).
      - apply pushAuto_base in E1; [| exact HcA].
        rewrite slice_middle in E1 by lia. exact E1.
      - injection E1 as <- <-. split; [reflexivity |].
        replace (m_index m - p)%nat with 0%nat by lia. simpl.
        now rewrite app_nil_r. }
    destruct H1 as [-> Hf1].
    destruct (manualArrays (orEmpty (group m 1)) (readingParts m)) as [ka fa] eqn:Ea.
    apply IH in H; [| lia]. destruct H as (p' & Hl & Hp' & Ha & Hbase).
    exists p'. split; [exact Hl |]. split; [exact Hp' |]. split; [exact Ha |].
    rewrite Hbase, fragBase_app, Hf1, <- !app_assoc. f_equal.
    cbn [replaceMatches]. do 2 f_equal.
    unfold fragBase. simpl. rewrite !app_nil_r, makeRuby_bases.
    pose proof (manualArrays_base (orEmpty (group m 1)) (readingParts m)) as Hm.
    rewrite Ea in Hm. simpl in Hm. now rewrite Hm.
  - injection H as <- <- <-. exists p. cbn [replaceMatches]. auto.
Qed.

(** The base text of the result is the text with every manual match
    replaced by its base. *)
Lemma convertFurigana_base (text_ : jsstring) (REGEX_MANUAL REGEX_AUTO : RegExp)
    (c : Converted) :
  consumes (source REGEX_MANUAL) = true ->
  consumes (source REGEX_AUTO) = true ->
  convertFurigana hira getTokenizer text_ REGEX_MANUAL REGEX_AUTO = Ok c ->
  convertedBase text_ c
  = replaceMatches text_ 0
      (matchAllLoop (S (length text_))
         (mkRegExp (source REGEX_MANUAL) true 0) text_).
Proof.
  intros HcM HcA H. pose proof H as H0. unfold convertFurigana, newRegExp in H.
  destruct (manualLoop hira getTokenizer (S (length text_)) text_
              (mkRegExp (source REGEX_MANUAL) true 0)
              (mkRegExp (source REGEX_AUTO) true 0) 0 [])
    as [[[a1 c1] f1] |] eqn:E; cbn [bind] in H; [| discriminate].
  apply (manualLoop_base _ _ text_ HcM HcA _ 0%nat) in E; [| lia].
  destruct E as (p' & -> & Hp' & -> & Hbase).
  change (Z.of_nat 0) with 0 in Hbase.
  change (fragBase []) with (@nil Z) in Hbase. rewrite app_nil_l in Hbase.
  match type of H with
  | bind ?X _ = _ => destruct X as [[a2 f2] |] eqn:E2; cbn [bind] in H;
                     [| discriminate]
  end.
  assert (Hf2 : fragBase f2 = fragBase f1 ++ skipn p' text_).
  { unfold slen in E2.
    destruct (Z.ltb_spec (Z.of_nat p') (Z.of_nat (length text_))).
    - apply pushAuto_base in E2; [| exact HcA].
      rewrite sliceFrom_skipn in E2 by lia. apply E2.
    - injection E2 as _ <-. rewrite skipn_all2 by lia. now rewrite app_nil_r. }
  rewrite <- Hbase, <- Hf2.
  destruct (Z.eqb_spec (Z.of_nat (length f2)) 0) as [Hz | Hz];
    injection H as <-; cbn [convertedBase]; [| reflexivity].
  apply convertFurigana_unchanged_empty in H0. subst text_.
  destruct f2; [reflexivity | simpl in Hz; lia].
Qed.

(** X6. With a tokenizer whose surface forms spell out its input (or with
    none), the base text of what [convertFurigana] returns is the text with
    every manual match replaced by its base: nothing else of the text is
    lost, added or reordered. *)
Theorem convertFurigana_keeps_base_text (text_ : jsstring)
    (REGEX_MANUAL REGEX_AUTO : RegExp) (c : Converted) (ms : list Match) :
  consumes (source REGEX_MANUAL) = true ->
  consumes (source REGEX_AUTO) = true ->
  matchAll text_ (newRegExp (source REGEX_MANUAL) true) = Ok ms ->
  convertFurigana hira getTokenizer text_ REGEX_MANUAL REGEX_AUTO = Ok c ->
  convertedBase text_ c = replaceMatches text_ 0 ms.
Proof.
  intros HcM HcA Hms H. injection Hms as <-.
  exact (convertFurigana_base text_ REGEX_MANUAL REGEX_AUTO c HcM HcA H).
Qed.




End ConverterText.

Lemma convertFurigana_unchanged_iff_empty_witness :
  convertFurigana Sample.keep None [0x41] (getManualRegex curly)
    (getAutoRegex initialStore) = Ok Unchanged
  <-> [0x41] = [].
Proof.
  apply (convertFurigana_unchanged_iff_empty Sample.keep None [0x41]).
  reflexivity.
Defined.

Lemma getFuriganaSegmentsSync_spells_tokens_witness :
  let seg := mkSegment [[0x304A]; [0x9858]; [0x3044]]
                       [[0x304A]; [0x9858]; [0x3044]] in
  Forall (fun k => truthy k = true) (kanji seg) /\
  concat (kanji seg)
  = (let surfaces :=
       concat (map surface_form (tokensOf None [0x304A; 0x9858; 0x3044])) in
     if truthy surfaces then surfaces else [0x304A; 0x9858; 0x3044]) /\
  (@None (jsstring -> list KuromojiToken) = None ->
   concat (kanji seg) = [0x304A; 0x9858; 0x3044]).
Proof.
  intros seg.
  apply (getFuriganaSegmentsSync_spells_tokens Sample.keep None
           [0x304A; 0x9858; 0x3044] seg eq_refl).
  left. reflexivity.
Defined.

Lemma convertFurigana_keeps_base_text_witness :
  let t := 0x3053 :: Sample.kanji_kan_ji in
  convertedBase t
    (Fragment [TextNode [0x3053];
               RubyNode [[0x6F22]; [0x5B57]] [[0x304B; 0x3093]; [0x3058]]])
  = replaceMatches t 0
      [mkMatch t 1 10 [(2%nat, (4%nat, 9%nat)); (1%nat, (2%nat, 4%nat))]].
Proof.
  intros t.
  refine (convertFurigana_keeps_base_text Sample.keep None I t
            (getManualRegex curly) (getAutoRegex initialStore) _ _
            eq_refl eq_refl _ _); vm_compute; reflexivity.
Defined.


(* ------------------------------------------------------------------ *)
(** * What the patterns of [regex.ts] match *)
(* ------------------------------------------------------------------ *)

Lemma skipn_cons_nth {A} (s : list A) (i : nat) (x : A) (t : list A) :
  skipn i s = x :: t -> nth_error s i = Some x /\ skipn (S i) s = t.
Proof.
  revert s. induction i as [| i IH]; intros s H.
  - destruct s; simpl in H; [discriminate |]. injection H as -> ->. auto.
  - destruct s as [| y s]; simpl in H; [discriminate |]. apply IH in H. exact H.
Qed.

Lemma skipn_nil_nth {A} (s : list A) (i : nat) :
  skipn i s = [] -> nth_error s i = None.
Proof.
  intros H. apply nth_error_None.
  assert (length (skipn i s) = 0%nat) by now rewrite H.
  rewrite length_skipn in H0. lia.
Qed.

Lemma nth_skipn_cons {A} (s : list A) (i : nat) (x : A) :
  nth_error s i = Some x -> exists t, skipn i s = x :: t.
Proof.
  revert s. induction i as [| i IH]; intros s H.
  - destruct s; [discriminate |]. injection H as ->. simpl. eauto.
  - destruct s as [| y s]; [discriminate |]. simpl in *. apply IH, H.
Qed.

Lemma leadingRun_spec (f : Z -> bool) (s : jsstring) :
  exists rest,
    s = leadingRun f s ++ rest /\
    Forall (fun u => f u = true) (leadingRun f s) /\
    match rest with [] => True | u :: _ => f u = false end.
Proof.
  induction s as [| u s IH]; simpl.
  - exists []. auto.
  - destruct (f u) eqn:E.
    + destruct IH as (rest & Hs & Hf & Hr). exists rest.
      split; [simpl; now rewrite <- Hs |]. split; [constructor; auto | exact Hr].
    + exists (u :: s). auto.
Qed.

Lemma class_iterate_fail (neg : bool) (rs : list (Z * Z)) (s : jsstring)
    (k : Cont) (fuel : nat) (first : bool) (i : nat) (c : captures)
    (rest : jsstring) :
  skipn i s = rest ->
  match rest with [] => True | u :: _ => inClass neg rs u = false end ->
  iterate (rmatch (Class neg rs) s) k fuel first i c = None.
Proof.
  intros Hs Hr.
  assert (Hb : forall K, rmatch (Class neg rs) s i c K = None).
  { intros K. cbn [rmatch]. destruct rest as [| u rest'].
    - now rewrite (skipn_nil_nth _ _ Hs).
    - apply skipn_cons_nth in Hs. destruct Hs as [-> _]. now rewrite Hr. }
  destruct fuel; cbn [iterate]; apply Hb.
Qed.

(** A greedy [+] over a class takes the whole run of units of the class. *)
Lemma plus_class_run (neg : bool) (rs : list (Z * Z)) (s : jsstring) (k : Cont) :
  forall run i fuel first c res rest,
    run <> [] ->
    skipn i s = run ++ rest ->
    Forall (fun u => inClass neg rs u = true) run ->
    match rest with [] => True | u :: _ => inClass neg rs u = false end ->
    (length run <= S fuel)%nat ->
    k (i + length run)%nat c = Some res ->
    iterate (rmatch (Class neg rs) s) k fuel first i c = Some res.
Proof.
  induction run as [| x run IH]; intros i fuel first c res rest Hne Hs Hf Hr Hl Hk;
    [contradiction |].
  simpl in Hs. apply skipn_cons_nth in Hs. destruct Hs as [Hx Hs].
  inversion Hf as [| ? ? Hcx Hf']; subst.
  assert (Hstep : forall K, rmatch (Class neg rs) s i c K = K (S i) c).
  { intros K. cbn [rmatch]. now rewrite Hx, Hcx. }
  assert (Hneq : Nat.eqb (S i) i = false) by (apply Nat.eqb_neq; lia).
  destruct run as [| x' run'].
  - simpl in Hk. replace (i + 1)%nat with (S i) in Hk by lia.
    destruct fuel as [| fuel]; cbn [iterate]; rewrite Hstep; cbn beta;
      rewrite Hneq, andb_false_r; [exact Hk |].
    rewrite (class_iterate_fail neg rs s k fuel false (S i) c rest Hs Hr). exact Hk.
  - destruct fuel as [| fuel]; [simpl in Hl; lia |].
    cbn [iterate]. rewrite Hstep. cbn beta. rewrite Hneq, andb_false_r.
    rewrite (IH (S i) fuel false c res rest); auto.
    + discriminate.
    + simpl in Hl |- *. lia.
    + simpl length in Hk |- *.
      replace (S i + S (length run'))%nat with (i + S (S (length run')))%nat by lia.
      exact Hk.
Qed.

(** [matchAt] for a greedy class run: the longest run, when there is one. *)
Lemma matchAt_plus_class (neg : bool) (rs : list (Z * Z)) (s : jsstring) (i : nat) :
  matchAt (Plus (Class neg rs)) s i
  = match leadingRun (inClass neg rs) (skipn i s) with
    | [] => None
    | (_ :: _) as run => Some ((i + length run)%nat, [])
    end.
Proof.
  destruct (leadingRun_spec (inClass neg rs) (skipn i s)) as (rest & Hs & Hf & Hr).
  destruct (leadingRun (inClass neg rs) (skipn i s)) as [| x run] eqn:E.
  - unfold matchAt. cbn [rmatch]. simpl in Hs.
    eapply class_iterate_fail; [exact Hs | exact Hr].
  - unfold matchAt. cbn [rmatch].
    apply (plus_class_run neg rs s _ (x :: run) i (length s) true [] _ rest).
    + discriminate.
    + exact Hs.
    + exact Hf.
    + exact Hr.
    + assert (Hlen : length (skipn i s) = length ((x :: run) ++ rest))
        by now rewrite <- Hs.
      rewrite length_skipn, length_app in Hlen. lia.
    + reflexivity.
Qed.

(** The engine's search reports the first position that matches. *)
Lemma searchFrom_first (r : regex) (s : jsstring) : forall n p,
  match searchFrom n r s p with
  | Some m =>
      matchAt r s (m_index m) = Some (m_end m, m_caps m) /\
      m_input m = s /\ (p <= m_index m <= p + n)%nat /\
      forall i, (p <= i < m_index m)%nat -> matchAt r s i = None
  | None => forall i, (p <= i <= p + n)%nat -> matchAt r s i = None
  end.
Proof.
  induction n as [| n IH]; intros p; cbn [searchFrom];
    destruct (matchAt r s p) as [[j c] |] eqn:E.
  - cbn [m_index m_end m_caps m_input]. repeat split; auto; try lia.
  - intros i Hi. replace i with p by lia. exact E.
  - cbn [m_index m_end m_caps m_input]. repeat split; auto; try lia.
  - specialize (IH (S p)). destruct (searchFrom n r s (S p)) as [m |].
    + destruct IH as (Hm & Hin & Hb & Hnone). repeat split; auto; try lia.
      intros i Hi. destruct (Nat.eq_dec i p) as [-> | Hne]; [exact E |].
      apply Hnone. lia.
    + intros i Hi. destruct (Nat.eq_dec i p) as [-> | Hne]; [exact E |].
      apply IH. lia.
Qed.

Lemma search_first (r : regex) (s : jsstring) (p : nat) :
  match search r s p with
  | Some m =>
      matchAt r s (m_index m) = Some (m_end m, m_caps m) /\
      m_input m = s /\ (p <= m_index m <= length s)%nat /\
      forall i, (p <= i < m_index m)%nat -> matchAt r s i = None
  | None => forall i, (p <= i <= length s)%nat -> matchAt r s i = None
  end.
Proof.
  unfold search. destruct (Nat.ltb_spec (length s) p).
  - intros i Hi. lia.
  - pose proof (searchFrom_first r s (length s - p) p) as H0.
    destruct (searchFrom (length s - p) r s p) as [m |].
    + destruct H0 as (Hm & Hin & Hb & Hnone). repeat split; auto; lia.
    + intros i Hi. apply H0. lia.
Qed.

Lemma japanese_matchAt (s : jsstring) (i : nat) :
  matchAt automaticPattern s i
  = match leadingRun japaneseUnit (skipn i s) with
    | [] => None
    | (_ :: _) as run => Some ((i + length run)%nat, [])
    end.
Proof. apply matchAt_plus_class. Qed.

Lemma japanese_no_match (s : jsstring) (i : nat) (u : Z) :
  nth_error s i = Some u -> matchAt automaticPattern s i = None ->
  japaneseUnit u = false.
Proof.
  intros Hu H. rewrite japanese_matchAt in H.
  apply nth_skipn_cons in Hu. destruct Hu as (t & Ht). rewrite Ht in H.
  simpl in H. destruct (japaneseUnit u); [discriminate | reflexivity].
Qed.

Lemma japanese_match (s : jsstring) (i j : nat) (c : captures) :
  matchAt automaticPattern s i = Some (j, c) ->
  (i < j)%nat /\
  (forall q u, (i <= q < j)%nat -> nth_error s q = Some u -> japaneseUnit u = true) /\
  (forall u, nth_error s j = Some u -> japaneseUnit u = false).
Proof.
  intros H. rewrite japanese_matchAt in H.
  destruct (leadingRun_spec japaneseUnit (skipn i s)) as (rest & Hs & Hf & Hr).
  destruct (leadingRun japaneseUnit (skipn i s)) as [| x run]; [discriminate |].
  injection H as <- <-. split; [simpl; lia |]. split.
  - intros q u Hq Hu.
    assert (Hn : nth_error (skipn i s) (q - i) = Some u).
    { rewrite nth_error_skipn. replace (i + (q - i))%nat with q by lia. exact Hu. }
    rewrite Hs in Hn. rewrite nth_error_app1 in Hn by (simpl; lia).
    rewrite Forall_forall in Hf. apply Hf. eapply nth_error_In, Hn.
  - intros u Hu.
    assert (Hn : nth_error (skipn i s) (length (x :: run)) = Some u).
    { rewrite nth_error_skipn. exact Hu. }
    rewrite Hs in Hn. rewrite nth_error_app2 in Hn by (simpl; lia).
    rewrite Nat.sub_diag in Hn. destruct rest; [discriminate |].
    simpl in Hn. injection Hn as ->. exact Hr.
Qed.

Lemma Covered_later (m : Match) (ms : list Match) (i : nat) :
  (m_end m <= i)%nat -> (Covered (m :: ms) i <-> Covered ms i).
Proof.
  intros Hi. unfold Covered. split.
  - intros (m' & [<- | Hin] & Hb); [lia | eauto].
  - intros (m' & Hin & Hb). exists m'. split; [right; exact Hin | exact Hb].
Qed.

Lemma japanese_cover (s : jsstring) : forall fuel p,
  (S (length s) - p <= fuel)%nat ->
  let ms := matchAllLoop fuel (mkRegExp automaticPattern true (Z.of_nat p)) s in
  (forall i u, (p <= i)%nat -> nth_error s i = Some u ->
     (japaneseUnit u = true <-> Covered ms i)) /\
  (forall m u, In m ms -> nth_error s (m_end m) = Some u -> japaneseUnit u = false).
Proof.
  induction fuel as [| fuel IH]; intros p Hf.
  - simpl. split.
    + intros i u Hi Hu.
      assert (i < length s)%nat by (apply nth_error_Some; congruence). lia.
    + intros m u [].
  - cbn [matchAllLoop]. unfold exec. cbn [global source lastIndex].
    rewrite Nat2Z.id.
    pose proof (search_first automaticPattern s p) as Hfirst.
    pose proof (search_placed automaticPattern s p) as Hplaced.
    destruct (search automaticPattern s p) as [m |].
    + destruct Hfirst as (Hm & Hin & Hb & Hnone).
      specialize (Hplaced m eq_refl).
      destruct Hplaced as (_ & _ & _ & Hel & Hlt). specialize (Hlt eq_refl).
      pose proof (japanese_match _ _ _ _ Hm) as (_ & Hall & Hend).
      destruct (Nat.eqb_spec (m_end m) (m_index m)); [lia |].
      unfold setLastIndex. cbn [global source lastIndex].
      specialize (IH (m_end m) ltac:(lia)). cbn zeta in IH.
      destruct IH as [IHc IHe].
      set (rest := matchAllLoop fuel
                     (mkRegExp automaticPattern true (Z.of_nat (m_end m))) s) in *.
      assert (Hrest : forall m', In m' rest -> (m_end m <= m_index m')%nat).
      { pose proof (matchAllLoop_chained automaticPattern s fuel
                      (Z.of_nat (m_end m))) as Hch.
        rewrite Nat2Z.id in Hch. apply Chained_placed in Hch.
        rewrite Forall_forall in Hch. intros m' Hm'.
        destruct (Hch m' Hm') as (_ & Hq & _). exact Hq. }
      split.
      * intros i u Hi Hu.
        destruct (Nat.lt_ge_cases i (m_index m)) as [Hlo | Hhi].
        -- split.
           ++ intros Hj. rewrite (japanese_no_match s i u Hu) in Hj;
                [discriminate | apply Hnone; lia].
           ++ intros (m' & [<- | Hin'] & Hbnd); [lia |].
              specialize (Hrest m' Hin'). lia.
        -- destruct (Nat.lt_ge_cases i (m_end m)) as [Hin' | Hout].
           ++ split; [| intros _; eapply Hall; eauto; lia].
              intros _. exists m. split; [left; reflexivity | lia].
           ++ rewrite Covered_later by lia. apply IHc; auto.
      * intros m' u [<- | Hin'] Hu; [eapply Hend; eauto | eapply IHe; eauto].
    + split; [| intros m u []].
      intros i u Hi Hu. split.
      * intros Hj. rewrite (japanese_no_match s i u Hu) in Hj; [discriminate |].
        apply Hfirst.
        assert (i < length s)%nat by (apply nth_error_Some; congruence). lia.
      * intros (m & [] & _).
Qed.

(** X8. The automatic matches of a line are exactly its maximal runs of
    Japanese units: a unit is Japanese if and only if some match covers
    its position, and the unit after a match is not Japanese. *)
Theorem automatic_matches_cover (s : jsstring) (ms : list Match) :
  matchAll s (getAutoRegex initialStore) = Ok ms ->
  (forall i u, nth_error s i = Some u ->
     (japaneseUnit u = true <-> Covered ms i)) /\
  (forall m u, In m ms -> nth_error s (m_end m) = Some u -> japaneseUnit u = false).
Proof.
  intros H. injection H as <-.
  pose proof (japanese_cover s (S (length s)) 0 ltac:(lia)) as [Hc He].
  split; [| exact He].
  intros i u Hu. apply Hc; [lia | exact Hu].
Qed.

Lemma automatic_matches_cover_witness :
  let s := Sample.two_spans in
  let ms := [mkMatch s 0 2 []; mkMatch s 3 5 []] in
  (forall i u, nth_error s i = Some u ->
     (japaneseUnit u = true <-> Covered ms i)) /\
  (forall m u, In m ms -> nth_error s (m_end m) = Some u -> japaneseUnit u = false).
Proof.
  intros s ms. apply (automatic_matches_cover s ms). vm_compute. reflexivity.
Defined.

(* ------------------------------------------------------------------ *)
(** * Writing a manual override and reading it back *)
(* ------------------------------------------------------------------ *)

Lemma plain_not_bar (open close : Z) : plainUnit open close 0x7C = false.
Proof.
  unfold plainUnit, inClass. cbn [existsb fst snd].
  replace (inRange 124 124 124) with true by reflexivity.
  now rewrite !orb_true_r.
Qed.

Lemma plain_not_close (open close : Z) : plainUnit open close close = false.
Proof.
  unfold plainUnit, inClass. cbn [existsb fst snd].
  replace (inRange close close close) with true
    by (unfold inRange; now rewrite Z.leb_refl).
  now rewrite !orb_true_r.
Qed.

Lemma plain_is_not_bar (open close u : Z) :
  plainUnit open close u = true -> u <> 0x7C.
Proof. intros H ->. rewrite plain_not_bar in H. discriminate. Qed.

Lemma splitOn_plain (r : jsstring) (rest : list jsstring) (tail : jsstring) :
  Forall (fun u => u <> 0x7C) r ->
  splitOn 0x7C tail = [] :: rest \/ (tail = [] /\ rest = []) ->
  splitOn 0x7C (r ++ tail) = r :: rest.
Proof.
  intros Hr Ht. induction Hr as [| u r Hu Hr IH]; simpl.
  - destruct Ht as [Ht | [-> ->]]; [exact Ht | reflexivity].
  - rewrite IH. destruct (Z.eqb_spec u 124); [contradiction | reflexivity].
Qed.

Lemma splitOn_bar (tail : jsstring) (p : jsstring) (ps : list jsstring) :
  splitOn 0x7C tail = p :: ps -> splitOn 0x7C (0x7C :: tail) = [] :: p :: ps.
Proof. intros H. simpl. now rewrite H. Qed.

(** Splitting the pipe-led readings at the pipes gives an empty first piece
    and then the readings. *)
Lemma splitOn_readingTail (open close : Z) (readings : list jsstring) :
  readings <> [] ->
  Forall (PlainText open close) readings ->
  splitOn 0x7C (readingTail readings) = [] :: readings.
Proof.
  intros Hne Hall. induction Hall as [| r rs [Hr Hp] Hall IH]; [contradiction |].
  unfold readingTail. simpl. fold (readingTail rs).
  assert (Hnb : Forall (fun u => u <> 124) r).
  { eapply Forall_impl; [| exact Hp]. intros u. apply plain_is_not_bar. }
  destruct rs as [| r' rs'].
  - unfold readingTail. simpl.
    rewrite (splitOn_plain r [] [] Hnb); [reflexivity | right; auto].
  - rewrite (splitOn_plain r (r' :: rs') _ Hnb); [reflexivity |].
    left. apply IH. discriminate.
Qed.

Section RoundTrip.

Variables open close : Z.
Hypothesis close_not_bar : close <> 0x7C.
Variable b : jsstring.
Variable readings : list jsstring.

Lemma class_is_plain (u : Z) :
  inClass true [(open, open); (close, close); (0x7C, 0x7C); (0x0D, 0x0D); (0x0A, 0x0A)] u
  = plainUnit open close u.
Proof. reflexivity. Qed.

(** A greedy [+] over pipe-led readings takes them all. *)
Lemma readings_run (s : jsstring) (k : Cont) :
  forall rds i fuel first c res rest,
    rds <> [] ->
    Forall (PlainText open close) rds ->
    skipn i s = readingTail rds ++ rest ->
    match rest with
    | [] => True
    | u :: _ => plainUnit open close u = false /\ u <> 0x7C
    end ->
    (length rds <= S fuel)%nat ->
    k (i + length (readingTail rds))%nat c = Some res ->
    iterate (rmatch (pipeReading open close) s) k fuel first i c = Some res.
Proof.
  induction rds as [| r rs IH];
    intros i fuel first c res rest Hne Hall Hs Hr Hl Hk; [contradiction |].
  inversion Hall as [| ? ? [Hrne Hrp] Hall']; subst.
  unfold readingTail in Hs. simpl in Hs. fold (readingTail rs) in Hs.
  apply skipn_cons_nth in Hs. destruct Hs as [Hbar Hs].
  rewrite <- app_assoc in Hs.
  (* one iteration: the pipe, then the run [r] *)
  assert (Hbody : forall K res',
             K (S i + length r)%nat c = Some res' ->
             rmatch (pipeReading open close) s i c K = Some res').
  { intros K res' HK. unfold pipeReading. cbn [rmatch]. rewrite Hbar, Z.eqb_refl.
    apply (plus_class_run _ _ s K r (S i) (length s) true c res'
             (readingTail rs ++ rest)).
    - exact Hrne.
    - exact Hs.
    - exact Hrp.
    - destruct rs as [| r' rs'].
      + simpl. destruct rest; [exact I | apply Hr].
      + unfold readingTail. simpl. apply plain_not_bar.
    - assert (Hlen : length (skipn (S i) s) = length (r ++ readingTail rs ++ rest))
        by now rewrite Hs.
      rewrite length_skipn, length_app in Hlen. lia.
    - exact HK. }
  assert (Hpos : (i + length (readingTail (r :: rs)))%nat
                 = (S i + length r + length (readingTail rs))%nat).
  { unfold readingTail. simpl. rewrite length_app. lia. }
  rewrite Hpos in Hk.
  assert (Hneq : Nat.eqb (S i + length r) i = false) by (apply Nat.eqb_neq; lia).
  assert (Hnext : skipn (S i + length r) s = readingTail rs ++ rest).
  { replace (S i + length r)%nat with (length r + S i)%nat by lia.
    rewrite <- skipn_skipn, Hs, skipn_app, skipn_all, Nat.sub_diag. reflexivity. }
  destruct rs as [| r' rs'].
  - (* the last reading: one more iteration finds no pipe *)
    change (readingTail []) with (@nil Z) in Hk, Hnext.
    cbn [length app] in Hk, Hnext. rewrite Nat.add_0_r in Hk.
    assert (Hstop : forall fuel',
               iterate (rmatch (pipeReading open close) s) k fuel' false (S i + length r) c = None).
    { intros fuel'.
      assert (Hb : forall K, rmatch (pipeReading open close) s (S i + length r) c K = None).
      { intros K. unfold pipeReading. cbn [rmatch].
        destruct rest as [| u rest'].
        - now rewrite (skipn_nil_nth _ _ Hnext).
        - apply skipn_cons_nth in Hnext. destruct Hnext as [-> _].
          destruct Hr as [_ Hu]. destruct (Z.eqb_spec u 124); [contradiction |].
          reflexivity. }
      destruct fuel'; cbn [iterate]; apply Hb. }
    destruct fuel as [| fuel]; cbn [iterate]; apply Hbody; rewrite Hneq, andb_false_r.
    + exact Hk.
    + rewrite Hstop. exact Hk.
  - destruct fuel as [| fuel]; [simpl in Hl; lia |].
    cbn [iterate]. apply Hbody. rewrite Hneq, andb_false_r.
    rewrite (IH (S i + length r)%nat fuel false c res rest); auto.
    + discriminate.
    + simpl in Hl |- *. lia.
Qed.

Hypothesis base_plain : PlainText open close b.
Hypothesis readings_some : readings <> [].
Hypothesis readings_plain : Forall (PlainText open close) readings.

Lemma markup_length :
  length (markup open close b readings)
  = S (S (length b) + length (readingTail readings)).
Proof. unfold markup. simpl. rewrite !length_app. simpl. lia. Qed.

Lemma readingTail_starts_with_bar :
  exists t, readingTail readings = 0x7C :: t.
Proof.
  destruct readings as [| r rs]; [contradiction |].
  unfold readingTail. simpl. eauto.
Qed.

Lemma markup_matchAt :
  matchAt (manualPattern open close) (markup open close b readings) 0
  = Some (length (markup open close b readings), (markupCaptures b readings)).
Proof.
  set (s := markup open close b readings).
  destruct base_plain as [Hbne Hbp].
  destruct readingTail_starts_with_bar as (t & Ht).
  assert (Hs1 : skipn 1 s = b ++ readingTail readings ++ [close]) by reflexivity.
  assert (Hs2 : skipn (S (length b)) s = readingTail readings ++ [close]).
  { replace (S (length b)) with (length b + 1)%nat by lia.
    rewrite <- skipn_skipn, Hs1, skipn_app, skipn_all, Nat.sub_diag. reflexivity. }
  assert (Hs3 : skipn (S (length b) + length (readingTail readings)) s = [close]).
  { replace (S (length b) + length (readingTail readings))%nat
      with (length (readingTail readings) + S (length b))%nat by lia.
    rewrite <- skipn_skipn, Hs2, skipn_app, skipn_all, Nat.sub_diag. reflexivity. }
  apply skipn_cons_nth in Hs3. destruct Hs3 as [Hclose _].
  unfold matchAt, manualPattern. cbn [rmatch].
  change (nth_error s 0) with (Some open). cbv beta iota. rewrite Z.eqb_refl.
  apply (plus_class_run _ _ s _ b 1 (length s) true [] _
           (readingTail readings ++ [close])).
  - exact Hbne.
  - exact Hs1.
  - exact Hbp.
  - rewrite Ht. simpl. apply plain_not_bar.
  - unfold s. rewrite markup_length. lia.
  - cbn beta. change (1 + length b)%nat with (S (length b)).
    apply (readings_run s _ readings (S (length b)) (length s) true _ _ [close]).
    + exact readings_some.
    + exact readings_plain.
    + exact Hs2.
    + split; [apply plain_not_close | exact close_not_bar].
    + unfold s. rewrite markup_length.
      assert (length readings <= length (readingTail readings))%nat; [| lia].
      clear. unfold readingTail. induction readings as [| r rs IH]; simpl; [lia |].
      rewrite length_app. lia.
    + cbn beta. cbn [rmatch]. rewrite Hclose, Z.eqb_refl.
      unfold markupCaptures, s. rewrite markup_length. reflexivity.
Qed.

Lemma markup_exec_first :
  exec (mkRegExp (manualPattern open close) true 0) (markup open close b readings)
  = (Some (markupMatch open close b readings),
     mkRegExp (manualPattern open close) true
       (Z.of_nat (length (markup open close b readings)))).
Proof.
  unfold exec, search. cbn [global source lastIndex Z.to_nat].
  destruct (Nat.ltb_spec (length (markup open close b readings)) 0); [lia |].
  rewrite Nat.sub_0_r.
  assert (Hs : forall n, searchFrom n (manualPattern open close)
                           (markup open close b readings) 0 = Some (markupMatch open close b readings)).
  { intros n. destruct n; cbn [searchFrom]; rewrite markup_matchAt; reflexivity. }
  rewrite Hs. reflexivity.
Qed.

Lemma markup_exec_second :
  exec (mkRegExp (manualPattern open close) true
          (Z.of_nat (length (markup open close b readings))))
       (markup open close b readings)
  = (None, mkRegExp (manualPattern open close) true 0).
Proof.
  unfold exec, search. cbn [global source lastIndex]. rewrite Nat2Z.id.
  rewrite Nat.ltb_irrefl, Nat.sub_diag. cbn [searchFrom].
  unfold matchAt, manualPattern. cbn [rmatch].
  assert (Hn : nth_error (markup open close b readings)
                         (length (markup open close b readings)) = None)
    by (apply nth_error_None; lia).
  rewrite Hn. reflexivity.
Qed.

Lemma markup_groups :
  whole (markupMatch open close b readings) = markup open close b readings /\
  group (markupMatch open close b readings) 1 = Some b /\
  readingParts (markupMatch open close b readings) = readings.
Proof.
  assert (Hmid : forall (pre mid post : jsstring),
             substring (pre ++ mid ++ post) (length pre) (length pre + length mid)
             = mid).
  { intros pre mid post. unfold substring.
    rewrite skipn_app, skipn_all, Nat.sub_diag. simpl.
    replace (length pre + length mid - length pre)%nat with (length mid) by lia.
    rewrite firstn_app, firstn_all, Nat.sub_diag. simpl. apply app_nil_r. }
  assert (H1 : substring (markup open close b readings) 1 (S (length b)) = b).
  { exact (Hmid [open] b (readingTail readings ++ [close])). }
  assert (H2 : substring (markup open close b readings) (S (length b))
                 (S (length b) + length (readingTail readings))
               = readingTail readings).
  { pose proof (Hmid (open :: b) (readingTail readings) [close]) as H.
    unfold markup. simpl in H |- *. exact H. }
  unfold whole, group, readingParts, group, markupMatch, markupCaptures.
  cbn [m_input m_index m_end m_caps getCap Nat.eqb].
  rewrite H1, H2. split; [| split; [reflexivity |]].
  - unfold substring. rewrite Nat.sub_0_r. cbn [skipn]. apply firstn_all.
  - cbn [orEmpty].
    rewrite (splitOn_readingTail open close readings readings_some readings_plain).
    reflexivity.
Qed.

Lemma markup_matchAll :
  matchAll (markup open close b readings) (newRegExp (manualPattern open close) true)
  = Ok [(markupMatch open close b readings)].
Proof.
  unfold matchAll, newRegExp. cbn [global source lastIndex]. f_equal.
  cbn [matchAllLoop]. rewrite markup_exec_first.
  assert (Hne : Nat.eqb (m_end (markupMatch open close b readings)) (m_index (markupMatch open close b readings)) = false).
  { apply Nat.eqb_neq. unfold markupMatch. cbn [m_end m_index].
    rewrite markup_length. lia. }
  rewrite Hne. f_equal.
  rewrite markup_length. cbn [matchAllLoop]. rewrite <- markup_length.
  rewrite markup_exec_second. reflexivity.
Qed.

End RoundTrip.

Lemma brackets_pattern (style : NotationStyle) (open close : Z) :
  bracketsOf style = Some (open, close) ->
  getManualRegex style = newRegExp (manualPattern open close) true /\
  close <> 0x7C /\ isWhiteSpace open = false /\ isWhiteSpace close = false /\
  open <> 0x60.
Proof.
  destruct style; simpl; intros H; try discriminate; injection H as <- <-;
    repeat split; try reflexivity; discriminate.
Qed.

(** X9. A manual override written with the brackets of the style, a base
    and at least one reading, all free of brackets, pipes and line breaks,
    is found as exactly one match, the whole text, and reads back as the
    same base and the same readings. *)
Theorem manual_markup_round_trip (style : NotationStyle) (open close : Z)
    (b : jsstring) (readings : list jsstring) :
  bracketsOf style = Some (open, close) ->
  PlainText open close b ->
  readings <> [] ->
  Forall (PlainText open close) readings ->
  exists m,
    matchAll (markup open close b readings) (getManualRegex style) = Ok [m] /\
    index m = 0 /\
    whole m = markup open close b readings /\
    group m 1 = Some b /\
    readingParts m = readings.
Proof.
  intros Hbr Hb Hne Hrs.
  destruct (brackets_pattern style open close Hbr) as (-> & Hcb & _).
  exists (markupMatch open close b readings).
  destruct (markup_groups open close b readings Hne Hrs) as (Hw & Hg & Hp).
  split; [apply markup_matchAll; assumption |].
  split; [reflexivity |]. auto.
Qed.

Section RoundTripModes.

Variable hira : jsstring -> jsstring.
Variable getTokenizer : option (jsstring -> list KuromojiToken).


(** X11. In Live Preview such an override alone on a line, with no
    selection, becomes one entry over the whole line; its widget carries
    the readings as written, beside the base as one chunk when there is one
    reading and unit by unit otherwise. *)
Theorem buildDecorations_markup (style : NotationStyle) (st : Store)
    (open close : Z) (b : jsstring) (readings : list jsstring) :
  bracketsOf style = Some (open, close) ->
  PlainText open close b ->
  readings <> [] ->
  Forall (PlainText open close) readings ->
  let t := markup open close b readings in
  buildDecorations hira getTokenizer style st (Sample.oneLine t [])
  = Ok [mkEntry (mkRange 0 (slen t))
          (mkWidget (if Nat.eqb (length readings) 1 then [b] else splitChars b)
                    readings)
          Manual].
Proof.
  intros Hbr Hb Hne Hrs t.
  destruct (brackets_pattern style open close Hbr) as (Hre & Hcb & Hwo & Hwc & Hfo).
  destruct (markup_groups open close b readings Hne Hrs) as (Hw & Hg & Hp).
  set (l := mkLine 0 (slen t) 1 t).
  (* the one line is decorated with the one manual entry *)
  assert (Hline : lineDecorations hira getTokenizer style st [] l
                  = Ok [mkEntry (mkRange 0 (slen t))
                          (mkWidget (if Nat.eqb (length readings) 1 then [b]
                                     else splitChars b) readings) Manual]).
  { unfold lineDecorations. cbn [text l].
    rewrite Hre. unfold t.
    rewrite (markup_matchAll open close Hcb b readings Hb Hne Hrs). cbn [bind].
    cbn [foldRes]. unfold manualStep.
    rewrite Hw, Hg, Hp. cbn [inSelection existsb line_from l bind].
    change (index (markupMatch open close b readings)) with 0.
    rewrite !Z.add_0_l. fold t.
    destruct (matchAll t (getAutoRegex st)) as [auts | e] eqn:Ea;
      [| discriminate Ea].
    cbn [bind app]. f_equal.
    pose proof (matchAll_chained _ _ _ Ea) as Hch. apply Chained_placed in Hch.
    destruct (auto_fold_spec hira getTokenizer [] l [(0, slen t)]
                (source (getAutoRegex st)) _ eq_refl auts
                [mkEntry (mkRange 0 (slen t))
                          (mkWidget (if Nat.eqb (length readings) 1 then [b]
                                     else splitChars b) readings) Manual] Hch)
      as (added & Hf & Hsp & _).
    rewrite Hf.
    assert (Hnil : filter (keepAuto [] [(0, slen t)] l) (map (matchRange l) auts) = []).
    { clear Hf Hsp added Ea. induction Hch as [| a auts Ha _ IH]; [reflexivity |].
      cbn [map filter]. rewrite IH.
      pose proof (placed_within _ _ _ a l eq_refl Ha) as [Hlo Hhi].
      pose proof (placed_nonempty (source (getAutoRegex st)) _ _ a l eq_refl Ha) as Hn.
      unfold keepAuto, coveredBy, rangesOverlap. cbn [existsb fst snd inSelection].
      cbn [line_from l text] in Hlo, Hhi. unfold NonEmpty in Hn.
      destruct (Z.ltb_spec 0 (to (matchRange l a))); [| lia].
      destruct (Z.ltb_spec (from (matchRange l a)) (slen t)); [| lia].
      reflexivity. }
    rewrite Hnil in Hsp. destruct added; [| discriminate]. reflexivity. }
  unfold buildDecorations, Sample.oneLine.
  cbn [visibleRanges foldRes]. unfold rangeStep. cbn [doc from to].
  assert (Hat0 : lineAt [t] 0 = Ok l).
  { unfold lineAt. cbn [lineAtFrom Z.ltb Z.compare].
    destruct (Z.leb_spec 0 (0 + slen t)); [reflexivity | unfold slen in *; lia]. }
  assert (Hat1 : lineAt [t] (slen t) = Ok l).
  { unfold lineAt. destruct (Z.ltb_spec (slen t) 0); [unfold slen in *; lia |].
    cbn [lineAtFrom]. rewrite Z.add_0_l, Z.leb_refl. reflexivity. }
  rewrite Hat0, Hat1. cbn [bind number l].
  change (lineNumbers 1 1) with [1]. cbn [foldRes].
  unfold lineStep. cbn [doc selection].
  change (docLine [t] 1) with (Ok l). cbn [bind text l].
  assert (Htrim : startsWith (trim t) fenceMarker = false).
  { assert (Ht1 : trimStart t = t) by (unfold t, markup; simpl; now rewrite Hwo).
    assert (Ht2 : trimStart (rev t) = rev t).
    { unfold t, markup. rewrite app_comm_cons, app_assoc, rev_app_distr.
      simpl. now rewrite Hwc. }
    unfold trim. rewrite Ht1, Ht2, rev_involutive.
    unfold t, markup, fenceMarker. simpl.
    destruct (Z.eqb_spec open 96); [contradiction | reflexivity]. }
  rewrite Htrim. cbn [negb]. fold l. rewrite Hline. reflexivity.
Qed.

End RoundTripModes.

Lemma manual_markup_round_trip_witness :
  exists m,
    matchAll Sample.kanji_kan_ji (getManualRegex curly) = Ok [m] /\
    index m = 0 /\
    whole m = Sample.kanji_kan_ji /\
    group m 1 = Some [0x6F22; 0x5B57] /\
    readingParts m = [[0x304B; 0x3093]; [0x3058]].
Proof.
  refine (manual_markup_round_trip curly 0x7B 0x7D [0x6F22; 0x5B57]
            [[0x304B; 0x3093]; [0x3058]] eq_refl _ _ _).
  - split; [discriminate | repeat constructor].
  - discriminate.
  - repeat constructor; discriminate.
Defined.


Lemma buildDecorations_markup_witness :
  buildDecorations Sample.keep None square initialStore
    (Sample.oneLine [0x5B; 0x6F22; 0x5B57; 0x4F53; 0x7C; 0x304B; 0x3093; 0x7C; 0x3058; 0x5D] [])
  = Ok [mkEntry (mkRange 0 10)
          (mkWidget [[0x6F22]; [0x5B57]; [0x4F53]] [[0x304B; 0x3093]; [0x3058]])
          Manual].
Proof.
  refine (buildDecorations_markup Sample.keep None square initialStore 0x5B 0x5D
            [0x6F22; 0x5B57; 0x4F53] [[0x304B; 0x3093]; [0x3058]] eq_refl _ _ _).
  - split; [discriminate | repeat constructor].
  - discriminate.
  - repeat constructor; discriminate.
Defined.

(* ------------------------------------------------------------------ *)
(** * The Live Preview pass, line by line *)
(* ------------------------------------------------------------------ *)

Lemma lineAtFrom_line : forall ls n0 start pos l,
  lineAtFrom ls n0 start pos = Ok l -> lineFrom ls n0 start (number l) = Ok l.
Proof.
  induction ls as [| t ls IH]; intros n0 start pos l H; simpl in H;
    [discriminate |].
  simpl. destruct (pos <=? start + slen t).
  - injection H as <-. simpl. rewrite Z.eqb_refl. reflexivity.
  - pose proof (lineAtFrom_number _ _ _ _ _ H) as Hn.
    destruct (Z.eqb_spec n0 (number l)); [lia |]. apply IH with pos, H.
Qed.

(** The line [lineAt] finds is the line of its number. *)
Lemma lineAt_line d pos l : lineAt d pos = Ok l -> docLine d (number l) = Ok l.
Proof.
  unfold lineAt, docLine. destruct (pos <? 0); [discriminate |].
  apply lineAtFrom_line.
Qed.

Lemma lineNumbers_head first last :
  first <= last ->
  exists rest, lineNumbers first last = first :: rest.
Proof.
  intros H. unfold lineNumbers.
  destruct (Z.to_nat (last - first + 1)) as [| k] eqn:E; [lia |].
  cbn [seq map]. rewrite Z.add_0_r. eauto.
Qed.



Section PassShape.

Variable hira : jsstring -> jsstring.
Variable getTokenizer : option (jsstring -> list KuromojiToken).
Variable style : NotationStyle.
Variable st : Store.
Variable v : EditorView.

(** One line: the flag is toggled by a fence line, and the line adds its
    decorations when the flag is off. *)
Lemma lineStep_shape fence added n fence' added' :
  lineStep hira getTokenizer style st v (fence, added) n = Ok (fence', added') <->
  (exists l, docLine (doc v) n = Ok l) /\
  fence' = xorb fence (fenceLine (doc v) n) /\
  (if fence' then added' = added
   else exists o, LineOutput hira getTokenizer style st v n o /\
                  added' = added ++ o).
Proof.
  unfold lineStep, fenceLine, LineOutput.
  destruct (docLine (doc v) n) as [l | e]; cbn [bind].
  - assert (Hx : (if startsWith (trim (text l)) fenceMarker
                  then negb fence else fence)
                 = xorb fence (startsWith (trim (text l)) fenceMarker)).
    { destruct (startsWith (trim (text l)) fenceMarker), fence; reflexivity. }
    rewrite Hx.
    destruct (xorb fence (startsWith (trim (text l)) fenceMarker)) eqn:Ef.
    + split.
      * intros H. injection H as <- <-. split; [eauto |]. split; reflexivity.
      * intros (_ & -> & ->). reflexivity.
    + split.
      * intros H.
        destruct (lineDecorations hira getTokenizer style st (selection v) l)
          as [o | e] eqn:Ed; cbn [bind] in H; [| discriminate].
        injection H as <- <-. split; [eauto |]. split; [reflexivity |].
        exists o. split; [| reflexivity]. exists l. auto.
      * intros (_ & -> & o & (l' & Hl' & Ho) & ->).
        injection Hl' as <-. rewrite Ho. reflexivity.
  - split; [discriminate |]. intros ((l & Hl) & _). discriminate.
Qed.

Lemma lines_decompose : forall ns fence added fence' added',
  foldRes (lineStep hira getTokenizer style st v) ns (fence, added)
  = Ok (fence', added') ->
  Forall (fun n => exists l, docLine (doc v) n = Ok l) ns /\
  exists outs,
    Forall2 (LineOutput hira getTokenizer style st v)
            (openLines (doc v) fence ns) outs /\
    added' = added ++ concat outs.
Proof.
  induction ns as [| n ns IH]; intros fence added fence' added' H;
    cbn [foldRes] in H.
  - injection H as <- <-. split; [constructor |].
    exists []. split; [constructor |]. simpl. now rewrite app_nil_r.
  - destruct (lineStep hira getTokenizer style st v (fence, added) n)
      as [[f1 a1] | e] eqn:E; cbn [bind] in H; [| discriminate].
    apply lineStep_shape in E. destruct E as (Hl & Hf & Ha).
    apply IH in H. destruct H as (Hall & outs & Hout & ->).
    split; [constructor; assumption |].
    cbn [openLines]. rewrite <- Hf.
    destruct f1.
    + subst a1. exists outs. auto.
    + destruct Ha as (o & Ho & ->). exists (o :: outs).
      split; [constructor; assumption |].
      simpl. now rewrite app_assoc.
Qed.


(** The pass over the ranges is the pass over the lines they visit. *)
Lemma ranges_visit : forall vrs state state',
  foldRes (rangeStep hira getTokenizer style st v) vrs state = Ok state' <->
  exists ns,
    visitedLines (doc v) vrs = Ok ns /\
    foldRes (lineStep hira getTokenizer style st v) ns state = Ok state'.
Proof.
  induction vrs as [| vr vrs IH]; intros state state'; cbn [foldRes visitedLines].
  - split.
    + intros H. exists []. auto.
    + intros (ns & Hns & H). injection Hns as <-. exact H.
  - unfold rangeStep at 1.
    destruct (lineAt (doc v) (from vr)) as [first | e]; cbn [bind];
      [| split; [discriminate | intros (ns & Hns & _); discriminate]].
    destruct (lineAt (doc v) (to vr)) as [last | e]; cbn [bind];
      [| split; [discriminate | intros (ns & Hns & _); discriminate]].
    split.
    + intros H.
      destruct (foldRes (lineStep hira getTokenizer style st v)
                  (lineNumbers (number first) (number last)) state)
        as [s1 | e] eqn:E; cbn [bind] in H; [| discriminate].
      apply IH in H. destruct H as (ns & -> & H). cbn [bind].
      eexists. split; [reflexivity |].
      rewrite foldRes_app, E. exact H.
    + intros (ns & Hns & H).
      destruct (visitedLines (doc v) vrs) as [rest | e]; cbn [bind] in Hns;
        [| discriminate].
      injection Hns as <-. rewrite foldRes_app in H.
      destruct (foldRes (lineStep hira getTokenizer style st v)
                  (lineNumbers (number first) (number last)) state)
        as [s1 | e]; cbn [bind] in *; [| discriminate].
      apply IH. eauto.
Qed.

Lemma buildDecorations_lines (out : list Entry) :
  buildDecorations hira getTokenizer style st v = Ok out ->
  exists ns outs,
    visitedLines (doc v) (visibleRanges v) = Ok ns /\
    Forall (fun n => exists l, docLine (doc v) n = Ok l) ns /\
    Forall2 (LineOutput hira getTokenizer style st v)
            (openLines (doc v) false ns) outs /\
    out = concat outs.
Proof.
  unfold buildDecorations. intros H.
  destruct (foldRes (rangeStep hira getTokenizer style st v) (visibleRanges v)
              (false, [])) as [[f a] | e] eqn:E; cbn [bind] in H;
    [| discriminate].
  injection H as <-.
  apply ranges_visit in E. destruct E as (ns & Hns & E).
  apply lines_decompose in E. destruct E as (Hall & outs & Hout & ->).
  exists ns, outs. auto.
Qed.

(** What holds of the entries of every decorated line holds of the
    entries of the pass. *)
Lemma pass_forall (P : Entry -> Prop) :
  (forall n l toAdd,
     docLine (doc v) n = Ok l ->
     lineDecorations hira getTokenizer style st (selection v) l = Ok toAdd ->
     Forall P toAdd) ->
  forall out,
    buildDecorations hira getTokenizer style st v = Ok out -> Forall P out.
Proof.
  intros HP out H. apply buildDecorations_lines in H.
  destruct H as (ns & outs & _ & _ & Hout & ->).
  induction Hout as [| n o ns' outs' (l & Hl & Ho) _ IH]; simpl; [constructor |].
  apply Forall_app. split; [eapply HP; eauto | exact IH].
Qed.


(** X13. Every entry of the pass replaces a non-empty stretch of text
    that lies within one line of the document. *)
Theorem buildDecorations_entries_in_lines (out : list Entry) :
  buildDecorations hira getTokenizer style st v = Ok out ->
  Forall (fun e =>
            from (span e) < to (span e) /\
            exists n l, docLine (doc v) n = Ok l /\
                        line_from l <= from (span e) /\
                        to (span e) <= line_to l) out.
Proof.
  apply pass_forall. intros n l toAdd Hl Hd.
  apply lineDecorations_chain in Hd. destruct Hd as (_ & _ & Hw).
  eapply Forall_impl; [| exact Hw].
  intros e ([Hlo Hhi] & Hn). split; [exact Hn |].
  exists n, l. split; [exact Hl |].
  unfold docLine in Hl. apply lineFrom_spec in Hl. lia.
Qed.

Hypothesis faithful : Faithful getTokenizer.




End PassShape.

(* ------------------------------------------------------------------ *)
(** * Live Preview with the notation switched off *)
(* ------------------------------------------------------------------ *)

Section StyleNone.

Variable hira : jsstring -> jsstring.
Variable getTokenizer : option (jsstring -> list KuromojiToken).
Variable st : Store.

(** [getManualRegex('none')] has no [g] flag, and [matchAll] refuses it. *)
Lemma lineDecorations_none (selections : list Range) (l : Line) :
  lineDecorations hira getTokenizer none st selections l = Err TypeError.
Proof. reflexivity. Qed.

(** X15. With the notation switched off the pass never returns a
    decoration: whatever it returns is the empty sequence. *)
Theorem none_style_never_decorates (v : EditorView) (out : list Entry) :
  buildDecorations hira getTokenizer none st v = Ok out -> out = [].
Proof.
  intros H. apply buildDecorations_lines in H.
  destruct H as (ns & outs & _ & _ & Hout & ->).
  destruct Hout as [| n o ns' outs' (l & _ & Ho) _]; [reflexivity |].
  rewrite lineDecorations_none in Ho. discriminate.
Qed.

(** X16. With the notation switched off the pass raises a [TypeError]
    as soon as the first line it visits does not start a fence. *)
Theorem none_style_raises_outside_fence (v : EditorView) (vr : Range)
    (rest : list Range) (first last : Line) :
  visibleRanges v = vr :: rest ->
  lineAt (doc v) (from vr) = Ok first ->
  lineAt (doc v) (to vr) = Ok last ->
  number first <= number last ->
  startsWith (trim (text first)) fenceMarker = false ->
  buildDecorations hira getTokenizer none st v = Err TypeError.
Proof.
  intros Hv Hf Hl Hle Hfence.
  unfold buildDecorations. rewrite Hv. cbn [foldRes].
  unfold rangeStep at 1. rewrite Hf, Hl. cbn [bind].
  destruct (lineNumbers_head _ _ Hle) as (ns & ->). cbn [foldRes].
  unfold lineStep at 1. rewrite (lineAt_line _ _ _ Hf). cbn [bind].
  rewrite Hfence. cbn [negb]. rewrite lineDecorations_none. reflexivity.
Qed.

End StyleNone.

Lemma buildDecorations_entries_in_lines_witness :
  Forall (fun e =>
            from (span e) < to (span e) /\
            exists n l, docLine [Sample.two_spans] n = Ok l /\
                        line_from l <= from (span e) /\
                        to (span e) <= line_to l)
    [mkEntry (mkRange 0 2) (mkWidget [[0x6F22; 0x5B57]] [[0x6F22; 0x5B57]]) Automatic;
     mkEntry (mkRange 3 5) (mkWidget [[0x304B; 0x306A]] [[0x304B; 0x306A]]) Automatic].
Proof.
  apply (buildDecorations_entries_in_lines Sample.keep None curly initialStore
           (Sample.oneLine Sample.two_spans [])).
  vm_compute. reflexivity.
Defined.


Lemma none_style_never_decorates_witness :
  buildDecorations Sample.keep None none initialStore
    (mkView [fenceMarker; Sample.two_spans] [] [mkRange 0 9]) = Ok [] /\
  @nil Entry = [].
Proof.
  split; [vm_compute; reflexivity |].
  apply (none_style_never_decorates Sample.keep None initialStore
           (mkView [fenceMarker; Sample.two_spans] [] [mkRange 0 9])).
  vm_compute. reflexivity.
Defined.

Lemma none_style_raises_outside_fence_witness :
  buildDecorations Sample.keep None none initialStore
    (Sample.oneLine Sample.two_spans [])
  = Err TypeError.
Proof.
  apply (none_style_raises_outside_fence Sample.keep None initialStore
           (Sample.oneLine Sample.two_spans []) (mkRange 0 5) []
           (mkLine 0 5 1 Sample.two_spans) (mkLine 0 5 1 Sample.two_spans)).
  - reflexivity.
  - reflexivity.
  - reflexivity.
  - simpl. lia.
  - vm_compute. reflexivity.
Defined.

(* ------------------------------------------------------------------ *)
(** * Inline code spans *)
(* ------------------------------------------------------------------ *)

Lemma backtickWalk_acc : forall rest i open ranges,
  backtickWalk rest i open ranges = ranges ++ backtickWalk rest i open [].
Proof.
  induction rest as [| c rest IH]; intros i open ranges; cbn [backtickWalk].
  - now rewrite app_nil_r.
  - destruct (c =? 0x60); [| apply IH].
    destruct open as [o |]; [| apply IH].
    rewrite IH. rewrite (IH (i + 1) None ([] ++ [(o, i + 1)])).
    now rewrite <- app_assoc.
Qed.

(** The walk pairs the backticks in the order it meets them. *)
Lemma backtickWalk_pairs : forall rest i open,
  backtickWalk rest i open []
  = pairUp (match open with
            | Some o => o :: backtickPositions rest i
            | None => backtickPositions rest i
            end).
Proof.
  induction rest as [| c rest IH]; intros i open; cbn [backtickWalk backtickPositions].
  - destruct open; reflexivity.
  - destruct (c =? 0x60).
    + destruct open as [o |].
      * rewrite backtickWalk_acc, IH. reflexivity.
      * rewrite IH. reflexivity.
    + apply IH.
Qed.

Lemma backtickPositions_in : forall rest i p,
  In p (backtickPositions rest i) <->
  i <= p /\ nth_error rest (Z.to_nat (p - i)) = Some 0x60.
Proof.
  induction rest as [| c rest IH]; intros i p; cbn [backtickPositions].
  - split; [contradiction |]. intros [_ H].
    destruct (Z.to_nat (p - i)); discriminate.
  - assert (Hnext : i + 1 <= p ->
              nth_error (c :: rest) (Z.to_nat (p - i))
              = nth_error rest (Z.to_nat (p - (i + 1)))).
    { intros Hp. replace (Z.to_nat (p - i)) with (S (Z.to_nat (p - (i + 1))))
        by lia. reflexivity. }
    destruct (Z.eqb_spec c 0x60) as [-> | Hc].
    + split.
      * intros [<- | H].
        -- rewrite Z.sub_diag. split; [lia | reflexivity].
        -- apply IH in H. destruct H as [Hp H]. rewrite Hnext by lia.
           split; [lia | exact H].
      * intros [Hp H]. destruct (Z.eq_dec i p) as [-> | Hne]; [left; reflexivity |].
        right. apply IH. rewrite Hnext in H by lia. split; [lia | exact H].
    + rewrite IH. split.
      * intros [Hp H]. rewrite Hnext by lia. split; [lia | exact H].
      * intros [Hp H]. destruct (Z.eq_dec i p) as [-> | Hne].
        -- rewrite Z.sub_diag in H. simpl in H. congruence.
        -- rewrite Hnext in H by lia. split; [lia | exact H].
Qed.

Lemma backtickPositions_sorted : forall rest i,
  StronglySorted Z.lt (backtickPositions rest i).
Proof.
  induction rest as [| c rest IH]; intros i; cbn [backtickPositions];
    [constructor |].
  destruct (c =? 0x60); [| apply IH].
  constructor; [apply IH |].
  rewrite Forall_forall. intros p Hp. apply backtickPositions_in in Hp. lia.
Qed.

Lemma backtickPositions_length : forall rest i,
  length (backtickPositions rest i) = count_occ Z.eq_dec rest 0x60.
Proof.
  induction rest as [| c rest IH]; intros i; cbn [backtickPositions count_occ];
    [reflexivity |].
  destruct (Z.eqb_spec c 0x60); destruct (Z.eq_dec c 0x60); try contradiction;
    simpl; rewrite IH; reflexivity.
Qed.

Lemma backtickPositions_at (s : jsstring) (p : Z) :
  In p (backtickPositions s 0) <-> backtickAt s p.
Proof.
  rewrite backtickPositions_in. unfold backtickAt, charAt. rewrite Z.sub_0_r.
  destruct (Z.ltb_spec p 0); split.
  - lia.
  - discriminate.
  - tauto.
  - auto.
Qed.

Lemma pair_ind (P : list Z -> Prop) :
  P [] -> (forall a, P [a]) -> (forall a b ps, P ps -> P (a :: b :: ps)) ->
  forall ps, P ps.
Proof.
  intros H0 H1 H2 ps.
  assert (H : P ps /\ forall a, P (a :: ps)).
  { induction ps as [| b ps [IH1 IH2]]; [auto |].
    split; [apply IH2 |]. intros a. apply H2, IH1. }
  apply H.
Qed.

Lemma pairUp_length (ps : list Z) :
  length (pairUp ps) = (length ps / 2)%nat.
Proof.
  induction ps as [| a | a b ps IH] using pair_ind; [reflexivity | reflexivity |].
  cbn [pairUp length]. rewrite IH.
  change (S (S (length ps))) with (1 * 2 + length ps)%nat.
  rewrite Nat.div_add_l by discriminate. reflexivity.
Qed.

(** The pairs of an ascending list that holds every position with [B] from
    [lo] on. *)
Lemma pairUp_spec (B : Z -> Prop) : forall ps lo,
  StronglySorted Z.lt ps ->
  (forall p, In p ps <-> lo <= p /\ B p) ->
  Forall (fun r => lo <= fst r /\ fst r + 2 <= snd r /\
                   B (fst r) /\ B (snd r - 1) /\
                   forall i, fst r < i < snd r - 1 -> ~ B i) (pairUp ps) /\
  StronglySorted (fun a b => snd a <= fst b) (pairUp ps) /\
  (forall p, lo <= p -> B p ->
     (exists r, In r (pairUp ps) /\ fst r <= p < snd r) \/
     (Nat.odd (length ps) = true /\ forall q, p < q -> ~ B q)).
Proof.
  induction ps as [| a | a b ps IH] using pair_ind; intros lo Hs Hin.
  - cbn [pairUp]. split; [constructor |]. split; [constructor |].
    intros p Hp HB. destruct (proj2 (Hin p) (conj Hp HB)).
  - cbn [pairUp]. split; [constructor |]. split; [constructor |].
    intros p Hp HB. right. split; [reflexivity |].
    intros q Hq HBq.
    destruct (proj2 (Hin p) (conj Hp HB)) as [<- | []].
    assert (Hlq : lo <= q) by lia.
    destruct (proj2 (Hin q) (conj Hlq HBq)) as [<- | []]. lia.
  - inversion Hs as [| ? ? Hs1 Ha]; subst.
    inversion Hs1 as [| ? ? Hs2 Hb]; subst.
    rewrite Forall_forall in Ha, Hb.
    pose proof (Ha b (or_introl eq_refl)) as Hab.
    destruct (proj1 (Hin a) (or_introl eq_refl)) as [Hlo HBa].
    destruct (proj1 (Hin b) (or_intror (or_introl eq_refl))) as [_ HBb].
    assert (Hin' : forall p, In p ps <-> b + 1 <= p /\ B p).
    { intros p. split.
      - intros Hp. pose proof (Hb p Hp).
        destruct (proj1 (Hin p) (or_intror (or_intror Hp))) as [_ HBp].
        split; [lia | exact HBp].
      - intros [Hp HBp]. assert (Hlp : lo <= p) by lia.
        destruct (proj2 (Hin p) (conj Hlp HBp)) as [<- | [<- | H]];
          [lia | lia | exact H]. }
    destruct (IH (b + 1) Hs2 Hin') as (Hall & Hsort & Hcov).
    cbn [pairUp]. split; [| split].
    + constructor.
      * cbn [fst snd]. replace (b + 1 - 1) with b by lia.
        repeat split; try assumption; try lia.
        intros i Hi HBi. assert (Hli : lo <= i) by lia.
        destruct (proj2 (Hin i) (conj Hli HBi)) as [<- | [<- | H]];
          [lia | lia |].
        pose proof (Hb i H). lia.
      * eapply Forall_impl; [| exact Hall].
        intros r (H1 & H2 & H3 & H4 & H5). repeat split; try assumption; lia.
    + constructor; [exact Hsort |].
      eapply Forall_impl; [| exact Hall]. intros r (H1 & _). cbn [snd]. lia.
    + intros p Hp HBp.
      destruct (Z_lt_le_dec p (b + 1)) as [Hlt | Hge].
      * left. exists (a, b + 1). split; [left; reflexivity |]. cbn [fst snd].
        destruct (proj2 (Hin p) (conj Hp HBp)) as [<- | [<- | H]]; [lia | lia |].
        pose proof (Hb p H). lia.
      * destruct (Hcov p Hge HBp) as [(r & Hr & Hpr) | [Hodd Hlast]].
        -- left. exists r. split; [right; exact Hr | exact Hpr].
        -- right. split; [exact Hodd | exact Hlast].
Qed.

(** X17. The inline code spans of a line pair its backticks in order,
    first with second, third with fourth: there are half as many spans as
    backticks; each starts at a backtick, ends just after the next one and
    holds no other; the spans come in ascending order without overlap; and
    every backtick lies in a span, except the last one when their number is
    odd, which opens no span. *)
Theorem inlineBacktickRanges_pairs (s : jsstring) :
  let rs := inlineBacktickRanges s in
  length rs = Nat.div (count_occ Z.eq_dec s 0x60) 2 /\
  Forall (fun r => 0 <= fst r /\ fst r + 2 <= snd r <= slen s /\
                   backtickAt s (fst r) /\ backtickAt s (snd r - 1) /\
                   forall i, fst r < i < snd r - 1 -> ~ backtickAt s i) rs /\
  StronglySorted (fun a b => snd a <= fst b) rs /\
  (forall p, backtickAt s p ->
     (exists r, In r rs /\ fst r <= p < snd r) \/
     (Nat.odd (count_occ Z.eq_dec s 0x60) = true /\
      forall q, p < q -> ~ backtickAt s q)).
Proof.
  intros rs. subst rs. unfold inlineBacktickRanges.
  rewrite backtickWalk_pairs.
  assert (Hin : forall p, In p (backtickPositions s 0) <-> 0 <= p /\ backtickAt s p).
  { intros p. rewrite backtickPositions_at. split; [| tauto].
    intros H. split; [| exact H].
    unfold backtickAt, charAt in H. destruct (Z.ltb_spec p 0); [discriminate | lia]. }
  destruct (pairUp_spec (backtickAt s) _ 0 (backtickPositions_sorted s 0) Hin)
    as (Hall & Hsort & Hcov).
  split; [now rewrite pairUp_length, backtickPositions_length |].
  split; [| split].
  - eapply Forall_impl; [| exact Hall].
    intros r (H1 & H2 & H3 & H4 & H5). repeat split; try assumption; try lia.
    unfold backtickAt, charAt in H4.
    destruct (snd r - 1 <? 0); [discriminate |].
    assert (Hlt : (Z.to_nat (snd r - 1) < length s)%nat)
      by (apply nth_error_Some; congruence).
    unfold slen. lia.
  - exact Hsort.
  - intros p HB. rewrite <- backtickPositions_length with (i := 0).
    apply Hcov; [| exact HB].
    apply (proj1 (Hin p)), backtickPositions_at, HB.
Qed.

(* ------------------------------------------------------------------ *)
(** * The widget's DOM *)
(* ------------------------------------------------------------------ *)

Lemma matchAt_class (neg : bool) (rs : list (Z * Z)) (s : jsstring) (i : nat) :
  matchAt (Class neg rs) s i
  = match nth_error s i with
    | Some y => if inClass neg rs y then Some (S i, []) else None
    | None => None
    end.
Proof. reflexivity. Qed.

(** A one-class pattern is found exactly when some unit is in the class. *)
Lemma test_class (neg : bool) (rs : list (Z * Z)) (s : jsstring) :
  test (Class neg rs) s = existsb (inClass neg rs) s.
Proof.
  unfold test, exec, newRegExp. cbn [global source].
  pose proof (search_first (Class neg rs) s 0) as H.
  destruct (search (Class neg rs) s 0) as [m |]; cbn [fst].
  - destruct H as (Hm & _). rewrite matchAt_class in Hm.
    destruct (nth_error s (m_index m)) as [y |] eqn:Ey; [| discriminate].
    destruct (inClass neg rs y) eqn:Ec; [| discriminate].
    symmetry. apply existsb_exists. exists y.
    split; [eapply nth_error_In; exact Ey | exact Ec].
  - destruct (existsb (inClass neg rs) s) eqn:E; [| reflexivity].
    apply existsb_exists in E. destruct E as (y & Hy & Hc).
    apply In_nth_error in Hy. destruct Hy as (n & Hn).
    assert (Hlt : (n < length s)%nat) by (apply nth_error_Some; congruence).
    specialize (H n ltac:(lia)). rewrite matchAt_class, Hn, Hc in H.
    discriminate.
Qed.

Lemma leadingRun_prefix (f : Z -> bool) (s : jsstring) :
  firstn (length (leadingRun f s)) s = leadingRun f s.
Proof.
  induction s as [| u s IH]; simpl; [reflexivity |].
  destruct (f u); simpl; [now rewrite IH | reflexivity].
Qed.

(** [KANA_LEAD] finds the leading run of kana, if there is one. *)
Lemma lead_match (s : jsstring) :
  match fst (exec (newRegExp KANA_LEAD false) s) with
  | Some m => whole m
  | None => []
  end = leadingRun kanaLeadUnit s.
Proof.
  unfold exec, newRegExp. cbn [global source].
  assert (H0 : matchAt KANA_LEAD s 0
               = match leadingRun kanaLeadUnit s with
                 | [] => None
                 | (_ :: _) as run => Some (length run, [])
                 end).
  { pose proof (matchAt_plus_class false kanaRanges s 0) as H.
    unfold matchAt in *. unfold KANA_LEAD. cbn [rmatch Nat.eqb].
    cbn [rmatch] in H. cbn [skipn] in H. exact H. }
  assert (Hpos : forall i, (0 < i)%nat -> matchAt KANA_LEAD s i = None).
  { intros i Hi. unfold matchAt, KANA_LEAD. cbn [rmatch].
    destruct i; [lia | reflexivity]. }
  pose proof (search_first KANA_LEAD s 0) as H.
  destruct (search KANA_LEAD s 0) as [m |]; cbn [fst].
  - destruct H as (Hm & Hin & _ & _).
    destruct (m_index m) as [| i] eqn:Ei; [| rewrite Hpos in Hm by lia; discriminate].
    rewrite H0 in Hm. unfold whole, substring. rewrite Ei, Hin. cbn [skipn].
    destruct (leadingRun kanaLeadUnit s) as [| x run] eqn:E; [discriminate |].
    injection Hm as Hend _.
    change (S (length run)) with (length (x :: run)) in Hend.
    rewrite <- Hend, Nat.sub_0_r, <- E. apply leadingRun_prefix.
  - specialize (H 0%nat ltac:(lia)). rewrite H0 in H.
    destruct (leadingRun kanaLeadUnit s); [reflexivity | discriminate].
Qed.

(** A greedy [+] over a class fails when its continuation refuses every
    end inside the run. *)
Lemma plus_class_run_none (neg : bool) (rs : list (Z * Z)) (s : jsstring)
    (k : Cont) :
  forall run i fuel first c rest,
    skipn i s = run ++ rest ->
    Forall (fun u => inClass neg rs u = true) run ->
    match rest with [] => True | u :: _ => inClass neg rs u = false end ->
    (forall j c', (i < j <= i + length run)%nat -> k j c' = None) ->
    iterate (rmatch (Class neg rs) s) k fuel first i c = None.
Proof.
  induction run as [| x run IH]; intros i fuel first c rest Hs Hf Hr Hk.
  - eapply class_iterate_fail; [exact Hs | exact Hr].
  - simpl in Hs. apply skipn_cons_nth in Hs. destruct Hs as [Hx Hs].
    inversion Hf as [| ? ? Hcx Hf']; subst.
    assert (Hstep : forall K, rmatch (Class neg rs) s i c K = K (S i) c).
    { intros K. cbn [rmatch]. now rewrite Hx, Hcx. }
    assert (Hneq : Nat.eqb (S i) i = false) by (apply Nat.eqb_neq; lia).
    assert (Hk1 : k (S i) c = None) by (apply Hk; simpl; lia).
    destruct fuel as [| fuel]; cbn [iterate]; rewrite Hstep, Hneq, andb_false_r.
    + exact Hk1.
    + rewrite (IH (S i) fuel false c rest Hs Hf' Hr); [exact Hk1 |].
      intros j c' Hj. apply Hk. simpl. lia.
Qed.

Lemma matchAtEol_plus_class (neg : bool) (rs : list (Z * Z)) (s : jsstring)
    (i : nat) :
  matchAtEol (Plus (Class neg rs)) s i
  = match leadingRun (inClass neg rs) (skipn i s) with
    | [] => None
    | (_ :: _) as run =>
        if Nat.eqb (i + length run) (length s) then Some (length s, []) else None
    end.
Proof.
  destruct (leadingRun_spec (inClass neg rs) (skipn i s)) as (rest & Hs & Hf & Hr).
  destruct (leadingRun (inClass neg rs) (skipn i s)) as [| x run] eqn:E.
  - unfold matchAtEol. cbn [rmatch]. simpl in Hs.
    eapply class_iterate_fail; [exact Hs | exact Hr].
  - assert (Hlen : (i + length (x :: run) + length rest = length s)%nat).
    { assert (H : length (skipn i s) = length ((x :: run) ++ rest))
        by now rewrite <- Hs.
      rewrite length_skipn, length_app in H.
      assert (length (x :: run) > 0)%nat by (simpl; lia). lia. }
    unfold matchAtEol. cbn [rmatch].
    destruct (Nat.eqb_spec (i + length (x :: run)) (length s)) as [He | Hne].
    + apply (plus_class_run neg rs s _ (x :: run) i (length s) true [] _ rest).
      * discriminate.
      * exact Hs.
      * exact Hf.
      * exact Hr.
      * lia.
      * rewrite He, Nat.eqb_refl. reflexivity.
    + apply (plus_class_run_none neg rs s _ (x :: run) i (length s) true [] rest).
      * exact Hs.
      * exact Hf.
      * exact Hr.
      * intros j c' Hj. destruct (Nat.eqb_spec j (length s)); [lia | reflexivity].
Qed.

Lemma searchEolFrom_first (r : regex) (s : jsstring) : forall n p,
  match searchEolFrom n r s p with
  | Some m =>
      matchAtEol r s (m_index m) = Some (m_end m, m_caps m) /\
      m_input m = s /\ (p <= m_index m <= p + n)%nat /\
      forall i, (p <= i < m_index m)%nat -> matchAtEol r s i = None
  | None => forall i, (p <= i <= p + n)%nat -> matchAtEol r s i = None
  end.
Proof.
  induction n as [| n IH]; intros p; cbn [searchEolFrom];
    destruct (matchAtEol r s p) as [[j c] |] eqn:E.
  - cbn [m_index m_end m_caps m_input]. repeat split; auto; try lia.
  - intros i Hi. replace i with p by lia. exact E.
  - cbn [m_index m_end m_caps m_input]. repeat split; auto; try lia.
  - specialize (IH (S p)). destruct (searchEolFrom n r s (S p)) as [m |].
    + destruct IH as (Hm & Hin & Hb & Hnone). repeat split; auto; try lia.
      intros i Hi. destruct (Nat.eq_dec i p) as [-> | Hne]; [exact E |].
      apply Hnone. lia.
    + intros i Hi. destruct (Nat.eq_dec i p) as [-> | Hne]; [exact E |].
      apply IH. lia.
Qed.

Lemma leadingRun_stop (f : Z -> bool) (a b : jsstring) (u : Z) :
  f u = false ->
  leadingRun f (a ++ u :: b) = leadingRun f a /\
  (length (leadingRun f (a ++ u :: b)) <= length a)%nat.
Proof.
  intros Hu. induction a as [| x a [IH1 IH2]]; simpl.
  - rewrite Hu. auto.
  - rewrite IH1 in *.
    destruct (f x); simpl; split; try reflexivity; lia.
Qed.

Lemma leadingRun_all (f : Z -> bool) (s : jsstring) :
  Forall (fun u => f u = true) s -> leadingRun f s = s.
Proof.
  induction 1 as [| u s Hu _ IH]; simpl; [reflexivity |].
  now rewrite Hu, IH.
Qed.

(** The trailing run and what stands before it. *)
Lemma trailingRun_spec (f : Z -> bool) (s : jsstring) :
  exists pre,
    s = pre ++ trailingRun f s /\
    Forall (fun u => f u = true) (trailingRun f s) /\
    (pre = [] \/ exists pre' u, pre = pre' ++ [u] /\ f u = false).
Proof.
  unfold trailingRun.
  destruct (leadingRun_spec f (rev s)) as (rest & Hs & Hf & Hr).
  exists (rev rest). split; [| split].
  - rewrite <- rev_app_distr, <- Hs. symmetry. apply rev_involutive.
  - apply Forall_rev. exact Hf.
  - destruct rest as [| u rest]; [left; reflexivity |].
    right. exists (rev rest), u. split; [reflexivity | exact Hr].
Qed.

(** [KANA_TAIL] finds the trailing run of kana, if there is one. *)
Lemma tail_match (s : jsstring) :
  match searchEol KANA_TAIL s with
  | Some m => whole m
  | None => []
  end = trailingRun kanaLeadUnit s.
Proof.
  destruct (trailingRun_spec kanaLeadUnit s) as (pre & Hs & Hf & Hpre).
  set (T := trailingRun kanaLeadUnit s) in *.
  assert (Hlen : length s = (length pre + length T)%nat)
    by (rewrite Hs at 1; apply length_app).
  assert (Hbefore : forall i, (i < length pre)%nat ->
            matchAtEol KANA_TAIL s i = None).
  { intros i Hi. destruct Hpre as [-> | (pre' & u & -> & Hu)]; [simpl in Hi; lia |].
    unfold KANA_TAIL. rewrite matchAtEol_plus_class.
    rewrite length_app in Hi. simpl in Hi.
    assert (Hsk : skipn i s = skipn i pre' ++ u :: T).
    { rewrite Hs, <- app_assoc. simpl. rewrite skipn_app.
      replace (i - length pre')%nat with 0%nat by lia. reflexivity. }
    rewrite Hsk.
    destruct (leadingRun_stop kanaLeadUnit (skipn i pre') T u Hu) as [_ Hle].
    fold kanaLeadUnit.
    destruct (leadingRun kanaLeadUnit (skipn i pre' ++ u :: T)) as [| x run];
      [reflexivity |].
    rewrite length_skipn in Hle. rewrite length_app in Hlen. simpl in Hlen.
    destruct (Nat.eqb_spec (i + length (x :: run)) (length s)); [lia | reflexivity]. }
  assert (Hat : matchAtEol KANA_TAIL s (length pre)
                = match T with [] => None | _ :: _ => Some (length s, []) end).
  { unfold KANA_TAIL. rewrite matchAtEol_plus_class. fold kanaLeadUnit.
    assert (Hsk : skipn (length pre) s = T).
    { rewrite Hs at 1. rewrite skipn_app, skipn_all, Nat.sub_diag. reflexivity. }
    rewrite Hsk, (leadingRun_all _ _ Hf).
    destruct T as [| x T']; [reflexivity |].
    rewrite Hlen, Nat.eqb_refl. reflexivity. }
  unfold searchEol.
  pose proof (searchEolFrom_first KANA_TAIL s (length s) 0) as H.
  destruct (searchEolFrom (length s) KANA_TAIL s 0) as [m |].
  - destruct H as (Hm & Hin & Hb & Hnone).
    destruct (Nat.lt_trichotomy (m_index m) (length pre)) as [Hlt | [Heq | Hgt]].
    + rewrite Hbefore in Hm by exact Hlt. discriminate.
    + rewrite Heq, Hat in Hm. destruct T as [| x T'] eqn:ET; [discriminate |].
      injection Hm as Hend _. unfold whole, substring.
      rewrite Hin, Heq, <- Hend.
      assert (Hsk : skipn (length pre) s = x :: T').
      { rewrite Hs at 1. rewrite skipn_app, skipn_all, Nat.sub_diag. reflexivity. }
      rewrite Hsk. apply firstn_all2. rewrite Hlen. simpl. lia.
    + specialize (Hnone (length pre) ltac:(lia)). rewrite Hat in Hnone.
      destruct T as [| x T']; [| discriminate].
      simpl in Hlen. lia.
  - specialize (H (length pre) ltac:(lia)). rewrite Hat in H.
    destruct T; [reflexivity | discriminate].
Qed.

Lemma hasKanji_not_kana (u : Z) : hasKanjiUnit u = true -> kanaLeadUnit u = false.
Proof.
  unfold hasKanjiUnit, kanaLeadUnit, inClass, kanaRanges, inRange.
  cbn [existsb fst snd xorb]. intros H.
  repeat rewrite orb_true_iff in H. repeat rewrite andb_true_iff in H.
  repeat rewrite Z.leb_le in H.
  repeat rewrite orb_false_iff. repeat rewrite andb_false_iff.
  repeat rewrite Z.leb_gt. lia.
Qed.

(** A chunk that holds a unit which is no kana: leading kana, a core that
    starts and ends with other units, trailing kana. *)
Lemma kana_split (f : Z -> bool) (s : jsstring) :
  existsb (fun u => negb (f u)) s = true ->
  exists core,
    s = leadingRun f s ++ core ++ trailingRun f s /\
    (exists u t, core = u :: t /\ f u = false) /\
    (exists t u, core = t ++ [u] /\ f u = false).
Proof.
  intros Hex.
  destruct (leadingRun_spec f s) as (r1 & Hs & Hf & Hr).
  destruct r1 as [| u r1].
  { exfalso. rewrite app_nil_r in Hs. rewrite Hs in Hex.
    apply existsb_exists in Hex. destruct Hex as (x & Hx & Hn).
    rewrite Forall_forall in Hf. rewrite (Hf x Hx) in Hn. discriminate. }
  assert (HT : trailingRun f s = trailingRun f (u :: r1)).
  { unfold trailingRun. rewrite Hs at 1. rewrite rev_app_distr.
    cbn [rev]. rewrite <- app_assoc. cbn [app].
    destruct (leadingRun_stop f (rev r1) (rev (leadingRun f s)) u Hr) as [E1 _].
    destruct (leadingRun_stop f (rev r1) [] u Hr) as [E2 _].
    rewrite E1, <- E2. reflexivity. }
  destruct (trailingRun_spec f (u :: r1)) as (pre & Hs2 & Hf2 & Hpre).
  exists pre. rewrite HT. split; [rewrite <- Hs2; exact Hs |].
  destruct Hpre as [-> | (pre' & w & -> & Hw)].
  - exfalso. simpl in Hs2. rewrite <- Hs2 in Hf2.
    inversion Hf2; subst. congruence.
  - split; [| eauto].
    destruct pre' as [| y pre'']; simpl in Hs2; injection Hs2 as <- _;
      simpl; eauto.
Qed.

Lemma slice_core (l c t : jsstring) :
  slice (l ++ c ++ t) (slen l) (slen (l ++ c ++ t) - slen t) = c.
Proof.
  unfold slen. rewrite !length_app.
  replace (Z.of_nat (length l + (length c + length t)) - Z.of_nat (length t))
    with (Z.of_nat (length l + length c)) by lia.
  rewrite slice_middle by (rewrite ?length_app; lia).
  rewrite skipn_app, skipn_all, Nat.sub_diag. cbn [skipn app].
  replace (length l + length c - length l)%nat with (length c) by lia.
  rewrite firstn_app, firstn_all, Nat.sub_diag. cbn [firstn]. apply app_nil_r.
Qed.

Lemma truthy_nonempty (s : jsstring) : truthy s = true <-> s <> [].
Proof. destruct s; simpl; split; congruence. Qed.

(** The shape of one round on a chunk in which [HAS_KANJI] finds a unit. *)
Lemma chunkChildren_kanji (base reading : jsstring) :
  existsb hasKanjiUnit base = true ->
  exists lead core tail rt,
    base = lead ++ core ++ tail /\
    lead = leadingRun kanaLeadUnit base /\
    tail = trailingRun kanaLeadUnit base /\
    (exists u t, core = u :: t /\ kanaLeadUnit u = false) /\
    (exists t u, core = t ++ [u] /\ kanaLeadUnit u = false) /\
    chunkChildren base reading
    = (if truthy lead then [ChildText lead] else [])
      ++ [ChildRuby core rt]
      ++ (if truthy tail then [ChildText tail] else []) /\
    (reading <> [] -> rt <> []) /\
    exists pre post,
      reading = pre ++ rt ++ post /\
      (pre = [] \/ pre = lead) /\ (post = [] \/ post = tail).
Proof.
  intros Hk.
  assert (Hnk : existsb (fun u => negb (kanaLeadUnit u)) base = true).
  { apply existsb_exists in Hk. destruct Hk as (u & Hu & Hc).
    apply existsb_exists. exists u. split; [exact Hu |].
    now rewrite (hasKanji_not_kana u Hc). }
  destruct (kana_split kanaLeadUnit base Hnk) as (core & Hb & Hhead & Hlast).
  set (lead := leadingRun kanaLeadUnit base) in *.
  set (tail := trailingRun kanaLeadUnit base) in *.
  assert (Hbase : truthy base = true).
  { destruct base; [discriminate Hk | reflexivity]. }
  assert (Hcore : truthy core = true).
  { destruct Hhead as (u & t & -> & _). reflexivity. }
  unfold chunkChildren. rewrite Hbase. cbn [negb].
  unfold HAS_KANJI. rewrite test_class. fold hasKanjiUnit.
  change (existsb (inClass false [(19968, 40959); (63744, 64255)]) base)
    with (existsb hasKanjiUnit base).
  rewrite Hk. cbn [negb].
  rewrite lead_match, tail_match. fold lead tail.
  assert (Hsl : slice base (slen lead) (slen base - slen tail) = core).
  { rewrite Hb at 1 2. apply slice_core. }
  rewrite Hsl, Hcore.
  set (rt1 := if truthy lead && startsWith reading lead
              then sliceFrom reading (slen lead) else reading).
  set (rt2 := if truthy tail && endsWith rt1 tail
              then slice rt1 0 (slen rt1 - slen tail) else rt1).
  set (rt3 := if negb (truthy rt2) then reading else rt2).
  exists lead, core, tail, rt3.
  split; [exact Hb |]. split; [reflexivity |]. split; [reflexivity |].
  split; [exact Hhead |]. split; [exact Hlast |]. split; [reflexivity |].
  assert (H1 : exists pre, reading = pre ++ rt1 /\ (pre = [] \/ pre = lead)).
  { unfold rt1. destruct (truthy lead && startsWith reading lead) eqn:E.
    - apply andb_true_iff in E. destruct E as [_ E].
      exists lead. split; [apply startsWith_split, E | auto].
    - exists []. auto. }
  assert (H2 : exists post, rt1 = rt2 ++ post /\ (post = [] \/ post = tail)).
  { unfold rt2. destruct (truthy tail && endsWith rt1 tail) eqn:E.
    - apply andb_true_iff in E. destruct E as [_ E].
      exists tail. split; [apply endsWith_split, E | auto].
    - exists []. rewrite app_nil_r. auto. }
  destruct H1 as (pre & Hr1 & Hpre). destruct H2 as (post & Hr2 & Hpost).
  split.
  - unfold rt3. destruct rt2; cbn [truthy negb]; [auto | discriminate].
  - unfold rt3. destruct (truthy rt2) eqn:E; cbn [negb].
    + exists pre, post. rewrite <- Hr2. auto.
    + exists [], []. rewrite app_nil_r. auto.
Qed.

Lemma chunkChildren_base (base reading : jsstring) :
  domBase (chunkChildren base reading) = base.
Proof.
  destruct (truthy base) eqn:Hb0;
    [| destruct base; [reflexivity | discriminate]].
  destruct (existsb hasKanjiUnit base) eqn:Hk.
  - destruct (chunkChildren_kanji base reading Hk)
      as (lead & core & tail & rt & Hb & _ & _ & _ & _ & -> & _).
    unfold domBase. rewrite !map_app, !concat_app.
    assert (Ht : forall s, concat (map childBase
                             (if truthy s then [ChildText s] else [])) = s).
    { intros [| x s]; simpl; [reflexivity | now rewrite app_nil_r]. }
    rewrite !Ht. cbn [map concat childBase]. rewrite app_nil_r.
    symmetry. exact Hb.
  - unfold chunkChildren. rewrite Hb0. cbn [negb].
    unfold HAS_KANJI. rewrite test_class.
    change (existsb (inClass false [(19968, 40959); (63744, 64255)]) base)
      with (existsb hasKanjiUnit base).
    rewrite Hk. cbn [negb]. unfold domBase. simpl. apply app_nil_r.
Qed.

Lemma concat_nth_seq (xs : list jsstring) :
  concat (map (fun i => nthOr xs i []) (seq 0 (length xs))) = concat xs.
Proof.
  f_equal. apply nth_error_ext. intros i.
  rewrite nth_error_map, nth_error_seq.
  destruct (Nat.ltb_spec i (length xs)) as [Hlt | Hge]; cbn [option_map].
  - unfold nthOr. simpl. destruct (nth_error xs i) eqn:E; [reflexivity |].
    apply nth_error_None in E. lia.
  - symmetry. apply nth_error_None. exact Hge.
Qed.

(** X18. The widget shows its base chunks and nothing else on the base
    line: the text nodes and the ruby bases of its container, read in
    order, spell the concatenation of the chunks, whatever the readings
    are. *)
Theorem toDOM_shows_base (w : RubyWidget) :
  domBase (toDOM w) = concat (widget_kanji w).
Proof.
  unfold toDOM, domBase.
  rewrite <- (concat_nth_seq (widget_kanji w)).
  generalize (seq 0 (length (widget_kanji w))) as idx.
  induction idx as [| i idx IH]; [reflexivity |].
  cbn [flat_map map concat]. rewrite map_app, concat_app, IH.
  f_equal. apply chunkChildren_base.
Qed.


(** X20. The two renderers disagree on which chunks hold kanji: a chunk
    whose only ideographs are outside [HAS_KANJI], those of Extension A,
    is plain text without a reading in the widget of Live Preview, while
    [makeRuby] of Reading Mode puts the reading over it. *)
Theorem renderers_disagree_outside_HAS_KANJI (base reading : jsstring) :
  hasKanji base = true ->
  existsb hasKanjiUnit base = false ->
  toDOM (mkWidget [base] [reading]) = [ChildText base] /\
  makeRuby [base] [reading] = [(base, reading)].
Proof.
  intros Hk Hn.
  assert (Hb : truthy base = true) by (destruct base; [discriminate Hk | reflexivity]).
  split.
  - unfold toDOM. cbn [widget_kanji widget_furi length seq flat_map nthOr nth_error].
    rewrite app_nil_r. unfold chunkChildren. rewrite Hb. cbn [negb].
    unfold HAS_KANJI. rewrite test_class.
    change (existsb (inClass false [(19968, 40959); (63744, 64255)]) base)
      with (existsb hasKanjiUnit base).
    rewrite Hn. reflexivity.
  - unfold makeRuby. cbn [length Nat.max seq map nthOr nth_error].
    rewrite Hb, Hk. reflexivity.
Qed.


Lemma renderers_disagree_outside_HAS_KANJI_witness :
  toDOM (mkWidget [[0x3400; 0x304B]] [[0x304D; 0x304B]])
  = [ChildText [0x3400; 0x304B]] /\
  makeRuby [[0x3400; 0x304B]] [[0x304D; 0x304B]]
  = [([0x3400; 0x304B], [0x304D; 0x304B])].
Proof.
  apply (renderers_disagree_outside_HAS_KANJI [0x3400; 0x304B] [0x304D; 0x304B]);
    reflexivity.
Defined.

(* ------------------------------------------------------------------ *)
(** * The dictionary installer *)
(* ------------------------------------------------------------------ *)

Lemma streq_eq (a b : jsstring) : streq a b = true <-> a = b.
Proof.
  revert b. induction a as [| x a IH]; intros [| y b]; simpl;
    try (split; [discriminate | discriminate]); [tauto |].
  rewrite andb_true_iff, Z.eqb_eq, IH. split.
  - intros [-> ->]. reflexivity.
  - intros E. injection E as -> ->. auto.
Qed.

Lemma hexDigit_lower (d : Z) : 0 <= d < 16 -> lowerHex (hexDigit d).
Proof.
  intros Hd. unfold hexDigit, lowerHex.
  destruct (Z.ltb_spec d 10); lia.
Qed.

Lemma hexDigit_inj (a b : Z) :
  0 <= a < 16 -> 0 <= b < 16 -> hexDigit a = hexDigit b -> a = b.
Proof.
  unfold hexDigit. intros Ha Hb.
  destruct (Z.ltb_spec a 10), (Z.ltb_spec b 10); lia.
Qed.

(** The two digits of a byte. *)
Lemma byte_hex (b : Z) :
  0 <= b < 256 ->
  padStart (toString16 b) 2 0x30 = [hexDigit (b / 16); hexDigit (b mod 16)].
Proof.
  intros Hb. unfold padStart, toString16.
  destruct (Z.ltb_spec b 16).
  - simpl. rewrite Z.div_small, Z.mod_small by lia. reflexivity.
  - reflexivity.
Qed.

Lemma fold_append {A} (f : A -> jsstring) (xs : list A) (out : jsstring) :
  fold_left (fun out x => out ++ f x) xs out = out ++ concat (map f xs).
Proof.
  revert out. induction xs as [| x xs IH]; intros out; simpl.
  - now rewrite app_nil_r.
  - rewrite IH. now rewrite app_assoc.
Qed.

Lemma hex_of_bytes (bs : list Z) :
  Forall (fun b => 0 <= b < 256) bs ->
  fold_left (fun out b => out ++ padStart (toString16 b) 2 0x30) bs []
  = concat (map (fun b => [hexDigit (b / 16); hexDigit (b mod 16)]) bs).
Proof.
  intros Hbs. rewrite fold_append. simpl. f_equal.
  apply map_ext_in. intros b Hb. rewrite Forall_forall in Hbs.
  apply byte_hex, Hbs, Hb.
Qed.

Lemma hex_inj : forall bs1 bs2,
  Forall (fun b => 0 <= b < 256) bs1 -> Forall (fun b => 0 <= b < 256) bs2 ->
  concat (map (fun b => [hexDigit (b / 16); hexDigit (b mod 16)]) bs1)
  = concat (map (fun b => [hexDigit (b / 16); hexDigit (b mod 16)]) bs2) ->
  bs1 = bs2.
Proof.
  induction bs1 as [| a bs1 IH]; intros [| b bs2] H1 H2 E; simpl in E;
    try discriminate; [reflexivity |].
  inversion H1 as [| ? ? Ha H1']; subst. inversion H2 as [| ? ? Hb H2']; subst.
  injection E as Eh El E.
  assert (Hq : a / 16 = b / 16).
  { apply hexDigit_inj; [| | exact Eh].
    - split; [apply Z.div_pos; lia | apply Z.div_lt_upper_bound; lia].
    - split; [apply Z.div_pos; lia | apply Z.div_lt_upper_bound; lia]. }
  assert (Hr : a mod 16 = b mod 16).
  { apply hexDigit_inj; [| | exact El]; apply Z.mod_pos_bound; lia. }
  f_equal; [| apply IH; assumption].
  rewrite (Z.div_mod a 16), (Z.div_mod b 16) by lia. rewrite Hq, Hr. reflexivity.
Qed.

Section InstallerFacts.

Context {W : Type} `{Adapter W}.
Variable digest : list Z -> list Z.
Variable encodeURIComponent : jsstring -> option jsstring.
Variable requestUrl : jsstring -> Outcome jsstring (list Z).
Variable configDir : option jsstring.
Variable pluginId : jsstring.
Variable dictManifest : list (jsstring * Want).

Let baseRel := getDictBaseRel configDir pluginId.
Let valid := isFileValid (W := W) digest.
Let step := installStep digest encodeURIComponent requestUrl.
Let loop := installLoop digest encodeURIComponent requestUrl.

(** X21. The digest is written with two lower-case hexadecimal digits for
    each of its bytes, and two buffers get the same text only when they
    have the same digest. *)
Theorem sha256Hex_lower_hex (buf1 buf2 : list Z) :
  Forall (fun b => 0 <= b < 256) (digest buf1) ->
  Forall (fun b => 0 <= b < 256) (digest buf2) ->
  length (sha256Hex digest buf1) = (2 * length (digest buf1))%nat /\
  Forall lowerHex (sha256Hex digest buf1) /\
  (sha256Hex digest buf1 = sha256Hex digest buf2 -> digest buf1 = digest buf2).
Proof.
  intros H1 H2. unfold sha256Hex. rewrite !hex_of_bytes by assumption.
  split; [| split].
  - induction (digest buf1) as [| b bs IH]; [reflexivity |].
    inversion H1; subst. simpl. rewrite IH by assumption. lia.
  - induction H1 as [| b bs Hb _ IH]; simpl; [constructor |].
    constructor; [| constructor; [| exact IH]].
    + apply hexDigit_lower.
      split; [apply Z.div_pos; lia | apply Z.div_lt_upper_bound; lia].
    + apply hexDigit_lower, Z.mod_pos_bound. lia.
  - apply hex_inj; assumption.
Qed.

Lemma fetchLoop_trace : forall sources name lastErr tr r tr',
  fetchLoop requestUrl sources name lastErr tr = (r, tr') ->
  exists evs, tr' = tr ++ evs /\
              Forall (fun ev => exists url, ev = Requested url) evs.
Proof.
  induction sources as [| mk rest IH]; intros name lastErr tr r tr' E;
    cbn [fetchLoop] in E.
  - injection E as <- <-. exists []. rewrite app_nil_r. auto.
  - destruct (mk name) as [url |].
    + destruct (requestUrl url) as [buf | e].
      * injection E as <- <-. exists [Requested url]. split; [reflexivity |].
        constructor; eauto.
      * apply IH in E. destruct E as (evs & -> & Hevs).
        exists (Requested url :: evs). rewrite <- app_assoc.
        split; [reflexivity |]. constructor; eauto.
    + injection E as <- <-. exists []. rewrite app_nil_r. auto.
Qed.

(** What one round of the loop does. *)
Lemma installStep_spec (total installed : Z) (st : Run W)
    (name : jsstring) (want : Want) r installed' st' :
  step baseRel total (installed, st) (name, want) = (r, (installed', st')) ->
  (valid (world st) (relOf baseRel name) want = true /\
   r = Returned tt /\ installed' = installed /\ st' = st) \/
  (valid (world st) (relOf baseRel name) want = false /\
   exists reqs,
     Forall (fun ev => exists url, ev = Requested url) reqs /\
     ((exists e, r = Thrown e /\ installed' = installed /\
                 world st' = world st /\ trace st' = trace st ++ reqs) \/
      (exists data w' rw,
         sha256Hex digest data = sha256 want /\ slen data = want_bytes want /\
         adapter_writeBinary (world st) (relOf baseRel name) data = (rw, w') /\
         world st' = w' /\
         ((exists e, rw = Thrown e /\ r = Thrown (AdapterThrew e) /\
                     installed' = installed /\
                     trace st' = trace st ++ reqs
                                 ++ [Wrote (relOf baseRel name) data]) \/
          (rw = Returned tt /\ r = Returned tt /\ installed' = installed + 1 /\
           trace st' = trace st ++ reqs
                       ++ [Wrote (relOf baseRel name) data;
                           Noticed (installed + 1) total]))))).
Proof.
  unfold step, installStep. fold baseRel.
  change (isFileValid digest (world st) (relOf baseRel name) want)
    with (valid (world st) (relOf baseRel name) want).
  destruct (valid (world st) (relOf baseRel name) want) eqn:Ev.
  - intros E. injection E as <- <- <-. left. auto.
  - intros E. right. split; [reflexivity |].
    unfold fetchWithFallback in E.
    destruct (fetchLoop requestUrl
                (SOURCE_URLS encodeURIComponent) name None (trace st))
      as [rf tr1] eqn:Ef.
    apply fetchLoop_trace in Ef. destruct Ef as (reqs & -> & Hreqs).
    exists reqs. split; [exact Hreqs |].
    destruct rf as [data | e].
    + destruct (streq (sha256Hex digest data) (sha256 want)) eqn:Es; cbn [negb] in E.
      * destruct (slen data =? want_bytes want) eqn:El; cbn [negb] in E.
        -- destruct (adapter_writeBinary (world st) (relOf baseRel name) data)
             as [rw w'] eqn:Ew.
           right. exists data, w', rw.
           apply streq_eq in Es. apply Z.eqb_eq in El.
           split; [exact Es |]. split; [exact El |]. split; [exact Ew |].
           destruct rw as [[] | e]; injection E as <- <- <-; cbn [world trace].
           ++ split; [reflexivity |]. right. rewrite <- app_assoc. auto.
           ++ split; [reflexivity |]. left. exists e. rewrite <- app_assoc. auto.
        -- injection E as <- <- <-. left. eexists. cbn [world trace]. auto.
      * injection E as <- <- <-. left. eexists. cbn [world trace]. auto.
    + injection E as <- <- <-. left. eexists. cbn [world trace]. auto.
Qed.

(** Validity of a file depends on what the adapter reports for its path
    only. *)
Lemma valid_same (w w' : W) (p : jsstring) (want : Want) :
  adapter_readBinary w' p = adapter_readBinary w p ->
  adapter_stat w' p = adapter_stat w p ->
  valid w' p want = valid w p want.
Proof.
  intros Hr Hs. unfold valid, isFileValid. now rewrite Hr, Hs.
Qed.

Lemma relOf_inj (b n1 n2 : jsstring) : relOf b n1 = relOf b n2 -> n1 = n2.
Proof.
  unfold relOf. intros E. apply app_inv_head in E. apply app_inv_head in E.
  exact E.
Qed.

Lemma installLoop_valid `{!FileStore W} (total : Z) :
  forall entries done installed st r installed' st',
    NoDup (map fst (done ++ entries)) ->
    Forall (fun entry => valid (world st) (relOf baseRel (fst entry)) (snd entry)
                         = true) done ->
    loop baseRel total entries (installed, st) = (r, (installed', st')) ->
    r = Returned tt ->
    Forall (fun entry => valid (world st') (relOf baseRel (fst entry)) (snd entry)
                         = true) (done ++ entries).
Proof.
  induction entries as [| [name want] rest IH];
    intros done installed st r installed' st' Hnd Hdone E Hr.
  - cbn [loop installLoop] in E. unfold loop in E. cbn [installLoop] in E.
    injection E as _ _ <-. rewrite app_nil_r. exact Hdone.
  - unfold loop in E. cbn [installLoop] in E.
    destruct (installStep digest encodeURIComponent requestUrl baseRel total
                (installed, st) (name, want)) as [r1 [i1 st1]] eqn:Es.
    apply installStep_spec in Es.
    destruct r1 as [[] | e]; [| injection E as <- _ _; discriminate].
    replace (done ++ (name, want) :: rest) with ((done ++ [(name, want)]) ++ rest)
      in * by (rewrite <- app_assoc; reflexivity).
    eapply IH; [exact Hnd | | exact E | exact Hr].
    apply Forall_app. split.
    + destruct Es as [(_ & _ & _ & ->) | (_ & reqs & _ & Hcase)]; [exact Hdone |].
      destruct Hcase as [(e & He & _) | (data & w' & rw & Hsha & Hlen & Hw & Hw' & Hrw)];
        [discriminate |].
      destruct Hrw as [(e & _ & He & _) | (-> & _ & _ & _)]; [discriminate |].
      rewrite Forall_forall in *. intros [n wt] Hin. cbn [fst snd].
      specialize (Hdone _ Hin). cbn [fst snd] in Hdone.
      rewrite <- Hdone. rewrite Hw'.
      assert (Hne : relOf baseRel n <> relOf baseRel name).
      { intros Heq. apply relOf_inj in Heq. subst n.
        rewrite map_app, map_app in Hnd. cbn [map fst] in Hnd.
        rewrite <- app_assoc in Hnd. apply NoDup_remove_2 in Hnd.
        apply Hnd. apply in_or_app. left.
        apply in_map_iff. exists (name, wt). auto. }
      destruct (write_other _ _ _ _ _ Hw Hne) as [Hrd Hst].
      apply valid_same; assumption.
    + constructor; [| constructor]. cbn [fst snd].
      destruct Es as [(Hv & _ & _ & ->) | (_ & reqs & _ & Hcase)]; [exact Hv |].
      destruct Hcase as [(e & He & _) | (data & w' & rw & Hsha & Hlen & Hw & Hw' & Hrw)];
        [discriminate |].
      destruct Hrw as [(e & _ & He & _) | (-> & _ & _ & _)]; [discriminate |].
      rewrite Hw'. unfold valid, isFileValid.
      rewrite (write_stat _ _ _ _ Hw), (write_read _ _ _ _ Hw).
      rewrite Hlen, Z.eqb_refl. cbn [negb].
      apply streq_eq. exact Hsha.
Qed.

(** X22. On an adapter that stores files by path, when the installer
    returns without an error every file of the manifest is in the
    dictionary folder with the size and the digest the manifest gives. *)
Theorem ensureDictInstalled_installs `{!FileStore W} (st st' : Run W) :
  NoDup (map fst dictManifest) ->
  ensureDictInstalled digest encodeURIComponent requestUrl configDir pluginId
    dictManifest st = (Returned tt, st') ->
  AllValid digest configDir pluginId dictManifest (world st').
Proof.
  intros Hnd E. unfold ensureDictInstalled in E.
  destruct (ensureDictDir configDir pluginId st) as [[b | e] st1] eqn:Ed;
    [| discriminate].
  assert (Hb : b = baseRel).
  { unfold ensureDictDir in Ed.
    destruct (adapter_exists (world st) (getDictBaseRel configDir pluginId))
      as [[|] | e]; try discriminate.
    - injection Ed as <- _. reflexivity.
    - destruct (adapter_mkdir (world st) (getDictBaseRel configDir pluginId))
        as [[[] | e] w']; [| discriminate].
      injection Ed as <- _. reflexivity. }
  subst b.
  destruct (installLoop digest encodeURIComponent requestUrl baseRel
              (Z.of_nat (length dictManifest)) dictManifest (0, st1))
    as [r [i2 st2]] eqn:El.
  injection E as -> <-.
  unfold AllValid. fold baseRel.
  apply (installLoop_valid (Z.of_nat (length dictManifest)) dictManifest []
           0 st1 (Returned tt) i2 st2);
    [exact Hnd | constructor | exact El | reflexivity].
Qed.

Lemma installLoop_idle (total : Z) : forall entries installed st,
  Forall (fun entry => valid (world st) (relOf baseRel (fst entry)) (snd entry)
                       = true) entries ->
  loop baseRel total entries (installed, st) = (Returned tt, (installed, st)).
Proof.
  induction entries as [| [name want] rest IH]; intros installed st Hall;
    unfold loop; cbn [installLoop]; [reflexivity |].
  inversion Hall as [| ? ? Hv Hrest]; subst. cbn [fst snd] in Hv.
  unfold installStep. cbv beta iota zeta.
  change (isFileValid digest (world st) (relOf baseRel name) want)
    with (valid (world st) (relOf baseRel name) want).
  rewrite Hv. apply IH. exact Hrest.
Qed.

(** X23. When the dictionary folder exists and every file of the manifest
    already passes the check, the installer returns at once: it requests,
    creates and writes nothing, and shows no notice. *)
Theorem ensureDictInstalled_idle (st : Run W) :
  adapter_exists (world st) (getDictBaseRel configDir pluginId) = Returned true ->
  AllValid digest configDir pluginId dictManifest (world st) ->
  ensureDictInstalled digest encodeURIComponent requestUrl configDir pluginId
    dictManifest st = (Returned tt, st).
Proof.
  intros He Hall. unfold ensureDictInstalled, ensureDictDir. rewrite He.
  fold baseRel. fold loop.
  rewrite (installLoop_idle _ dictManifest 0 st Hall). reflexivity.
Qed.

Lemma installLoop_verified (total : Z) :
  forall entries installed st r installed' st',
    (forall entry, In entry entries -> In entry dictManifest) ->
    loop baseRel total entries (installed, st) = (r, (installed', st')) ->
    exists evs,
      trace st' = trace st ++ evs /\
      Forall (Verified digest configDir pluginId dictManifest) evs /\
      Forall (fun ev => forall p, ev <> MadeDir p) evs.
Proof.
  induction entries as [| [name want] rest IH];
    intros installed st r installed' st' Hin E; unfold loop in E;
    cbn [installLoop] in E.
  - injection E as _ _ <-. exists []. rewrite app_nil_r. auto.
  - destruct (installStep digest encodeURIComponent requestUrl baseRel total
                (installed, st) (name, want)) as [r1 [i1 st1]] eqn:Es.
    apply installStep_spec in Es.
    assert (Hreq : forall reqs,
              Forall (fun ev => exists url, ev = Requested url) reqs ->
              Forall (Verified digest configDir pluginId dictManifest) reqs /\
              Forall (fun ev => forall p, ev <> MadeDir p) reqs).
    { intros reqs Hr. split; eapply Forall_impl; try exact Hr;
        intros ev (url & ->); [exact I | discriminate]. }
    assert (Hstep : exists evs1,
              trace st1 = trace st ++ evs1 /\
              Forall (Verified digest configDir pluginId dictManifest) evs1 /\
              Forall (fun ev => forall p, ev <> MadeDir p) evs1).
    { destruct Es as [(_ & _ & _ & ->) | (_ & reqs & Hreqs & Hcase)].
      - exists []. rewrite app_nil_r. auto.
      - destruct (Hreq reqs Hreqs) as [Hv Hm].
        assert (Hwrote : forall data,
                  sha256Hex digest data = sha256 want ->
                  slen data = want_bytes want ->
                  Verified digest configDir pluginId dictManifest
                    (Wrote (relOf baseRel name) data)).
        { intros data Hsha Hlen. exists name, want.
          split; [apply Hin; left; reflexivity | auto]. }
        destruct Hcase as [(e & _ & _ & _ & Ht)
                          | (data & w' & rw & Hsha & Hlen & _ & _ & Hrw)].
        + exists reqs. auto.
        + destruct Hrw as [(e & _ & _ & _ & Ht) | (_ & _ & _ & Ht)].
          * exists (reqs ++ [Wrote (relOf baseRel name) data]).
            split; [exact Ht |].
            split; apply Forall_app; split; auto; constructor; auto; discriminate.
          * exists (reqs ++ [Wrote (relOf baseRel name) data;
                             Noticed (installed + 1) total]).
            split; [exact Ht |].
            split; apply Forall_app; split; auto;
              repeat constructor; auto; discriminate. }
    destruct Hstep as (evs1 & Ht1 & Hv1 & Hm1).
    destruct r1 as [[] | e].
    + apply IH in E; [| intros entry He; apply Hin; right; exact He].
      destruct E as (evs & Ht & Hv & Hm).
      exists (evs1 ++ evs). rewrite Ht, Ht1, <- app_assoc.
      split; [reflexivity |]. split; apply Forall_app; auto.
    + injection E as _ _ <-. exists evs1. auto.
Qed.

(** X24. Whether the installer returns or throws, whatever it has written
    is verified: every write goes to the path of a file of the manifest,
    with bytes whose length and digest are those the manifest gives for
    that file; and the only folder it may create is the dictionary
    folder, before anything else. *)
Theorem ensureDictInstalled_writes_verified (st st' : Run W)
    (r : Outcome InstallError unit) :
  ensureDictInstalled digest encodeURIComponent requestUrl configDir pluginId
    dictManifest st = (r, st') ->
  exists dir evs,
    trace st' = trace st ++ dir ++ evs /\
    (dir = [] \/ dir = [MadeDir (getDictBaseRel configDir pluginId)]) /\
    Forall (Verified digest configDir pluginId dictManifest) evs /\
    Forall (fun ev => forall p, ev <> MadeDir p) evs.
Proof.
  intros E. unfold ensureDictInstalled in E.
  destruct (ensureDictDir configDir pluginId st) as [rd st1] eqn:Ed.
  assert (Hd : exists dir,
            trace st1 = trace st ++ dir /\
            (dir = [] \/ dir = [MadeDir (getDictBaseRel configDir pluginId)]) /\
            (forall b, rd = Returned b -> b = baseRel)).
  { unfold ensureDictDir in Ed.
    destruct (adapter_exists (world st) (getDictBaseRel configDir pluginId))
      as [[|] | e].
    - injection Ed as <- <-. exists []. rewrite app_nil_r.
      split; [reflexivity |]. split; [auto |]. intros b Hb. now injection Hb as <-.
    - destruct (adapter_mkdir (world st) (getDictBaseRel configDir pluginId))
        as [rm w'].
      injection Ed as <- <-. eexists. cbn [trace].
      split; [reflexivity |]. split; [auto |].
      intros b Hb. destruct rm; [now injection Hb as <- | discriminate].
    - injection Ed as <- <-. exists []. rewrite app_nil_r.
      split; [reflexivity |]. split; [auto |]. discriminate. }
  destruct Hd as (dir & Ht1 & Hdir & Hb).
  destruct rd as [b | e].
  - rewrite (Hb b eq_refl) in E.
    destruct (installLoop digest encodeURIComponent requestUrl baseRel
                (Z.of_nat (length dictManifest)) dictManifest (0, st1))
      as [r2 [i2 st2]] eqn:El.
    injection E as <- <-.
    apply installLoop_verified in El; [| auto].
    destruct El as (evs & Ht & Hv & Hm).
    exists dir, evs. rewrite Ht, Ht1, <- app_assoc. auto.
  - injection E as <- <-. exists dir, []. rewrite app_nil_r. auto.
Qed.

End InstallerFacts.

Lemma lookupFile_head (fs : Files) (p : jsstring) (d : list Z) :
  lookupFile ((p, d) :: fs) p = Some d.
Proof.
  simpl. now rewrite (proj2 (streq_eq p p) eq_refl).
Qed.

Lemma lookupFile_other (fs : Files) (p q : jsstring) (d : list Z) :
  q <> p -> lookupFile ((p, d) :: fs) q = lookupFile fs q.
Proof.
  intros Hne. simpl. destruct (streq p q) eqn:E; [| reflexivity].
  apply streq_eq in E. congruence.
Qed.

(** The list of files is an adapter that stores files by path. *)
#[export] Instance FilesStore : FileStore Files.
Proof.
  constructor.
  - intros w p d w' E. injection E as <-. simpl.
    now rewrite (proj2 (streq_eq p p) eq_refl).
  - intros w p d w' E. injection E as <-. simpl.
    now rewrite (proj2 (streq_eq p p) eq_refl).
  - intros w p d w' q E Hne. injection E as <-.
    cbn [adapter_readBinary adapter_stat FilesAdapter].
    now rewrite (lookupFile_other w p q d Hne).
Qed.

Lemma sha256Hex_lower_hex_witness :
  length (sha256Hex SampleInstall.digest [1; 2])
  = (2 * length (SampleInstall.digest [1%Z; 2%Z]))%nat /\
  Forall lowerHex (sha256Hex SampleInstall.digest [1; 2]) /\
  (sha256Hex SampleInstall.digest [1; 2] = sha256Hex SampleInstall.digest [258]
   -> SampleInstall.digest [1; 2] = SampleInstall.digest [258]).
Proof.
  apply (sha256Hex_lower_hex SampleInstall.digest [1; 2] [258]);
    repeat constructor; vm_compute; congruence.
Defined.

Lemma ensureDictInstalled_installs_witness :
  AllValid SampleInstall.digest None SampleInstall.pluginId SampleInstall.manifest
    (world (snd (SampleInstall.install (mkRun [] [])))).
Proof.
  apply (ensureDictInstalled_installs SampleInstall.digest SampleInstall.encode
           SampleInstall.request None SampleInstall.pluginId
           SampleInstall.manifest (mkRun [] [])
           (snd (SampleInstall.install (mkRun [] [])))).
  - repeat constructor. simpl. tauto.
  - vm_compute. reflexivity.
Defined.

Lemma ensureDictInstalled_idle_witness :
  let st := mkRun [(lit ".obsidian/plugins/autofurigana/dict/base.dat.gz", [1; 2])] [] in
  SampleInstall.install st = (Returned tt, st).
Proof.
  intros st.
  apply (ensureDictInstalled_idle SampleInstall.digest SampleInstall.encode
           SampleInstall.request None SampleInstall.pluginId
           SampleInstall.manifest st).
  - reflexivity.
  - repeat constructor.
Defined.

Lemma ensureDictInstalled_writes_verified_witness :
  exists dir evs,
    trace (snd (SampleInstall.install (mkRun [] []))) = [] ++ dir ++ evs /\
    (dir = [] \/ dir = [MadeDir (getDictBaseRel None SampleInstall.pluginId)]) /\
    Forall (Verified SampleInstall.digest None SampleInstall.pluginId
              SampleInstall.manifest) evs /\
    Forall (fun ev => forall p, ev <> MadeDir p) evs.
Proof.
  apply (ensureDictInstalled_writes_verified SampleInstall.digest
           SampleInstall.encode SampleInstall.request None SampleInstall.pluginId
           SampleInstall.manifest (mkRun [] [])
           (snd (SampleInstall.install (mkRun [] [])))
           (fst (SampleInstall.install (mkRun [] [])))).
  vm_compute. reflexivity.
Defined.

(* ------------------------------------------------------------------ *)
(** * Dictionary requests *)
(* ------------------------------------------------------------------ *)

Lemma getOwn_setProp_same (o : UrlMap) (k v : jsstring) :
  getOwn (setProp o k v) k = Some v.
Proof.
  induction o as [| [k' v'] o IH]; simpl.
  - now rewrite (proj2 (streq_eq k k) eq_refl).
  - destruct (streq k' k) eqn:E; simpl; rewrite E; [reflexivity | exact IH].
Qed.

Lemma getOwn_setProp_other (o : UrlMap) (k v q : jsstring) :
  q <> k -> getOwn (setProp o k v) q = getOwn o q.
Proof.
  intros Hne. induction o as [| [k' v'] o IH]; simpl.
  - destruct (streq k q) eqn:E; [| reflexivity].
    apply streq_eq in E. congruence.
  - destruct (streq k' k) eqn:E; simpl.
    + apply streq_eq in E. subst k'.
      destruct (streq k q) eqn:E2; [| reflexivity].
      apply streq_eq in E2. congruence.
    + now rewrite IH.
Qed.

Lemma startsWith_app (h t : jsstring) : startsWith (h ++ t) h = true.
Proof.
  induction h as [| x h IH]; simpl; [destruct t; reflexivity |].
  now rewrite Z.eqb_refl, IH.
Qed.

Lemma sliceFrom_app (h t : jsstring) : sliceFrom (h ++ t) (slen h) = t.
Proof.
  unfold slen. rewrite sliceFrom_skipn by (rewrite length_app; lia).
  rewrite skipn_app, skipn_all, Nat.sub_diag. reflexivity.
Qed.

Lemma slashes_app (a b : jsstring) : slashes (a ++ b) = slashes a ++ slashes b.
Proof. unfold slashes. apply map_app. Qed.

Section DictionaryUrlFacts.

Variable configDir : option jsstring.
Variable pluginId : jsstring.
Variable getResourcePath : jsstring -> jsstring.
Variable inheritedKey : jsstring -> bool.

(** The folder of [buildUrlMap] is the folder of the installer. *)
Lemma baseRel_agree (baseRel : jsstring) (name : jsstring) :
  baseRel = slashes ((match configDir with Some d => d | None => lit ".obsidian" end)
                     ++ lit "/plugins/" ++ pluginId ++ lit "/dict/") ->
  baseRel ++ name = relOf (getDictBaseRel configDir pluginId) name.
Proof.
  intros ->. unfold relOf, getDictBaseRel.
  rewrite !slashes_app. rewrite <- !app_assoc. reflexivity.
Qed.

Lemma buildLoop_lookup (baseRel : jsstring) :
  forall names map urlMap,
    buildLoop getResourcePath baseRel names map = Returned urlMap ->
    (forall name, In name names ->
       getOwn urlMap name = Some (getResourcePath (baseRel ++ name)) /\
       truthy (getResourcePath (baseRel ++ name)) = true) /\
    (forall key, ~ In key names -> getOwn urlMap key = getOwn map key).
Proof.
  induction names as [| n rest IH]; intros map urlMap E; cbn [buildLoop] in E.
  - injection E as <-. split; [intros name [] | reflexivity].
  - destruct (truthy (getResourcePath (baseRel ++ n))) eqn:Et; cbn [negb] in E;
      [| discriminate].
    apply IH in E. destruct E as [Hin Hout]. split.
    + intros name [<- | Hr].
      * split; [| exact Et].
        destruct (in_dec (list_eq_dec Z.eq_dec) n rest) as [Hi | Hni].
        -- apply Hin, Hi.
        -- rewrite (Hout n Hni). apply getOwn_setProp_same.
      * apply Hin, Hr.
    + intros key Hk. rewrite Hout by (intros Hi; apply Hk; right; exact Hi).
      apply getOwn_setProp_other. intros ->. apply Hk. left. reflexivity.
Qed.

(** X25. When [buildUrlMap] returns, the request for each file of
    [DICT_FILES] under the sentinel is redirected, by the replacement of
    [initializeTokenizer] and by that of the worker alike, to the resource
    URL of the very path the installer writes that file to, and this URL
    is not empty. *)
Theorem dictionary_requests_redirected (urlMap : UrlMap) (name : jsstring) :
  buildUrlMap configDir pluginId getResourcePath = Returned urlMap ->
  In name DICT_FILES ->
  let target := getResourcePath (relOf (getDictBaseRel configDir pluginId) name) in
  target <> [] /\
  openInit inheritedKey urlMap (SENTINEL ++ lit "/" ++ name) = UrlString target /\
  openWorker inheritedKey urlMap SENTINEL (SENTINEL ++ lit "/" ++ name)
  = UrlString target.
Proof.
  intros E Hin target. unfold buildUrlMap in E.
  apply buildLoop_lookup in E. destruct E as [Hown _].
  destruct (Hown name Hin) as [Hget Ht].
  rewrite (baseRel_agree _ name eq_refl) in Hget, Ht. fold target in Hget, Ht.
  split; [intros Hn; rewrite Hn in Ht; discriminate |].
  split.
  - unfold openInit. rewrite startsWith_app.
    change (slen SENTINEL + 1) with (slen (SENTINEL ++ lit "/")).
    rewrite app_assoc, sliceFrom_app, Hget, Ht. reflexivity.
  - unfold openWorker. rewrite app_assoc, startsWith_app.
    change (slen SENTINEL + 1) with (slen (SENTINEL ++ lit "/")).
    rewrite sliceFrom_app, Hget, Ht. reflexivity.
Qed.

(** X26. Both replacements pass on unchanged every URL that does not start
    with the sentinel, and they agree on every URL in which a slash
    follows the sentinel; on the others the replacement of
    [initializeTokenizer] skips the unit after the sentinel whatever it is
    and redirects, where the worker's passes the URL on. *)
Theorem open_replacements_compared (urlMap : UrlMap) (url : jsstring) :
  (startsWith url SENTINEL = false ->
   openInit inheritedKey urlMap url = UrlString url /\
   openWorker inheritedKey urlMap SENTINEL url = UrlString url) /\
  (startsWith url (SENTINEL ++ lit "/") = true ->
   openInit inheritedKey urlMap url = openWorker inheritedKey urlMap SENTINEL url) /\
  (forall c file mapped,
     url = SENTINEL ++ c :: file -> c <> 0x2F ->
     getOwn urlMap file = Some mapped -> mapped <> [] ->
     openInit inheritedKey urlMap url = UrlString mapped /\
     openWorker inheritedKey urlMap SENTINEL url = UrlString url).
Proof.
  assert (Hpre : forall a b s, startsWith s (a ++ b) = true -> startsWith s a = true).
  { induction a as [| x a IH]; intros b s Hs; [destruct s; reflexivity |].
    destruct s as [| y s]; simpl in *; [discriminate |].
    apply andb_true_iff in Hs. destruct Hs as [-> Hs]. simpl. eapply IH, Hs. }
  split; [| split].
  - intros Hs. unfold openInit, openWorker. rewrite Hs.
    destruct (startsWith url (SENTINEL ++ lit "/")) eqn:E; [| auto].
    apply Hpre in E. congruence.
  - intros Hs. unfold openInit, openWorker. rewrite Hs, (Hpre _ _ _ Hs).
    reflexivity.
  - intros c file mapped -> Hc Hget Hm.
    assert (Ht : truthy mapped = true) by (destruct mapped; [contradiction | reflexivity]).
    split.
    + unfold openInit. rewrite startsWith_app.
      change (slen SENTINEL + 1) with (slen (SENTINEL ++ [c])).
      change (SENTINEL ++ c :: file) with (SENTINEL ++ [c] ++ file).
      rewrite app_assoc, sliceFrom_app, Hget, Ht. reflexivity.
    + unfold openWorker.
      assert (Hs : startsWith (SENTINEL ++ c :: file) (SENTINEL ++ lit "/") = false).
      { generalize SENTINEL as s. induction s as [| x s IH]; simpl.
        - destruct (Z.eqb_spec c 47); [contradiction | reflexivity].
        - now rewrite Z.eqb_refl, IH. }
      rewrite Hs. reflexivity.
Qed.

End DictionaryUrlFacts.

Lemma dictionary_requests_redirected_witness :
  let resource := fun rel => lit "app://local/" ++ rel in
  let target := lit "app://local/.obsidian/plugins/autofurigana/dict/cc.dat.gz" in
  target <> [] /\
  openInit (fun _ => false)
    (map (fun name => (name, resource (lit ".obsidian/plugins/autofurigana/dict/" ++ name)))
         DICT_FILES)
    (lit "__KUROMOJI_DICT__/cc.dat.gz") = UrlString target /\
  openWorker (fun _ => false)
    (map (fun name => (name, resource (lit ".obsidian/plugins/autofurigana/dict/" ++ name)))
         DICT_FILES)
    SENTINEL (lit "__KUROMOJI_DICT__/cc.dat.gz") = UrlString target.
Proof.
  intros resource target.
  apply (dictionary_requests_redirected None (lit "autofurigana") resource
           (fun _ => false)
           (map (fun name => (name, resource (lit ".obsidian/plugins/autofurigana/dict/" ++ name)))
                DICT_FILES)
           (lit "cc.dat.gz")).
  - vm_compute. reflexivity.
  - right. left. reflexivity.
Defined.

(* ------------------------------------------------------------------ *)
(** * What the manual patterns match *)
(* ------------------------------------------------------------------ *)

Lemma skipn_nth {A} (s : list A) (i : nat) (x : A) :
  nth_error s i = Some x -> skipn i s = x :: skipn (S i) s.
Proof.
  intros H. destruct (nth_skipn_cons s i x H) as (t & Ht).
  rewrite Ht. f_equal. symmetry. exact (proj2 (skipn_cons_nth s i x t Ht)).
Qed.

Lemma iterate_sound (s : jsstring) (r : regex)
    (body : nat -> captures -> Cont -> option (nat * captures)) (k : Cont) :
  (forall i c k' res, body i c k' = Some res ->
     exists j c', Den s r i c j c' /\ k' j c' = Some res) ->
  forall fuel first i c res,
    iterate body k fuel first i c = Some res ->
    exists j c', Den s (Plus r) i c j c' /\ k j c' = Some res.
Proof.
  intros Hbody. induction fuel as [| fuel IH]; intros first i c res H;
    cbn [iterate] in H; apply Hbody in H; destruct H as (j & c1 & Hd & H).
  - destruct (negb first && Nat.eqb j i); [discriminate |].
    exists j, c1. split; [apply DenOnce, Hd | exact H].
  - destruct (negb first && Nat.eqb j i); [discriminate |].
    destruct (iterate body k fuel false j c1) as [res' |] eqn:E.
    + injection H as <-. apply IH in E. destruct E as (j2 & c2 & Hd2 & Hk).
      exists j2, c2. split; [eapply DenMore; eassumption | exact Hk].
    + exists j, c1. split; [apply DenOnce, Hd | exact H].
Qed.

(** The engine finds only what the pattern matches. *)
Lemma rmatch_sound (s : jsstring) (r : regex) :
  forall i c k res,
    rmatch r s i c k = Some res ->
    exists j c', Den s r i c j c' /\ k j c' = Some res.
Proof.
  induction r as [x | neg rs | r1 IH1 r2 IH2 | r1 IH1 | n r1 IH1 |];
    intros i c k res H; cbn [rmatch] in H.
  - destruct (nth_error s i) as [y |] eqn:E; [| discriminate].
    destruct (Z.eqb_spec y x) as [-> |]; [| discriminate].
    exists (S i), c. split; [apply DenChr, E | exact H].
  - destruct (nth_error s i) as [y |] eqn:E; [| discriminate].
    destruct (inClass neg rs y) eqn:Ec; [| discriminate].
    exists (S i), c. split; [eapply DenClass; eassumption | exact H].
  - apply IH1 in H. destruct H as (j & c1 & Hd1 & H).
    apply IH2 in H. destruct H as (j2 & c2 & Hd2 & H).
    exists j2, c2. split; [eapply DenSeq; eassumption | exact H].
  - eapply iterate_sound; [exact IH1 | exact H].
  - apply IH1 in H. destruct H as (j & c1 & Hd & H).
    exists j, ((n, (i, j)) :: c1). split; [apply DenGroup, Hd | exact H].
  - destruct (Nat.eqb_spec i 0) as [-> |]; [| discriminate].
    exists 0%nat, c. split; [apply DenBol | exact H].
Qed.

Lemma matchAt_sound (s : jsstring) (r : regex) (i j : nat) (c : captures) :
  matchAt r s i = Some (j, c) -> Den s r i [] j c.
Proof.
  unfold matchAt. intros H. apply rmatch_sound in H.
  destruct H as (j' & c' & Hd & H). injection H as <- <-. exact Hd.
Qed.

(** What a class matches once or more: a non-empty run of its units. *)
Lemma den_plus_class (s : jsstring) (neg : bool) (rs : list (Z * Z)) :
  forall i c j c',
    Den s (Plus (Class neg rs)) i c j c' ->
    c' = c /\
    exists run,
      run <> [] /\ Forall (fun u => inClass neg rs u = true) run /\
      skipn i s = run ++ skipn j s /\ j = (i + length run)%nat.
Proof.
  intros i c j c' H. remember (Plus (Class neg rs)) as r eqn:Er.
  induction H as [| | | | | r i c j c' H _ | r i c j c1 k c2 H1 _ H2 IH];
    try discriminate; injection Er as ->.
  - inversion H as [| ? ? y ? ? Hy Hc | | | | |]; subst.
    split; [reflexivity |]. exists [y].
    split; [discriminate |]. split; [constructor; [exact Hc | constructor] |].
    split; [apply skipn_nth, Hy | simpl; lia].
  - inversion H1 as [| ? ? y ? ? Hy Hc | | | | |]; subst.
    destruct (IH eq_refl) as (-> & run & Hne & Hf & Hs & ->).
    split; [reflexivity |]. exists (y :: run).
    split; [discriminate |]. split; [constructor; assumption |].
    split; [rewrite (skipn_nth _ _ _ Hy), Hs; reflexivity | simpl; lia].
Qed.

(** What the reading group matches: one or more readings, each led by a
    pipe. *)
Lemma den_readings (s : jsstring) (open close : Z) :
  forall i c j c',
    Den s (Plus (pipeReading open close)) i c j c' ->
    c' = c /\
    exists readings,
      readings <> [] /\ Forall (PlainText open close) readings /\
      skipn i s = readingTail readings ++ skipn j s /\
      j = (i + length (readingTail readings))%nat.
Proof.
  assert (Hone : forall i c j c',
            Den s (pipeReading open close) i c j c' ->
            c' = c /\
            exists r, PlainText open close r /\
                      skipn i s = (0x7C :: r) ++ skipn j s /\
                      j = (i + S (length r))%nat).
  { intros i c j c' H. unfold pipeReading in H.
    inversion H as [| | ? ? ? ? j1 c1 ? ? Hb Hr | | | |]; subst.
    inversion Hb as [? ? ? Hx | | | | | |]; subst.
    apply den_plus_class in Hr. destruct Hr as (-> & run & Hne & Hf & Hs & ->).
    split; [reflexivity |]. exists run.
    split; [split; [exact Hne | exact Hf] |].
    split; [rewrite (skipn_nth _ _ _ Hx), Hs; reflexivity | simpl; lia]. }
  intros i c j c' H. remember (Plus (pipeReading open close)) as r eqn:Er.
  induction H as [| | | | | r i c j c' H _ | r i c j c1 k c2 H1 _ H2 IH];
    try discriminate; injection Er as ->.
  - apply Hone in H. destruct H as (-> & r & Hp & Hs & ->).
    split; [reflexivity |]. exists [r].
    split; [discriminate |]. split; [constructor; [exact Hp | constructor] |].
    unfold readingTail. cbn [map concat]. rewrite app_nil_r. auto.
  - apply Hone in H1. destruct H1 as (-> & r & Hp & Hs & ->).
    destruct (IH eq_refl) as (-> & rds & Hne & Hf & Hs2 & ->).
    split; [reflexivity |]. exists (r :: rds).
    split; [discriminate |]. split; [constructor; assumption |].
    unfold readingTail in *. cbn [map concat].
    split; [rewrite Hs, Hs2, <- app_assoc; reflexivity |].
    rewrite length_app. cbn [length]. lia.
Qed.

(** What a manual pattern matches: a whole override. *)
Lemma den_manual (s : jsstring) (open close : Z) (i j : nat) (caps : captures) :
  Den s (manualPattern open close) i [] j caps ->
  exists b readings,
    PlainText open close b /\ readings <> [] /\
    Forall (PlainText open close) readings /\
    skipn i s = markup open close b readings ++ skipn j s /\
    j = (i + length (markup open close b readings))%nat /\
    caps = [(2%nat, ((S i + length b)%nat,
                     (S i + length b + length (readingTail readings))%nat));
            (1%nat, (S i, (S i + length b)%nat))].
Proof.
  unfold manualPattern. intros H.
  inversion H as [| | ? ? ? ? j0 c0 ? ? Ho H1 | | | |]; subst.
  inversion Ho as [? ? ? Hx | | | | | |]; subst.
  inversion H1 as [| | ? ? ? ? j1 c1 ? ? Hg1 H2 | | | |]; subst.
  inversion Hg1 as [| | | ? ? ? ? ? ? Hb | | |]; subst.
  apply den_plus_class in Hb. destruct Hb as (-> & b & Hbne & Hbf & Hbs & ->).
  inversion H2 as [| | ? ? ? ? j2 c2 ? ? Hg2 Hc | | | |]; subst.
  inversion Hg2 as [| | | ? ? ? ? ? ? Hr | | |]; subst.
  apply den_readings in Hr. destruct Hr as (-> & rds & Hrne & Hrf & Hrs & ->).
  inversion Hc as [? ? ? Hy | | | | | |]; subst.
  exists b, rds.
  split; [split; [exact Hbne | exact Hbf] |].
  split; [exact Hrne |]. split; [exact Hrf |].
  split; [| split].
  - unfold markup. rewrite (skipn_nth _ _ _ Hx), Hbs, Hrs, (skipn_nth _ _ _ Hy).
    cbn [app]. rewrite <- !app_assoc. reflexivity.
  - unfold markup. cbn [length]. rewrite !length_app. cbn [length]. lia.
  - reflexivity.
Qed.

Lemma substring_skipn (s x : jsstring) (i j : nat) :
  skipn i s = x ++ skipn j s -> j = (i + length x)%nat -> substring s i j = x.
Proof.
  intros Hs ->. unfold substring. rewrite Hs.
  replace (i + length x - i)%nat with (length x) by lia.
  rewrite firstn_app, firstn_all, Nat.sub_diag. cbn [firstn]. apply app_nil_r.
Qed.

Lemma skipn_more {A} (s x y : list A) (i : nat) :
  skipn i s = x ++ y -> skipn (i + length x) s = y.
Proof.
  intros H. rewrite Nat.add_comm, <- skipn_skipn, H.
  rewrite skipn_app, skipn_all, Nat.sub_diag. reflexivity.
Qed.

(** Every match of the iterator is a match of the pattern at its index. *)
Lemma matchAllLoop_matchAt (r : regex) (s : jsstring) :
  forall fuel li,
    Forall (fun m => m_input m = s /\
                     matchAt r s (m_index m) = Some (m_end m, m_caps m))
           (matchAllLoop fuel (mkRegExp r true li) s).
Proof.
  induction fuel as [| fuel IH]; intros li; cbn [matchAllLoop]; [constructor |].
  unfold exec. cbn [global source lastIndex].
  pose proof (search_first r s (Z.to_nat li)) as H.
  destruct (search r s (Z.to_nat li)) as [m |]; [| constructor].
  destruct H as (Hm & Hin & _).
  constructor; [split; assumption |].
  unfold setLastIndex. cbn [source global lastIndex].
  destruct (Nat.eqb (m_end m) (m_index m)); apply IH.
Qed.

(** X27. Whatever the text, every match of the curly or of the square
    pattern is a whole override: the opening bracket, a base, one or more
    readings each led by a pipe, and the closing bracket, the base and the
    readings being non-empty and free of these brackets, pipes and line
    breaks; group 1 is the base and the split of group 2 gives the
    readings. *)
Theorem manual_match_shape (style : NotationStyle) (open close : Z)
    (text_ : jsstring) (ms : list Match) (m : Match) :
  bracketsOf style = Some (open, close) ->
  matchAll text_ (getManualRegex style) = Ok ms ->
  In m ms ->
  exists b readings,
    PlainText open close b /\ readings <> [] /\
    Forall (PlainText open close) readings /\
    whole m = markup open close b readings /\
    group m 1 = Some b /\
    readingParts m = readings.
Proof.
  intros Hbr Hms Hin.
  destruct (brackets_pattern style open close Hbr) as (Hre & _).
  rewrite Hre in Hms. unfold matchAll, newRegExp in Hms.
  cbn [global source lastIndex] in Hms. injection Hms as <-.
  pose proof (matchAllLoop_matchAt (manualPattern open close) text_
                (S (length text_)) 0) as Hall.
  rewrite Forall_forall in Hall. destruct (Hall m Hin) as [Hinput Hat].
  apply matchAt_sound, den_manual in Hat.
  destruct Hat as (b & rds & Hb & Hne & Hrs & Hs & Hj & Hcaps).
  exists b, rds. split; [exact Hb |]. split; [exact Hne |]. split; [exact Hrs |].
  assert (Hs1 : skipn (S (m_index m)) text_
                = b ++ readingTail rds ++ close :: skipn (m_end m) text_).
  { unfold markup in Hs. cbn [app] in Hs.
    destruct (skipn_cons_nth _ _ _ _ Hs) as [_ Hs1].
    rewrite Hs1, <- !app_assoc. reflexivity. }
  assert (Hs2 : skipn (S (m_index m) + length b) text_
                = readingTail rds ++ close :: skipn (m_end m) text_)
    by (apply skipn_more, Hs1).
  assert (Hs3 : skipn (S (m_index m) + length b + length (readingTail rds)) text_
                = close :: skipn (m_end m) text_)
    by (apply skipn_more, Hs2).
  split; [| split].
  - unfold whole. rewrite Hinput. apply substring_skipn; assumption.
  - unfold group. rewrite Hcaps. cbn [getCap Nat.eqb]. rewrite Hinput. f_equal.
    apply substring_skipn; [| reflexivity].
    rewrite Hs1. f_equal. symmetry. apply skipn_more, Hs1.
  - unfold readingParts, group. rewrite Hcaps. cbn [getCap Nat.eqb orEmpty].
    rewrite Hinput.
    rewrite (substring_skipn text_ (readingTail rds)
               (S (m_index m) + length b)
               (S (m_index m) + length b + length (readingTail rds)));
      [| rewrite Hs2; f_equal; symmetry; apply skipn_more, Hs2 | reflexivity].
    rewrite (splitOn_readingTail open close rds Hne Hrs). reflexivity.
Qed.

Lemma manual_match_shape_witness :
  let t := 0x3053 :: Sample.kanji_kan_ji in
  let m := mkMatch t 1 10 [(2%nat, (4%nat, 9%nat)); (1%nat, (2%nat, 4%nat))] in
  exists b readings,
    PlainText 0x7B 0x7D b /\ readings <> [] /\
    Forall (PlainText 0x7B 0x7D) readings /\
    whole m = markup 0x7B 0x7D b readings /\
    group m 1 = Some b /\
    readingParts m = readings.
Proof.
  intros t m.
  apply (manual_match_shape curly 0x7B 0x7D t [m] m).
  - reflexivity.
  - vm_compute. reflexivity.
  - left. reflexivity.
Defined.

(* ------------------------------------------------------------------ *)
(** * When the Live Preview pass raises *)
(* ------------------------------------------------------------------ *)







(* ------------------------------------------------------------------ *)
(** * The readings of the segment builder *)
(* ------------------------------------------------------------------ *)

Section BuilderReadings.

Variable hira : jsstring -> jsstring.
Variable getTokenizer : option (jsstring -> list KuromojiToken).

Lemma split_readings (surface rd : jsstring) :
  let sp := splitOkurigana hira surface rd in
  (part_reading (prefix sp) ++ baseReading sp) ++ part_reading (suffix sp) = rd /\
  (truthy (part_base (prefix sp)) = false -> part_reading (prefix sp) = []) /\
  (truthy (part_base (suffix sp)) = false -> part_reading (suffix sp) = []).
Proof.
  unfold splitOkurigana. cbn [prefix suffix baseReading part_reading part_base].
  set (p := prefixWalk hira surface (mkWalk 0 [] [] rd)).
  set (s := suffixWalk hira _ _).
  split; [| split].
  - rewrite <- app_assoc. unfold s. rewrite suffixWalk_reading.
    cbn [w_reading w_read]. rewrite app_nil_r.
    unfold p. rewrite prefixWalk_reading. reflexivity.
  - intros He.
    assert (Hu : w_read p = unitwise hira (w_base p))
      by (apply prefixWalk_unitwise; reflexivity).
    rewrite Hu. destruct (w_base p); [reflexivity | discriminate].
  - intros He.
    assert (Hu : w_read s = unitwise hira (w_base s))
      by (apply suffixWalk_unitwise; reflexivity).
    rewrite Hu. destruct (w_base s); [reflexivity | discriminate].
Qed.

(** A token adds its reading to the text of the readings. *)
Lemma pushToken_reading (o : Out) (t : KuromojiToken) :
  CoreRead hira t ->
  concat (outFuri (pushToken hira o t))
  = concat (outFuri o) ++ tokenReading hira t.
Proof.
  intros Hcore. unfold pushToken, tokenReading.
  destruct (truthy (surface_form t)) eqn:Hs; cbn [negb];
    [| now rewrite app_nil_r].
  destruct (hasKanji (surface_form t)) eqn:Hk; cbn [negb].
  - set (rd := hira (rawReading t (surface_form t))).
    specialize (Hcore Hk). fold rd in Hcore.
    pose proof (splitOkurigana_base_has_kanji hira (surface_form t) rd Hk) as Hb.
    apply hasKanji_truthy in Hb.
    destruct (split_readings (surface_form t) rd) as (Hsum & Hpre & Hsuf).
    set (sp := splitOkurigana hira (surface_form t) rd) in *.
    rewrite Hb.
    assert (Hor : orElse (baseReading sp) rd = baseReading sp).
    { unfold orElse. destruct (baseReading sp); [contradiction | reflexivity]. }
    rewrite Hor.
    transitivity (concat (outFuri o)
                  ++ (part_reading (prefix sp) ++ baseReading sp)
                  ++ part_reading (suffix sp)); [| now rewrite Hsum].
    destruct (truthy (part_base (prefix sp))) eqn:E1;
      destruct (truthy (part_base (suffix sp))) eqn:E2;
      cbn [pushFuri pushKanji outFuri];
      rewrite ?concat_app; cbn [concat]; rewrite ?app_nil_r;
      rewrite ?(Hpre eq_refl), ?(Hsuf eq_refl), ?app_nil_r, ?app_nil_l;
      rewrite <- ?app_assoc; reflexivity.
  - cbn [pushFuri pushKanji outFuri]. rewrite concat_app. cbn [concat].
    now rewrite app_nil_r.
Qed.

Lemma fold_pushToken_reading (ts : list KuromojiToken) (o : Out) :
  Forall (CoreRead hira) ts ->
  concat (outFuri (fold_left (pushToken hira) ts o))
  = concat (outFuri o) ++ concat (map (tokenReading hira) ts).
Proof.
  intros Hall. revert o. induction Hall as [| t ts Ht _ IH]; intros o; simpl.
  - now rewrite app_nil_r.
  - rewrite IH, (pushToken_reading o t Ht), <- app_assoc. reflexivity.
Qed.

(** X29. For a non-empty input whose tokens with kanji each keep a
    reading for their core after the split, the readings of the segment,
    put together, are the normalised readings of the tokens in order (the
    conversion of the input itself when every token has an empty
    surface): no part of a reading is lost or shown twice. *)
Theorem getFuriganaSegmentsSync_spells_readings (jp : jsstring) (seg : Segment) :
  truthy jp = true ->
  In seg (getFuriganaSegmentsSync hira getTokenizer jp) ->
  Forall (CoreRead hira) (tokensOf getTokenizer jp) ->
  concat (furi seg)
  = (if truthy (concat (map surface_form (tokensOf getTokenizer jp)))
     then concat (map (tokenReading hira) (tokensOf getTokenizer jp))
     else hira jp).
Proof.
  intros Hjp Hin Hcore. unfold getFuriganaSegmentsSync in Hin.
  rewrite Hjp in Hin. cbn [negb] in Hin.
  destruct (fold_pushToken_text hira (tokensOf getTokenizer jp) (mkOut [] []))
    as [Hc Hf].
  specialize (Hf (Forall_nil _)). cbn [outKanji concat app] in Hc.
  pose proof (fold_pushToken_reading (tokensOf getTokenizer jp) (mkOut [] []) Hcore)
    as Hr.
  cbn [outFuri concat app] in Hr.
  set (o := fold_left (pushToken hira) (tokensOf getTokenizer jp) (mkOut [] [])) in *.
  rewrite <- Hc.
  destruct (Z.eqb_spec (Z.of_nat (length (outKanji o))) 0) as [E | E].
  - destruct Hin as [<- | []]. cbn [furi concat].
    destruct (outKanji o); [| simpl in E; lia].
    simpl. now rewrite app_nil_r.
  - destruct Hin as [<- | []]. cbn [furi]. rewrite Hr.
    destruct (outKanji o) as [| k ks]; [simpl in E; lia |].
    inversion Hf; subst. destruct k; [discriminate |]. reflexivity.
Qed.

End BuilderReadings.

Lemma getFuriganaSegmentsSync_spells_readings_witness :
  let tokenize := fun _ : jsstring =>
    [mkToken [0x98DF; 0x3079; 0x308B] (Some [0x305F; 0x3079; 0x308B])] in
  concat (furi (mkSegment [[0x98DF]; [0x3079; 0x308B]]
                          [[0x305F]; [0x3079; 0x308B]]))
  = (if truthy (concat (map surface_form (tokenize [0x98DF; 0x3079; 0x308B])))
     then concat (map (tokenReading Sample.keep) (tokenize [0x98DF; 0x3079; 0x308B]))
     else Sample.keep [0x98DF; 0x3079; 0x308B]).
Proof.
  intros tokenize.
  apply (getFuriganaSegmentsSync_spells_readings Sample.keep (Some tokenize)
           [0x98DF; 0x3079; 0x308B]).
  - reflexivity.
  - vm_compute. left. reflexivity.
  - repeat constructor. intros _. vm_compute. discriminate.
Defined.

(* ------------------------------------------------------------------ *)
(** * The text nodes Reading Mode converts *)
(* ------------------------------------------------------------------ *)

Lemma DomNode_nested_ind (P : DomNode -> Prop) :
  (forall v, P (TextN v)) ->
  (forall tagName matchesRuby childNodes,
     Forall P childNodes -> P (ElementN tagName matchesRuby childNodes)) ->
  P OtherN ->
  forall n, P n.
Proof.
  intros HT HE HO. fix IH 1. intros [v | tagName matchesRuby childNodes |].
  - apply HT.
  - apply HE. induction childNodes as [| c cs IHcs]; constructor.
    + apply IH.
    + exact IHcs.
  - apply HO.
Qed.

Section ReadingModeNodeFacts.

Variable toLowerCase : jsstring -> jsstring.

Lemma collect_element (inRuby : bool) tagName matchesRuby childNodes path out :
  collectTextNodes toLowerCase inRuby (ElementN tagName matchesRuby childNodes)
    path out
  = if isSkippableElement toLowerCase tagName then out
    else if matchesRuby || inRuby then out
    else collectChildren toLowerCase (matchesRuby || inRuby) childNodes path 0 out.
Proof.
  cbn [collectTextNodes].
  destruct (isSkippableElement toLowerCase tagName); [reflexivity |].
  destruct (matchesRuby || inRuby) eqn:E; [reflexivity |].
  generalize 0%nat as i. revert out.
  induction childNodes as [| c cs IH]; intros out i; [reflexivity |].
  cbn [collectChildren]. apply IH.
Qed.

Lemma under_under (p q : list nat) (f : Found) :
  under p (under q f) = under (p ++ q) f.
Proof. destruct f as [r v]. unfold under. cbn [fst snd]. now rewrite app_assoc. Qed.

Lemma under_nil (f : Found) : under [] f = f.
Proof. destruct f as [r v]. reflexivity. Qed.

Lemma collectChildren_rel (inRuby : bool) (cs : list DomNode) :
  Forall (fun c => forall inRuby path out,
            collectTextNodes toLowerCase inRuby c path out
            = out ++ map (under path) (collected toLowerCase inRuby c)) cs ->
  forall path i out,
    collectChildren toLowerCase inRuby cs path i out
    = out ++ map (under path) (collectChildren toLowerCase inRuby cs [] i []).
Proof.
  intros Hall. induction Hall as [| c cs Hc _ IH]; intros path i out;
    cbn [collectChildren].
  - simpl. now rewrite app_nil_r.
  - rewrite IH.
    rewrite (IH [] (S i) (collectTextNodes toLowerCase inRuby c ([] ++ [i]) [])).
    rewrite (Hc inRuby (path ++ [i]) out), (Hc inRuby ([] ++ [i]) []).
    cbn [app]. rewrite !map_app, !map_map, <- app_assoc.
    apply f_equal. apply f_equal2; apply map_ext; intros f.
    + now rewrite under_under.
    + now rewrite under_nil.
Qed.

(** The places are relative: collecting at [path] into [out] appends what
    is collected under the root, moved under [path]. *)
Lemma collect_rel : forall root inRuby path out,
  collectTextNodes toLowerCase inRuby root path out
  = out ++ map (under path) (collected toLowerCase inRuby root).
Proof.
  induction root as [v | tagName matchesRuby childNodes IH |]
    using DomNode_nested_ind; intros inRuby path out.
  - unfold collected. cbn [collectTextNodes].
    destruct (0 <? slen (trim v)); simpl; [| now rewrite app_nil_r].
    unfold under. simpl. now rewrite app_nil_r.
  - unfold collected. rewrite !collect_element.
    destruct (isSkippableElement toLowerCase tagName);
      [simpl; now rewrite app_nil_r |].
    destruct (matchesRuby || inRuby); [simpl; now rewrite app_nil_r |].
    apply collectChildren_rel. exact IH.
  - unfold collected. simpl. now rewrite app_nil_r.
Qed.

Lemma collectChildren_cons (inRuby : bool) (c : DomNode) (cs : list DomNode)
    (i : nat) :
  collectChildren toLowerCase inRuby (c :: cs) [] i []
  = map (under [i]) (collected toLowerCase inRuby c) ++ collectChildren toLowerCase inRuby cs [] (S i) [].
Proof.
  cbn [collectChildren]. rewrite (collectChildren_rel inRuby cs).
  - rewrite collect_rel. cbn [app]. f_equal.
    rewrite <- (map_id (collectChildren toLowerCase inRuby cs [] (S i) [])) at 2.
    apply map_ext. intros [p v]. reflexivity.
  - rewrite Forall_forall. intros c' _. apply collect_rel.
Qed.

Lemma collectChildren_in (inRuby : bool) (cs : list DomNode) :
  forall i p v,
    In (p, v) (collectChildren toLowerCase inRuby cs [] i []) <->
    exists k c q, nth_error cs k = Some c /\ p = (i + k)%nat :: q /\
                  In (q, v) (collected toLowerCase inRuby c).
Proof.
  induction cs as [| c cs IH]; intros i p v.
  - simpl. split; [contradiction |]. intros (k & c & q & Hk & _).
    destruct k; discriminate.
  - rewrite collectChildren_cons, in_app_iff, IH. split.
    + intros [H | (k & c' & q & Hk & -> & Hq)].
      * apply in_map_iff in H. destruct H as ([q v'] & E & Hq).
        unfold under in E. cbn [fst snd app] in E. injection E as <- <-.
        exists 0%nat, c, q. rewrite Nat.add_0_r. auto.
      * exists (S k), c', q. split; [exact Hk |].
        split; [f_equal; lia | exact Hq].
    + intros (k & c' & q & Hk & -> & Hq). destruct k as [| k].
      * left. injection Hk as <-. apply in_map_iff. exists (q, v).
        unfold under. cbn [fst snd app]. rewrite Nat.add_0_r. auto.
      * right. exists k, c', q. split; [exact Hk |].
        split; [f_equal; lia | exact Hq].
Qed.

Lemma collected_in : forall root inRuby p v,
  In (p, v) (collected toLowerCase inRuby root) <->
  TextAt toLowerCase inRuby root p v /\ trim v <> [].
Proof.
  induction root as [v0 | tagName matchesRuby childNodes IH |]
    using DomNode_nested_ind; intros inRuby p v.
  - unfold collected. cbn [collectTextNodes].
    assert (Ht : (0 <? slen (trim v0)) = true <-> trim v0 <> []).
    { unfold slen. destruct (trim v0); simpl; split; try congruence; try lia.
      intros _. reflexivity. }
    destruct (0 <? slen (trim v0)) eqn:E; simpl.
    + split.
      * intros [H | []]. injection H as <- <-.
        split; [constructor | apply Ht; reflexivity].
      * intros [H _]. inversion H; subst. left. reflexivity.
    + split; [contradiction |]. intros [H Hn]. inversion H; subst.
      apply Ht in Hn. discriminate.
  - unfold collected. rewrite collect_element.
    destruct (isSkippableElement toLowerCase tagName) eqn:Es.
    { split; [contradiction |]. intros [H _]. inversion H; subst. congruence. }
    destruct (matchesRuby || inRuby) eqn:Er.
    { split; [contradiction |]. intros [H _]. inversion H; subst. congruence. }
    rewrite collectChildren_in. rewrite Forall_forall in IH. split.
    + intros (k & c & q & Hk & -> & Hq). cbn [Nat.add].
      apply (IH c (nth_error_In _ _ Hk)) in Hq. destruct Hq as [Hq Hn].
      split; [| exact Hn]. econstructor; eauto. rewrite Er. exact Hq.
    + intros [H Hn]. inversion H; subst.
      match goal with
      | Hc : nth_error childNodes ?i = Some ?c |- _ =>
          exists i, c, path; split; [exact Hc |]; split; [reflexivity |];
          apply (IH c (nth_error_In _ _ Hc)); split; [| exact Hn]
      end.
      match goal with Ht : TextAt _ (_ || _) _ _ _ |- _ => rewrite Er in Ht; exact Ht end.
  - unfold collected. simpl. split; [contradiction |].
    intros [H _]. inversion H.
Qed.

Lemma collectChildren_sorted (inRuby : bool) (cs : list DomNode) :
  Forall (fun c => forall inRuby,
            StronglySorted pathBefore (map fst (collected toLowerCase inRuby c))) cs ->
  forall i,
    StronglySorted pathBefore (map fst (collectChildren toLowerCase inRuby cs [] i [])) /\
    Forall (fun p => exists k q, p = k :: q /\ (i <= k)%nat)
           (map fst (collectChildren toLowerCase inRuby cs [] i [])).
Proof.
  intros Hall. induction Hall as [| c cs Hc _ IH]; intros i.
  - simpl. split; constructor.
  - rewrite collectChildren_cons, map_app, map_map.
    destruct (IH (S i)) as [Hs Hf].
    assert (Hhead : map (fun x => fst (under [i] x)) (collected toLowerCase inRuby c)
                    = map (cons i) (map fst (collected toLowerCase inRuby c))).
    { rewrite map_map. apply map_ext. intros [p v]. reflexivity. }
    rewrite Hhead. split.
    + apply StronglySorted_app.
      * apply StronglySorted_map.
        eapply StronglySorted_impl; [| apply (Hc inRuby)].
        intros a b _ _ Hab. simpl. right. auto.
      * exact Hs.
      * intros a b Ha Hb.
        apply in_map_iff in Ha. destruct Ha as (a' & <- & _).
        rewrite Forall_forall in Hf. destruct (Hf b Hb) as (k & q & -> & Hk).
        simpl. left. lia.
    + apply Forall_app. split.
      * rewrite Forall_forall. intros a Ha.
        apply in_map_iff in Ha. destruct Ha as (a' & <- & _). eauto.
      * eapply Forall_impl; [| exact Hf].
        intros b (k & q & -> & Hk). exists k, q. split; [reflexivity | lia].
Qed.

Lemma collected_sorted : forall root inRuby,
  StronglySorted pathBefore (map fst (collected toLowerCase inRuby root)).
Proof.
  induction root as [v | tagName matchesRuby childNodes IH |]
    using DomNode_nested_ind; intros inRuby.
  - unfold collected. cbn [collectTextNodes].
    destruct (0 <? slen (trim v)); simpl; repeat constructor.
  - unfold collected. rewrite collect_element.
    destruct (isSkippableElement toLowerCase tagName); [constructor |].
    destruct (matchesRuby || inRuby); [constructor |].
    apply collectChildren_sorted. exact IH.
  - constructor.
Qed.

(** X30. Of a block, Reading Mode converts exactly the text nodes that are
    not blank and that lie under no [code], [pre], [script], [style] or
    [ruby] element of the block, provided the block is not itself inside
    a ruby: each of them once, in document order, and no other node. *)
Theorem collectTextNodes_exact (inRuby : bool) (root : DomNode) :
  let found := collectTextNodes toLowerCase inRuby root [] [] in
  (forall p v,
     In (p, v) found <-> TextAt toLowerCase inRuby root p v /\ trim v <> []) /\
  StronglySorted pathBefore (map fst found).
Proof.
  split.
  - intros p v. apply collected_in.
  - apply collected_sorted.
Qed.

End ReadingModeNodeFacts.
